(** * opnrs-svg-handler: the SVG to react-native-svg converter

    A shallow embedding of the three revisions of [svgToReactNative] found in
    the repository (the generic component of [src/App.jsx], the themed
    [FinalVersion] component, and the themed inline-JSX revision of
    [src/App.jsx]) together with the part of JavaScript they rely on:
    strings as sequences of code units, [String.prototype.replace] /
    [match] driven by backtracking regular expressions, [trim], [split],
    [join] and [try]/[catch]; and of the handlers of the [App] components
    around them: the highlighter of the editors, [convertAndFormat],
    [handleCopy] and the editor callback of the generic revision.

    Text is modelled as a list of 8-bit code units (the Latin-1 range of a
    JavaScript string). *)

From Stdlib Require Import Ascii String Bool Arith Lia List NArith.
Import ListNotations.
Local Open Scope list_scope.

(* ================================================================== *)
(** ** Text and characters *)

Definition text := list ascii.

(** A string literal as text. *)
Definition str (s : string) : text := list_ascii_of_string s.

Definition DQc : ascii := "034"%char.   (* the double quote *)
Definition SQc : ascii := "039"%char.   (* the single quote *)
Definition NLc : ascii := "010"%char.   (* line feed *)
Definition CRc : ascii := "013"%char.   (* carriage return *)
Definition DQ : text := [DQc].
Definition NL : text := [NLc].

Definition code (c : ascii) : nat := nat_of_ascii c.

Definition in_range (lo hi : nat) (c : ascii) : bool :=
  (lo <=? code c) && (code c <=? hi).

Definition is_lower (c : ascii) : bool := in_range 97 122 c.
Definition is_upper (c : ascii) : bool := in_range 65 90 c.
Definition is_digit (c : ascii) : bool := in_range 48 57 c.
Definition is_alpha (c : ascii) : bool := is_lower c || is_upper c.
Definition is_alnum (c : ascii) : bool := is_alpha c || is_digit c.

(** [\s] and the characters removed by [trim]: tab, line feed, vertical tab,
    form feed, carriage return, space and the no-break space. *)
Definition is_space (c : ascii) : bool :=
  in_range 9 13 c || (code c =? 32) || (code c =? 160).

(** Line terminators: what [.] refuses and what [^] follows under flag m. *)
Definition is_line_terminator (c : ascii) : bool :=
  (code c =? 10) || (code c =? 13).

Definition to_upper (c : ascii) : ascii :=
  if is_lower c then ascii_of_nat (code c - 32) else c.
Definition to_lower (c : ascii) : ascii :=
  if is_upper c then ascii_of_nat (code c + 32) else c.

Definition chr_eqb (a b : ascii) : bool := Ascii.eqb a b.

Fixpoint text_eqb (a b : text) : bool :=
  match a, b with
  | [], [] => true
  | x :: a', y :: b' => chr_eqb x y && text_eqb a' b'
  | _, _ => false
  end.

(** [startsWith]. *)
Fixpoint starts_with (w s : text) : bool :=
  match w, s with
  | [], _ => true
  | x :: w', y :: s' => chr_eqb x y && starts_with w' s'
  | _ :: _, [] => false
  end.

(** [includes]. *)
Fixpoint includes (w s : text) : bool :=
  starts_with w s ||
  match s with
  | [] => false
  | _ :: s' => includes w s'
  end.

(** [b.charAt(0).toUpperCase() + b.slice(1)]. *)
Definition capitalize (b : text) : text :=
  match b with
  | [] => []
  | c :: b' => to_upper c :: b'
  end.

Fixpoint drop_spaces (s : text) : text :=
  match s with
  | c :: s' => if is_space c then drop_spaces s' else s
  | [] => []
  end.

(** [trim]. *)
Definition trim (s : text) : text :=
  rev (drop_spaces (rev (drop_spaces s))).

(** [split] on one character; the result is never empty. *)
Fixpoint split_on (sep : ascii) (s : text) : list text :=
  match s with
  | [] => [[]]
  | c :: s' =>
      if chr_eqb c sep then [] :: split_on sep s'
      else match split_on sep s' with
           | l :: ls => (c :: l) :: ls
           | [] => [[c]]
           end
  end.

(** [join]. *)
Fixpoint join (sep : text) (ls : list text) : text :=
  match ls with
  | [] => []
  | [l] => l
  | l :: ls' => l ++ sep ++ join sep ls'
  end.

(* ================================================================== *)
(** ** Regular expressions

    The fragment of the JavaScript pattern language the converter uses,
    with the priorities of a backtracking matcher: alternatives left to
    right, greedy repetition longest first, lazy repetition shortest
    first. *)

Inductive regex : Type :=
| Eps
| Chr (c : ascii)                         (* one literal character *)
| Cls (neg : bool) (f : ascii -> bool)    (* a class, possibly negated *)
| Seq (a b : regex)
| Alt (a b : regex)
| Star (greedy : bool) (r : regex)        (* r* when greedy, r*? otherwise *)
| Grp (n : nat) (r : regex)               (* capturing group number n *)
| Ref (n : nat)                           (* back-reference to group n *)
| Bol                                     (* the assertion ^ *)
| NotAfter (c : ascii).                   (* negative look-behind on one character *)

Record flags : Type := Flags { fg : bool; fi : bool; fm : bool }.

Definition captures := list (nat * text).

(** The text of group [n]; a group that did not take part is empty. *)
Definition cap (n : nat) (c : captures) : text :=
  match find (fun e => fst e =? n) c with
  | Some e => snd e
  | None => []
  end.

(** A position in the subject: the text already passed, last character
    first, and the text still ahead. *)
Definition outcome : Type := (text * text * captures)%type.
Definition cont : Type := text -> text -> captures -> option outcome.

Definition chr_match (ci : bool) (x a : ascii) : bool :=
  chr_eqb x a || (ci && chr_eqb (to_upper x) (to_upper a)).

Definition cls_match (ci neg : bool) (f : ascii -> bool) (a : ascii) : bool :=
  xorb neg (f a || (ci && (f (to_lower a) || f (to_upper a)))).

(** The text consumed between position [p] and a later position [p']. *)
Definition consumed (p p' : text) : text :=
  rev (firstn (length p' - length p) p').

Fixpoint ref_match (ci : bool) (w p s : text) : option (text * text) :=
  match w with
  | [] => Some (p, s)
  | x :: w' =>
      match s with
      | a :: s' => if chr_match ci x a then ref_match ci w' (a :: p) s' else None
      | [] => None
      end
  end.

(** The loop of a repetition, given the matcher [step] of its body. An
    iteration that consumes nothing is refused; [n] bounds the number of
    iterations and is at least the length of the text ahead. *)
Fixpoint star_loop (step : text -> text -> captures -> cont -> option outcome)
  (greedy : bool) (k : cont) (n : nat) (p s : text) (c : captures)
  {struct n} : option outcome :=
  match n with
  | 0 => k p s c
  | S n' =>
      let again p' s' c' :=
        if length s' <? length s then star_loop step greedy k n' p' s' c' else None in
      if greedy then
        match step p s c again with
        | Some res => Some res
        | None => k p s c
        end
      else
        match k p s c with
        | Some res => Some res
        | None => step p s c again
        end
  end.

Fixpoint run (fl : flags) (r : regex) (p s : text) (c : captures) (k : cont)
  {struct r} : option outcome :=
  match r with
  | Eps => k p s c
  | Chr x =>
      match s with
      | a :: s' => if chr_match (fi fl) x a then k (a :: p) s' c else None
      | [] => None
      end
  | Cls neg f =>
      match s with
      | a :: s' => if cls_match (fi fl) neg f a then k (a :: p) s' c else None
      | [] => None
      end
  | Seq a b => run fl a p s c (fun p' s' c' => run fl b p' s' c' k)
  | Alt a b =>
      match run fl a p s c k with
      | Some res => Some res
      | None => run fl b p s c k
      end
  | Star greedy r' => star_loop (run fl r') greedy k (length s) p s c
  | Grp n r' =>
      run fl r' p s c (fun p' s' c' => k p' s' ((n, consumed p p') :: c'))
  | Ref n =>
      match ref_match (fi fl) (cap n c) p s with
      | Some (p', s') => k p' s' c
      | None => None
      end
  | Bol =>
      match p with
      | [] => k p s c
      | a :: _ => if fm fl && is_line_terminator a then k p s c else None
      end
  | NotAfter x =>
      match p with
      | [] => k p s c
      | a :: _ => if chr_eqb a x then None else k p s c
      end
  end.

(** One attempt at the current position; group 0 is the whole match. *)
Definition attempt (fl : flags) (r : regex) (p s : text) : option outcome :=
  run fl (Grp 0 r) p s [] (fun p' s' c' => Some (p', s', c')).

(** The leftmost match at or after the current position: the text skipped
    before it, the position after it and the captures. *)
Fixpoint search (fl : flags) (r : regex) (p s : text)
  : option (text * outcome) :=
  match attempt fl r p s with
  | Some res => Some ([], res)
  | None =>
      match s with
      | [] => None
      | a :: s' =>
          match search fl r (a :: p) s' with
          | Some (skipped, res) => Some (a :: skipped, res)
          | None => None
          end
      end
  end.

(** [String.prototype.match] without flag g: the captures of the first
    match, or nothing. *)
Definition regex_match (fl : flags) (r : regex) (s : text) : option captures :=
  match search fl r [] s with
  | Some (_, (_, _, c)) => Some c
  | None => None
  end.

(** The loop of [String.prototype.replace] under flag g. After an empty
    match the next character is copied and the search resumes behind it. *)
Fixpoint replace_loop (n : nat) (fl : flags) (r : regex)
  (f : captures -> text) (p s : text) : text :=
  match n with
  | 0 => s
  | S n' =>
      match search fl r p s with
      | None => s
      | Some (skipped, (p1, s1, c)) =>
          skipped ++ f c ++
          match cap 0 c with
          | [] =>
              match s1 with
              | [] => []
              | a :: s2 => a :: replace_loop n' fl r f (a :: p1) s2
              end
          | _ :: _ => replace_loop n' fl r f p1 s1
          end
      end
  end.

(** [s.replace(r, f)]: every match under flag g, the first one otherwise.
    The replacement [f] receives the captures (group 0 is the match). *)
Definition replace_all (fl : flags) (r : regex) (f : captures -> text) (p s : text) : text :=
  replace_loop (S (length s)) fl r f p s.

Definition replace (fl : flags) (r : regex) (f : captures -> text) (s : text) : text :=
  if fg fl then replace_all fl r f [] s
  else match search fl r [] s with
       | None => s
       | Some (skipped, (_, s1, c)) => skipped ++ f c ++ s1
       end.

(** *** Pattern notation *)

Fixpoint lit_text (w : text) : regex :=
  match w with
  | [] => Eps
  | [c] => Chr c
  | c :: w' => Seq (Chr c) (lit_text w')
  end.

Definition lit (s : string) : regex := lit_text (str s).

Definition star (r : regex) : regex := Star true r.
Definition lazy_star (r : regex) : regex := Star false r.
Definition plus (r : regex) : regex := Seq r (Star true r).
Definition opt (r : regex) : regex := Alt r Eps.

Declare Scope regex_scope.
Delimit Scope regex_scope with re.
Infix "+++" := Seq (at level 60, right associativity) : regex_scope.
Bind Scope regex_scope with regex.

Definition chr_is (x : ascii) : ascii -> bool := fun c => chr_eqb c x.

Definition any_char : regex := Cls false (fun c => is_space c || negb (is_space c)).  (* [\s\S] *)
Definition dot : regex := Cls true is_line_terminator.                                   (* . *)
Definition space : regex := Cls false is_space.                                          (* \s *)
Definition not_gt : regex := Cls true (chr_is ">").                                      (* [^>] *)
Definition not_dq : regex := Cls true (chr_is DQc).                                      (* [^DQUOTE] *)
Definition alnum : regex := Cls false is_alnum.                                          (* [a-zA-Z0-9] *)
Definition lower : regex := Cls false is_lower.                                          (* [a-z] *)

Definition f_g : flags := Flags true false false.
Definition f_gi : flags := Flags true true false.
Definition f_gm : flags := Flags true false true.
Definition f_i : flags := Flags false true false.
Definition f_none : flags := Flags false false false.

(* ================================================================== *)
(** ** JavaScript values and completions *)

(** What a caller can hand to [svgToReactNative]. *)
Inductive value : Type :=
| VUndefined
| VNull
| VBool (b : bool)
| VString (s : text).

Definition is_empty (s : text) : bool :=
  match s with
  | [] => true
  | _ :: _ => false
  end.

(** [!!v]. *)
Definition truthy (v : value) : bool :=
  match v with
  | VUndefined | VNull => false
  | VBool b => b
  | VString s => negb (is_empty s)
  end.

(** [typeof v === "string"]. *)
Definition is_string (v : value) : bool :=
  match v with
  | VString _ => true
  | _ => false
  end.

(** A statement list either completes with a value or throws an error
    carrying a message. *)
Inductive completion (A : Type) : Type :=
| Normal (a : A)
| Throw (message : text).
Arguments Normal {A} a.
Arguments Throw {A} message.

Definition bind {A B : Type} (m : completion A) (f : A -> completion B) : completion B :=
  match m with
  | Normal a => f a
  | Throw e => Throw e
  end.

Notation "x <- m ;; k" := (bind m (fun x => k))
  (at level 61, m at next level, right associativity).

(** [try { body } catch (error) { handler }]. *)
Definition try_catch {A : Type} (body : completion A) (handler : text -> A) : A :=
  match body with
  | Normal a => a
  | Throw e => handler e
  end.

(** [v.replace(r, f)]: only strings have the method. *)
Definition method_replace (v : value) (fl : flags) (r : regex) (f : captures -> text)
  : completion text :=
  match v with
  | VString s => Normal (replace fl r f s)
  | _ => Throw (str "svg.replace is not a function")
  end.

(** The replacement of [camelCase]: [a + b.charAt(0).toUpperCase() + b.slice(1) + "="]. *)
Definition camel (c : captures) : text :=
  cap 1 c ++ capitalize (cap 2 c) ++ str "=".

(** [/([a-zA-Z0-9]+)-([a-zA-Z0-9]+)=/g], shared by the three revisions.
    (In the patterns quoted in this file DQ stands for the double quote and
    a blank separates a star from a closing parenthesis.) *)
Definition re_hyphen : regex :=
  (Grp 1 (plus alnum) +++ Chr "-" +++ Grp 2 (plus alnum) +++ Chr "=")%re.

Definition camel_case (s : text) : text := replace f_g re_hyphen camel s.

(** [/class=/g] to [className=]. *)
Definition class_name (s : text) : text :=
  replace f_g (lit "class=") (fun _ => str "className=") s.

(** The callback of the tag capitalisation. *)
Definition cap_tag (open : text) (c : captures) : text :=
  if text_eqb (cap 1 c) (str "svg") then open ++ str "Svg"
  else open ++ capitalize (cap 1 c).

(** [/<style[^>]*>[\s\S]*?<\/style>/gi] and its script twin. *)
Definition re_style : regex :=
  (lit "<style" +++ star not_gt +++ Chr ">" +++ lazy_star any_char +++ lit "</style>")%re.
Definition re_script : regex :=
  (lit "<script" +++ star not_gt +++ Chr ">" +++ lazy_star any_char +++ lit "</script>")%re.

Definition strip_style (s : text) : text := replace f_gi re_style (fun _ => []) s.
Definition strip_script (s : text) : text := replace f_gi re_script (fun _ => []) s.

(** [/(width|height)=DQ[^DQ]*DQ/g]. *)
Definition re_size : regex :=
  (Grp 1 (Alt (lit "width") (lit "height")) +++ Chr "=" +++ Chr DQc +++ star not_dq +++ Chr DQc)%re.

(** [/^\s*\n/gm]. *)
Definition strip_blank_lines (s : text) : text :=
  replace f_gm (Bol +++ star space +++ Chr NLc)%re (fun _ => []) s.

(* ================================================================== *)
(** ** The generic revision ([src/App.jsx], component [SvgComponent]) *)

Module Generic.

Inductive exit : Type :=
| Empty                       (* [if (!svg) return ''] *)
| Generated (src : text)      (* the [return] of the [try] block *)
| Caught.                     (* the [return] of the [catch] block *)

(** [/<\?xml(.|\n)*?\?>/g] *)
Definition re_xml : regex :=
  (lit "<?xml" +++ lazy_star (Grp 1 (Alt dot (Chr NLc))) +++ lit "?>")%re.
(** [/<!--(.|\n)*?-->/g] *)
Definition re_comment : regex :=
  (lit "<!--" +++ lazy_star (Grp 1 (Alt dot (Chr NLc))) +++ lit "-->")%re.
(** [/<!DOCTYPE(.|\n)*?>/gi] *)
Definition re_doctype : regex :=
  (lit "<!DOCTYPE" +++ lazy_star (Grp 1 (Alt dot (Chr NLc))) +++ Chr ">")%re.
(** [/xmlns:xlink=DQ[^DQ]*DQ/g] *)
Definition re_xlink : regex :=
  (lit "xmlns:xlink=" +++ Chr DQc +++ star not_dq +++ Chr DQc)%re.
(** [/<svg([^>]* )>/] *)
Definition re_svg_open : regex := (lit "<svg" +++ Grp 1 (star not_gt) +++ Chr ">")%re.
(** [/<([a-z]+)/g] and [/<\/([a-z]+)/g] *)
Definition re_open : regex := (Chr "<" +++ Grp 1 (plus lower))%re.
Definition re_close : regex := (lit "</" +++ Grp 1 (plus lower))%re.
(** [/(<[A-Za-z0-9]+[^>]* )(?<!\/)>/g] *)
Definition re_unclosed : regex :=
  (Grp 1 (Chr "<" +++ plus alnum +++ star not_gt) +++ NotAfter "/" +++ Chr ">")%re.

Definition strip_xml (v : value) : completion text := method_replace v f_g re_xml (fun _ => []).
Definition strip_comments (s : text) : text := replace f_g re_comment (fun _ => []) s.
Definition strip_doctype (s : text) : text := replace f_gi re_doctype (fun _ => []) s.
Definition strip_xlink (s : text) : text := replace f_g re_xlink (fun _ => []) s.
Definition strip_size (s : text) : text := replace f_g re_size (fun _ => []) s.
Definition svg_open (s : text) : text :=
  replace f_none re_svg_open (fun c => str "<Svg" ++ cap 1 c ++ str ">") s.
Definition svg_close (s : text) : text :=
  replace f_none (lit "</svg>") (fun _ => str "</Svg>") s.
Definition capitalize_open (s : text) : text := replace f_g re_open (cap_tag (str "<")) s.
Definition capitalize_close (s : text) : text := replace f_g re_close (cap_tag (str "</")) s.
(** Both branches of the callback return the match itself. *)
Definition self_close (s : text) : text :=
  replace f_g re_unclosed
    (fun c => if starts_with (str ">/") (rev (cap 0 c)) then cap 0 c else cap 0 c) s.
Definition indent (s : text) : text := replace f_g (Chr NLc) (fun _ => NL ++ str "  ") s.

Definition header : text :=
  str "import * as React from 'react';" ++ NL ++
  str "import { Svg, Path, Circle, Rect, Ellipse, G, Defs, LinearGradient, Stop, Polygon, Polyline, Line, Text, TSpan } from 'react-native-svg';" ++ NL ++ NL ++
  str "export default function SvgComponent(props) {" ++ NL ++ str "  return (" ++ NL ++ str "    ".

Definition footer : text := NL ++ str "  );" ++ NL ++ str "}".

(** The statements of the [try] block after the first one, which is the
    only one that can throw. *)
Definition rewrite (svg : text) : text :=
  let svg := strip_comments svg in
  let svg := strip_doctype svg in
  let svg := strip_xlink svg in
  let svg := strip_size svg in
  let svg := camel_case svg in
  let svg := class_name svg in
  let svg := svg_open svg in
  let svg := svg_close svg in
  let svg := capitalize_open svg in
  let svg := capitalize_close svg in
  let svg := self_close svg in
  let svg := strip_style svg in
  let svg := strip_script svg in
  let svg := strip_blank_lines svg in
  let svg := indent svg in
  trim svg.

Definition body (svg : value) : completion exit :=
  svg <- strip_xml svg ;;
  Normal (Generated (header ++ rewrite svg ++ footer)).

Definition returns (svg : value) : exit :=
  if negb (truthy svg) then Empty
  else try_catch (body svg) (fun _ => Caught).

Definition exit_text (e : exit) : text :=
  match e with
  | Empty => []
  | Generated src => src
  | Caught => str "// Error parsing SVG"
  end.

Definition svgToReactNative (svg : value) : text := exit_text (returns svg).

(** The editor callback of this revision keeps the first svg block of
    what was typed and nothing else:
    [value.match(/<svg[\s\S]*?<\/svg>/i)], then [match ? match[0] : '']. *)
Definition onValueChange (v : text) : text :=
  match regex_match f_i (lit "<svg" +++ lazy_star any_char +++ lit "</svg>")%re v with
  | Some c => cap 0 c
  | None => []
  end.

End Generic.

(* ================================================================== *)
(** ** What the two themed revisions share *)

(** [/<\?xml[^>]*\?>/gi], [/<!DOCTYPE[^>]*>/gi], [/<!--[\s\S]*?-->/g] *)
Definition re_xml_decl : regex := (lit "<?xml" +++ star not_gt +++ lit "?>")%re.
Definition re_doctype : regex := (lit "<!DOCTYPE" +++ star not_gt +++ Chr ">")%re.
Definition re_comment : regex := (lit "<!--" +++ lazy_star any_char +++ lit "-->")%re.

Definition strip_xml_decl (s : text) : text := replace f_gi re_xml_decl (fun _ => []) s.
Definition strip_doctype (s : text) : text := replace f_gi re_doctype (fun _ => []) s.
Definition strip_comments (s : text) : text := replace f_g re_comment (fun _ => []) s.

(** The first statement of the [try] block: remove the XML declaration,
    the DOCTYPE and the comments. *)
Definition sanitize_text (svg : text) : text :=
  strip_comments (strip_doctype (strip_xml_decl svg)).

Definition sanitize (svg : value) : completion text :=
  svg <- method_replace svg f_gi re_xml_decl (fun _ => []) ;;
  Normal (strip_comments (strip_doctype svg)).

(** [/<svg([^>]* )>([\s\S]*?)<\/svg>/i] *)
Definition re_svg : regex :=
  (lit "<svg" +++ Grp 1 (star not_gt) +++ Chr ">" +++
   Grp 2 (lazy_star any_char) +++ lit "</svg>")%re.

(** [/xmlns(:xlink)?=DQ[^DQ]*DQ/g] *)
Definition re_xmlns : regex :=
  (lit "xmlns" +++ opt (Grp 1 (lit ":xlink")) +++ Chr "=" +++ Chr DQc +++
   star not_dq +++ Chr DQc)%re.

(** [/<([a-z]+)/gi] and [/<\/([a-z]+)/gi] *)
Definition re_open : regex := (Chr "<" +++ Grp 1 (plus lower))%re.
Definition re_close : regex := (lit "</" +++ Grp 1 (plus lower))%re.

Definition capitalize_open (s : text) : text := replace f_gi re_open (cap_tag (str "<")) s.
Definition capitalize_close (s : text) : text := replace f_gi re_close (cap_tag (str "</")) s.

(** [/<([A-Za-z0-9]+)([^>]* )\/>/g] to [<$1$2 />] *)
Definition re_self_closing : regex :=
  (Chr "<" +++ Grp 1 (plus alnum) +++ Grp 2 (star not_gt) +++ lit "/>")%re.
Definition format_self_closing (s : text) : text :=
  replace f_g re_self_closing (fun c => str "<" ++ cap 1 c ++ cap 2 c ++ str " />") s.

(** [/<([A-Za-z0-9]+)([^>]* )>([\s\S]*?)<\/\1>/g]: an element whose
    content is blank becomes self-closing, any other match is kept. *)
Definition re_paired : regex :=
  (Chr "<" +++ Grp 1 (plus alnum) +++ Grp 2 (star not_gt) +++ Chr ">" +++
   Grp 3 (lazy_star any_char) +++ lit "</" +++ Ref 1 +++ Chr ">")%re.
Definition collapse_empty (s : text) : text :=
  replace f_g re_paired
    (fun c => if is_empty (trim (cap 3 c))
              then str "<" ++ cap 1 c ++ cap 2 c ++ str " />"
              else cap 0 c) s.

(** [/\n\s*\n/g] to one line feed. *)
Definition squeeze_lines (s : text) : text :=
  replace f_g (Chr NLc +++ star space +++ Chr NLc)%re (fun _ => NL) s.

(** [content.split("\n").map((line) => pad + line).join("\n")] *)
Definition indent_lines (pad : text) (s : text) : text :=
  join NL (map (fun line => pad ++ line) (split_on NLc s)).

(** The rewriting of the svg element's content up to the fill injection. *)
Definition normalize_content (svgContent : text) : text :=
  collapse_empty
    (format_self_closing
       (strip_script
          (strip_style
             (camel_case
                (class_name
                   (capitalize_close
                      (capitalize_open svgContent))))))).

(** The rewriting of the svg element's attribute text, before the
    conversion to camelCase. *)
Definition strip_root_attributes (svgAttrs : text) : text :=
  trim (replace f_g re_size (fun _ => [])
          (replace f_g re_xmlns (fun _ => []) svgAttrs)).

(** The test of the caller [convertAndFormat] for an error comment. *)
Definition is_error_comment (jsx : text) : bool :=
  starts_with (str "// Error") jsx ||
  starts_with (str "// No valid") jsx ||
  starts_with (str "// Invalid") jsx.

Inductive exit : Type :=
| InvalidInput               (* the guard before the [try] block *)
| NoSvg                      (* [if (!svgMatch) return ...] *)
| Generated (src : text)     (* the last [return] of the [try] block *)
| Caught (message : text).   (* the [return] of the [catch] block *)

Definition exit_text (e : exit) : text :=
  match e with
  | InvalidInput => str "// Invalid SVG input"
  | NoSvg => str "// No valid SVG content found"
  | Generated src => src
  | Caught message => str "// Error parsing SVG: " ++ message
  end.

(* ================================================================== *)
(** ** The themed component revision (component [FinalVersion]) *)

Module Themed.

(** [/<Path([^>]*?)fill=DQ[^DQ]*DQ([^>]*?)\/>/g] *)
Definition re_fill_self : regex :=
  (lit "<Path" +++ Grp 1 (lazy_star not_gt) +++ lit "fill=" +++ Chr DQc +++
   star not_dq +++ Chr DQc +++ Grp 2 (lazy_star not_gt) +++ lit "/>")%re.
(** [/<Path([^>]*?)fill=DQ[^DQ]*DQ([^>]*?)>([\s\S]*?)<\/Path>/g] *)
Definition re_fill_paired : regex :=
  (lit "<Path" +++ Grp 1 (lazy_star not_gt) +++ lit "fill=" +++ Chr DQc +++
   star not_dq +++ Chr DQc +++ Grp 2 (lazy_star not_gt) +++ Chr ">" +++
   Grp 3 (lazy_star any_char) +++ lit "</Path>")%re.

Definition fill_self (s : text) : text :=
  replace f_g re_fill_self
    (fun c => str "<Path" ++ cap 1 c ++ str "fill={fillColor}" ++ cap 2 c ++ str " />") s.
Definition fill_paired (s : text) : text :=
  replace f_g re_fill_paired
    (fun c => str "<Path" ++ cap 1 c ++ str "fill={fillColor}" ++ cap 2 c ++ str ">" ++
              cap 3 c ++ str "</Path>") s.

(** Apply fillColor to Path elements. *)
Definition apply_fill (s : text) : text := fill_paired (fill_self s).

Definition tidy (content : text) : text :=
  indent_lines (str "      ")
    (trim (squeeze_lines (strip_blank_lines content))).

Definition height_line : text :=
  str "  const height = (width * 1024) / 1024 // Maintain the aspect ratio based on the original SVG size".

Definition header : text :=
  str "import React from " ++ DQ ++ str "react" ++ DQ ++ NL ++
  str "import Svg, { Path } from " ++ DQ ++ str "react-native-svg" ++ DQ ++ NL ++ NL ++
  str "interface ThemeSVGProps {" ++ NL ++
  str "  width: number // Accepts width as a prop" ++ NL ++
  str "  fillColor: string" ++ NL ++
  str "}" ++ NL ++ NL ++
  str "const FinalVersion: React.FC<ThemeSVGProps> = ({ width, fillColor }) => {" ++ NL ++
  height_line ++ NL ++ NL ++
  str "  return (" ++ NL.

Definition root_open (attributes : text) : text :=
  str "    <Svg width={width} height={height} " ++ attributes ++ str " fill={fillColor}>".

Definition footer : text :=
  str "    </Svg>" ++ NL ++
  str "  )" ++ NL ++
  str "}" ++ NL ++ NL ++
  str "export default FinalVersion".

Definition component (attributes content : text) : text :=
  header ++ root_open attributes ++ NL ++ content ++ NL ++ footer.

Definition body (svg : value) : completion exit :=
  svg <- sanitize svg ;;
  match regex_match f_i re_svg svg with
  | None => Normal NoSvg
  | Some svgMatch =>
      let svgAttrs := cap 1 svgMatch in
      let svgContent := cap 2 svgMatch in
      let attributes := camel_case (strip_root_attributes svgAttrs) in
      let content := tidy (apply_fill (normalize_content svgContent)) in
      Normal (Generated (component attributes content))
  end.

Definition returns (svg : value) : exit :=
  if negb (truthy svg) || negb (is_string svg) then InvalidInput
  else try_catch (body svg) Caught.

Definition svgToReactNative (svg : value) : text := exit_text (returns svg).

End Themed.

(* ================================================================== *)
(** ** The themed inline revision ([src/App.jsx], JSX only) *)

Module Inline.

(** [/width\s*=\s*[DQ']?([^DQ'\s>]+)/i] and the same for height *)
Definition value_char (c : ascii) : bool :=
  chr_eqb c DQc || chr_eqb c SQc || is_space c || chr_eqb c ">".
Definition quote : regex := Cls false (fun c => chr_eqb c DQc || chr_eqb c SQc).
Definition re_dimension (name : string) : regex :=
  (lit name +++ star space +++ Chr "=" +++ star space +++ opt quote +++
   Grp 1 (plus (Cls true value_char)))%re.

(** [/viewBox=DQ([^DQ]* )DQ/i] *)
Definition re_viewBox_dq : regex :=
  (lit "viewBox=" +++ Chr DQc +++ Grp 1 (star not_dq) +++ Chr DQc)%re.
(** [/viewBox\s*=\s*[DQ']([^DQ']+)[DQ']/i] *)
Definition re_viewBox : regex :=
  (lit "viewBox" +++ star space +++ Chr "=" +++ star space +++ quote +++
   Grp 1 (plus (Cls true (fun c => chr_eqb c DQc || chr_eqb c SQc))) +++ quote)%re.

(** [/<Path([^>]* )\s+fill\s*=\s*DQ[^DQ]*DQ([^>]*>)/g] *)
Definition re_fill : regex :=
  (lit "<Path" +++ Grp 1 (star not_gt) +++ plus space +++ lit "fill" +++
   star space +++ Chr "=" +++ star space +++ Chr DQc +++ star not_dq +++ Chr DQc +++
   Grp 2 (star not_gt +++ Chr ">"))%re.

(** Handle Path elements: only replace fill attributes if they exist. *)
Definition apply_fill (s : text) : text :=
  replace f_g re_fill
    (fun c => str "<Path" ++ cap 1 c ++ str " fill={fillColor} " ++ cap 2 c) s.

Definition dimension (name : string) (svgAttrs : text) : text :=
  match regex_match f_i (re_dimension name) svgAttrs with
  | Some m => cap 1 m
  | None => str "100"
  end.

(** The viewBox of the output: the one of the source if it has one, else
    one made from the width and the height. *)
Definition resolve_viewBox (svgAttrs : text) : text :=
  let widthValue := dimension "width" svgAttrs in
  let heightValue := dimension "height" svgAttrs in
  match regex_match f_i re_viewBox svgAttrs with
  | Some m => cap 1 m
  | None => str "0 0 " ++ widthValue ++ str " " ++ heightValue
  end.

(** The attribute text kept from the root; the output does not use it. *)
Definition root_attributes (svgAttrs : text) : text :=
  let attributes := strip_root_attributes svgAttrs in
  let attributes :=
    if negb (includes (str "viewBox") attributes) then
      match regex_match f_i re_viewBox_dq svgAttrs with
      | Some m => attributes ++ str " viewBox=" ++ DQ ++ cap 1 m ++ DQ
      | None => attributes
      end
    else attributes in
  camel_case attributes.

Definition tidy (content : text) : text :=
  indent_lines (str "        ")
    (trim (squeeze_lines (strip_blank_lines content))).

Definition root_open (viewBox : text) : text :=
  str "<Svg width={width} height={height} viewBox=" ++ DQ ++ viewBox ++ DQ ++
  str " fill={fillColor}>".

Definition jsx (viewBox content : text) : text :=
  root_open viewBox ++ NL ++ content ++ NL ++ str "</Svg>".

Definition body (svg : value) : completion exit :=
  svg <- sanitize svg ;;
  match regex_match f_i re_svg svg with
  | None => Normal NoSvg
  | Some svgMatch =>
      let svgAttrs := cap 1 svgMatch in
      let svgContent := cap 2 svgMatch in
      let content := tidy (apply_fill (normalize_content svgContent)) in
      let viewBox := resolve_viewBox svgAttrs in
      Normal (Generated (jsx viewBox content))
  end.

Definition returns (svg : value) : exit :=
  if negb (truthy svg) || negb (is_string svg) then InvalidInput
  else try_catch (body svg) Caught.

Definition svgToReactNative (svg : value) : text := exit_text (returns svg).

End Inline.

(* ================================================================== *)
(** ** The revisions side by side *)

(** The spec speaks of one entry point [convert] and of a flavor; in the
    repository the flavor is the revision of [svgToReactNative]. *)
Inductive revision : Type := generic | themed | themed_inline.

Definition convert (r : revision) (svg : value) : text :=
  match r with
  | generic => Generic.svgToReactNative svg
  | themed => Themed.svgToReactNative svg
  | themed_inline => Inline.svgToReactNative svg
  end.

(** A conversion failed when it left through another [return] than the
    one that hands out the generated source. *)
Definition failed (r : revision) (svg : value) : bool :=
  match r with
  | generic =>
      match Generic.returns svg with
      | Generic.Generated _ => false
      | _ => true
      end
  | themed =>
      match Themed.returns svg with
      | Generated _ => false
      | _ => true
      end
  | themed_inline =>
      match Inline.returns svg with
      | Generated _ => false
      | _ => true
      end
  end.

(* ================================================================== *)
(** ** The components around the converter *)

(** *** The highlighter of the editors (themed revisions)

    [highlight(code, language)] of the component [App]: the text is
    escaped, and for the input editor it is then dressed with spans. *)

Module Highlight.

(** [/</g] to [&lt;], then [/>/g] to [&gt;] *)
Definition escape_lt (s : text) : text := replace f_g (Chr "<") (fun _ => str "&lt;") s.
Definition escape_gt (s : text) : text := replace f_g (Chr ">") (fun _ => str "&gt;") s.

(** [/(&lt;)(\/)?([a-zA-Z0-9]+)/g] to
    [$1$2<span class=DQ token tag DQ>$3</span>] *)
Definition re_tag : regex :=
  (Grp 1 (lit "&lt;") +++ opt (Grp 2 (Chr "/")) +++ Grp 3 (plus alnum))%re.
Definition mark_tags (s : text) : text :=
  replace f_g re_tag
    (fun c => cap 1 c ++ cap 2 c ++
              str "<span class=" ++ DQ ++ str "token tag" ++ DQ ++ str ">" ++
              cap 3 c ++ str "</span>") s.

(** [/([a-zA-Z-]+)=(DQ.*?DQ|'.*?'|\{.*?\})/g] to
    [<span class=DQ token attr-name DQ>$1</span>=<span class=DQ token attr-value DQ>$2</span>] *)
Definition name_char (c : ascii) : bool := is_alpha c || chr_eqb c "-".
Definition re_attribute : regex :=
  (Grp 1 (plus (Cls false name_char)) +++ Chr "=" +++
   Grp 2 (Alt (Chr DQc +++ lazy_star dot +++ Chr DQc)
            (Alt (Chr SQc +++ lazy_star dot +++ Chr SQc)
                 (Chr "{" +++ lazy_star dot +++ Chr "}"))))%re.
Definition mark_attributes (s : text) : text :=
  replace f_g re_attribute
    (fun c => str "<span class=" ++ DQ ++ str "token attr-name" ++ DQ ++ str ">" ++
              cap 1 c ++ str "</span>=<span class=" ++ DQ ++ str "token attr-value" ++ DQ ++
              str ">" ++ cap 2 c ++ str "</span>") s.

(** [/(\/\/.*|\/\*[\s\S]*?\*\/)/g] to
    [<span class=DQ token comment DQ>$1</span>] *)
Definition re_comment : regex :=
  Grp 1 (Alt (lit "//" +++ star dot)
             (lit "/*" +++ lazy_star any_char +++ lit "*/"))%re.
Definition mark_comments (s : text) : text :=
  replace f_g re_comment
    (fun c => str "<span class=" ++ DQ ++ str "token comment" ++ DQ ++ str ">" ++
              cap 1 c ++ str "</span>") s.

Definition syntaxHighlight (t : text) : text :=
  mark_comments (mark_attributes (mark_tags (escape_gt (escape_lt t)))).

Definition highlight (code language : text) : text :=
  if text_eqb language (str "html") then syntaxHighlight code
  else escape_gt (escape_lt code).

End Highlight.

(** *** The state of the editors

    The state variables of [App] that the handlers below read or write;
    [null] is [None]. *)

Record editor : Type := Editor {
  debouncedInput : value;
  converted : text;
  error : option text;
  formattingError : option text;
  copySuccess : text
}.

Definition setConverted (jsx : text) (st : editor) : editor :=
  Editor (debouncedInput st) jsx (error st) (formattingError st) (copySuccess st).
Definition setError (e : option text) (st : editor) : editor :=
  Editor (debouncedInput st) (converted st) e (formattingError st) (copySuccess st).
Definition setFormattingError (e : option text) (st : editor) : editor :=
  Editor (debouncedInput st) (converted st) (error st) e (copySuccess st).
Definition setCopySuccess (m : text) (st : editor) : editor :=
  Editor (debouncedInput st) (converted st) (error st) (formattingError st) m.
Definition setDebouncedInput (v : value) (st : editor) : editor :=
  Editor v (converted st) (error st) (formattingError st) (copySuccess st).

(** What a click on the copy button asks of the clipboard. *)
Inductive clipboard_request : Type :=
| WriteText (t : text)
| NoRequest.

(** [jsx.substring(3).trim()] *)
Definition comment_text (jsx : text) : text := trim (skipn 3 jsx).

(** [handleCopy] of the themed revisions. The message [Copied!] or
    [Failed to copy!] is set when the clipboard answers. *)
Definition handleCopy (st : editor) : clipboard_request * editor :=
  if negb (is_empty (converted st)) && negb (starts_with (str "// Error") (converted st))
  then (WriteText (converted st), st)
  else (NoRequest, setCopySuccess (str "Nothing to copy") st).

Definition copySettled (written : bool) (st : editor) : editor :=
  setCopySuccess (if written then str "Copied!" else str "Failed to copy!") st.

(** The handler of [catch (conversionError)]. *)
Definition conversionFailed (st : editor) (message : text) : editor :=
  let errorMsg := str "Conversion failed: " ++ message in
  setFormattingError None (setError (Some errorMsg) (setConverted (str "// " ++ errorMsg) st)).

(** The branch of an empty input. *)
Definition clearOutput (st : editor) : editor :=
  setFormattingError None (setError None (setConverted [] st)).

(** *** The themed inline revision of [App] *)

Module InlineApp.

(** [convertAndFormat]: nothing is awaited in this revision, so the
    component is mounted throughout. *)
Definition convertAndFormat (st : editor) : editor :=
  if truthy (debouncedInput st) then
    let st := setFormattingError None (setError None st) in
    try_catch
      (let jsx := Inline.svgToReactNative (debouncedInput st) in
       if is_error_comment jsx
       then Normal (setError (Some (comment_text jsx)) (setConverted jsx st))
       else Normal (setFormattingError None (setConverted jsx st)))
      (conversionFailed st)
  else clearOutput st.

End InlineApp.

(** *** The themed component revision of [App] *)

Module ThemedApp.

Section Prettier.

(** [prettier.format] with the babel parser, which returns the
    formatted text or fails with a message, and whether the component is
    still mounted once the formatter has answered. *)
Variable format : text -> completion text.
Variable isMounted : bool.

Definition formatFailed (message : text) : text :=
  if includes (str "languages") message
  then str "JSX formatting failed (plugin issue). Displaying raw output."
  else str "JSX formatting failed: " ++ message.

Definition convertAndFormat (st : editor) : editor :=
  if truthy (debouncedInput st) then
    let st := setFormattingError None (setError None st) in
    try_catch
      (let jsx := Themed.svgToReactNative (debouncedInput st) in
       if is_error_comment jsx
       then Normal (setError (Some (comment_text jsx)) (setConverted jsx st))
       else if (N.of_nat (length jsx) <? 100000)%N then
         Normal
           (try_catch
              (formattedJsx <- format jsx ;;
               Normal (if isMounted then setConverted formattedJsx st else st))
              (fun message =>
                 if isMounted
                 then setFormattingError (Some (formatFailed message)) (setConverted jsx st)
                 else st))
       else
         Normal (setFormattingError
                   (Some (str "Output too large to format, displaying raw JSX"))
                   (setConverted jsx st)))
      (conversionFailed st)
  else clearOutput st.

End Prettier.

End ThemedApp.

(** *** The generic revision of [App] *)

Module GenericApp.

(** The effect on [debouncedInput]: an empty input leaves the output as
    it is. *)
Definition convertEffect (st : editor) : editor :=
  if truthy (debouncedInput st) then
    try_catch
      (Normal (setConverted (Generic.svgToReactNative (debouncedInput st)) st))
      (fun _ => st)
  else st.

(** The editor reports [value]; the debounce timer fires; the effect runs. *)
Definition typed (value : text) (st : editor) : editor :=
  convertEffect (setDebouncedInput (VString (Generic.onValueChange value)) st).

(** [handleCopy]: the output is written whatever it is. *)
Definition handleCopy (st : editor) : clipboard_request := WriteText (converted st).

End GenericApp.

(* ================================================================== *)
(** ** Vocabulary of the statements *)

(** The definitions below belong to the statements rather than to the
    program: literal scans, plain recursions that the class repetitions
    are shown equal to, the shape of the elements the fill step is
    stated for, and the sample documents. *)

(** The literal [w] at the head of [s]: the text it matches there (which
    differs from [w] by case only when [ci] is set) and what follows. *)
Fixpoint lit_strip (ci : bool) (w s : text) : option (text * text) :=
  match w with
  | [] => Some ([], s)
  | x :: w' =>
      match s with
      | a :: s' =>
          if chr_match ci x a then
            match lit_strip ci w' s' with
            | Some (m, rest) => Some (a :: m, rest)
            | None => None
            end
          else None
      | [] => None
      end
  end.

(** Whether the literal [w] occurs somewhere in [s]. *)
Fixpoint occurs (ci : bool) (w s : text) : bool :=
  match lit_strip ci w s with
  | Some _ => true
  | None =>
      match s with
      | [] => false
      | _ :: s' => occurs ci w s'
      end
  end.

(** Repetition of one character class [P] before the continuation [k],
    written as plain recursions: longest stretch first, and shortest
    stretch first. *)
Section ClassRepetition.

Variable P : ascii -> bool.
Variable k : text -> text -> option outcome.

Fixpoint greedy_cls (p s : text) : option outcome :=
  match s with
  | a :: s' =>
      if P a then
        match greedy_cls (a :: p) s' with
        | Some res => Some res
        | None => k p s
        end
      else k p s
  | [] => k p s
  end.

Fixpoint lazy_cls (p s : text) : option outcome :=
  match k p s with
  | Some res => Some res
  | None =>
      match s with
      | a :: s' => if P a then lazy_cls (a :: p) s' else None
      | [] => None
      end
  end.

End ClassRepetition.

(** The one case in which a failed conversion hands out no comment at all:
    the early [return ''] of the generic revision. *)
Definition returns_nothing (r : revision) (svg : value) : bool :=
  match r with
  | generic => negb (truthy svg)
  | _ => false
  end.

(** The two revisions that check for a root element. *)
Definition is_themed (r : revision) : bool :=
  match r with
  | generic => false
  | _ => true
  end.

(** What precedes the root element in the output of a themed revision. *)
Definition lead (r : revision) : text :=
  match r with
  | themed => Themed.header ++ str "    "
  | _ => []
  end.

(** The source a conversion generated, if it did. *)
Definition generated (r : revision) (svg : value) : option text :=
  match r with
  | generic =>
      match Generic.returns svg with
      | Generic.Generated src => Some src
      | _ => None
      end
  | themed =>
      match Themed.returns svg with
      | Generated src => Some src
      | _ => None
      end
  | themed_inline =>
      match Inline.returns svg with
      | Generated src => Some src
      | _ => None
      end
  end.

(** [hit t] tells whether the rest of a pattern could match at the head of
    [t]; [hits x y] whether it could at a place of [x] in the text [x ++ y]. *)
Section Places.

Variable hit : text -> bool.

Fixpoint hits (x y : text) : bool :=
  match x with
  | [] => false
  | _ :: x' => hit (x ++ y) || hits x' y
  end.

End Places.

(** An attribute: its name and its value. *)
Definition attribute : Type := (text * text)%type.

(** The attribute as the normalised content has it: blank, name, equals
    sign, value in double quotes. *)
Definition render_attribute (a : attribute) : text :=
  str " " ++ fst a ++ str "=" ++ DQ ++ snd a ++ DQ.

Definition render_attributes (l : list attribute) : text :=
  flat_map render_attribute l.

(** A self-closing Path element as [format_self_closing] leaves it. *)
Definition path_element (l : list attribute) : text :=
  str "<Path" ++ render_attributes l ++ str " />".

(** The characters with a meaning for the patterns at hand. *)
Definition mark (c : ascii) : bool := chr_eqb c "=" || chr_eqb c DQc.
Definition plain (c : ascii) : bool :=
  negb (mark c) && negb (chr_eqb c "<") && negb (chr_eqb c ">").

(** [String.prototype.endsWith]. *)
Definition ends_with (w s : text) : bool := starts_with (rev w) (rev s).

(** Names are plain, without blanks, and [fill] is the only name that ends
    in fill; values are plain. *)
Definition name_ok (n : text) : bool :=
  forallb (fun c => plain c && negb (is_space c)) n && negb (ends_with (str "fill") n).
Definition value_ok (v : text) : bool := forallb plain v.
Definition attribute_ok (a : attribute) : bool := name_ok (fst a) && value_ok (snd a).
Definition attributes_ok (l : list attribute) : bool := forallb attribute_ok l.

(** Neither an equals sign nor a double quote in [x]. *)
Definition unmarked (x : text) : bool := forallb (fun c => negb (mark c)) x.

(** The opening of a double-quoted fill attribute. *)
Definition fill_open : text := str "fill=" ++ DQ.

(** Where the rest of the themed fill pattern can start, and the attribute
    name it then stands after. *)
Definition themed_hit (t : text) : bool := starts_with fill_open t.
Definition themed_key (x : text) : Prop := x = str "fill".

(** The classes [^>] and [^DQ] under a case-sensitive match. *)
Definition no_gt (c : ascii) : bool := cls_match false true (chr_is ">") c.
Definition no_dq (c : ascii) : bool := cls_match false true (chr_is DQc) c.

(** Neither angle bracket. *)
Definition no_bracket (c : ascii) : bool :=
  negb (chr_eqb c "<") && negb (chr_eqb c ">").

(** The end of a self-closing tag stands at the head of [t]. *)
Definition close_hit (t : text) : bool := starts_with (str "/>") t.

(** Any character but the opening bracket. *)
Definition no_lt (c : ascii) : bool := negb (chr_eqb "<" c).

(** Blanks, then [fill], then optional blanks and an equals sign. *)
Definition inline_hit (t : text) : bool :=
  match t with
  | a :: t' =>
      is_space a &&
      (starts_with (str "fill") (drop_spaces t') &&
       match drop_spaces (skipn 4 (drop_spaces t')) with
       | c :: _ => chr_eqb c "="
       | [] => false
       end)
  | [] => false
  end.

(** What the inline fill pattern reads as an attribute name. *)
Definition inline_key (x : text) : Prop :=
  exists a u1 u2,
    x = a :: u1 ++ str "fill" ++ u2 /\
    is_space a = true /\ forallb is_space u1 = true /\ forallb is_space u2 = true.

(** The class [\s] under a case-sensitive match. *)
Definition blank (c : ascii) : bool := cls_match false false is_space c.

(** Whether the literal [w] stands at the head of [t]. *)
Definition opens (ci : bool) (w t : text) : bool :=
  match lit_strip ci w t with
  | Some _ => true
  | None => false
  end.

(** [(.|\n)]: any character but the carriage return. *)
Definition dot_or_nl : regex := Grp 1 (Alt dot (Chr NLc)).

(** Any character but the carriage return. *)
Definition no_cr (c : ascii) : bool := negb (chr_eqb c CRc).

Section CapturedText.

Variable Q : ascii -> bool.

(** Every group holds characters with the property [Q]. *)
Definition captures_all (c : captures) : Prop :=
  Forall (fun e => forallb Q (snd e) = true) c.

End CapturedText.

(** The class [a-zA-Z0-9] under a case-sensitive match. *)
Definition alnum_cls (c : ascii) : bool := cls_match false false is_alnum c.

(** Whether every match of [r] holds the character [x]. *)
Fixpoint needs (x : ascii) (r : regex) : bool :=
  match r with
  | Chr y => chr_eqb x y
  | Seq a b => needs x a || needs x b
  | Alt a b => needs x a && needs x b
  | Grp _ r' => needs x r'
  | _ => false
  end.

(** The replacement of one character by a text, everywhere. *)
Definition substitute (x : ascii) (w : text) (s : text) : text :=
  flat_map (fun a => if chr_eqb x a then w else [a]) s.

(** Neither an angle bracket nor an ampersand, an equals sign or a slash. *)
Definition inert (c : ascii) : bool :=
  no_bracket c && negb (chr_eqb c "&") && negb (chr_eqb c "=") && negb (chr_eqb c "/").

(** Where the pattern of the width and height removal can start. *)
Definition size_hit (t : text) : bool :=
  opens false (str "width") t || opens false (str "height") t.

(** The place behind [p] is the start of a line. *)
Definition line_start (p : text) : bool :=
  match p with
  | [] => true
  | a :: _ => is_line_terminator a
  end.

(** The rest of the blank-line patterns behind the white space: a line
    feed, then the continuation [k0]. *)
Definition blank_rest (c : captures) (k0 : cont) (p' s' : text) : option outcome :=
  run f_gm (Chr NLc) p' s' c k0.

(** The white space at the head of [t] holds a line feed. *)
Fixpoint blank_ahead (t : text) : bool :=
  match t with
  | [] => false
  | c :: t' => chr_eqb c NLc || (is_space c && blank_ahead t')
  end.

(** Where the attribute pattern of the highlighter can start: at a run of
    name characters that an equals sign follows. *)
Fixpoint equals_after_name (t : text) : bool :=
  match t with
  | [] => false
  | c :: t' => chr_eqb c "=" || (Highlight.name_char c && equals_after_name t')
  end.

Definition attribute_hit (t : text) : bool :=
  match t with
  | [] => false
  | c :: _ => Highlight.name_char c && equals_after_name t
  end.

(** Where the comment pattern of the highlighter can start. *)
Definition comment_hit (t : text) : bool :=
  opens false (str "//") t || opens false (str "/*") t.

(* ================================================================== *)
(** ** Sample documents *)

Definition svg_fragment : text :=           (* <g><path d=DQ M0 0 DQ/></g> *)
  str "<g><path d=" ++ DQ ++ str "M0 0" ++ DQ ++ str "/></g>".
Definition svg_bare : text := str "<svg></svg>".
Definition svg_200_by_100 : text :=
  str "<svg width=" ++ DQ ++ str "200" ++ DQ ++ str " height=" ++ DQ ++ str "100" ++ DQ ++
  str "><path d=" ++ DQ ++ str "M0 0" ++ DQ ++ str "/></svg>".
Definition svg_stroke_width : text :=
  str "<svg stroke-width=" ++ DQ ++ str "2" ++ DQ ++ str "></svg>".
Definition svg_explicit_viewBox : text :=
  str "<svg viewBox=" ++ DQ ++ str "0 0 48 48" ++ DQ ++ str "></svg>".
Definition svg_rect_short : text := str "<svg><rect/></svg>".
Definition svg_rect_paired : text := str "<svg><rect></rect></svg>".
Definition svg_nested_short : text := str "<svg><g><rect/></g></svg>".
Definition svg_nested_paired : text := str "<svg><g><rect></rect></g></svg>".
Definition svg_two_hyphens : text :=
  str "<svg><text font-size-adjust=" ++ DQ ++ str "0.5" ++ DQ ++ str ">a</text></svg>".
Definition svg_single_quoted_fill : text :=
  str "<svg><path fill='red' d='M0 0'/></svg>".
Definition svg_comment_in_value : text :=
  str "<svg><path id=" ++ DQ ++ str "a<!--b-->c" ++ DQ ++ str "/></svg>".

Definition sample_pre : list attribute := [(str "d", str "M0 0h10v10H0z")].
Definition sample_post : list attribute :=
  [(str "fillRule", str "evenodd"); (str "strokeWidth", str "2")].

Definition svg_value_ends_in_fill : text :=
  str "<svg><path a=" ++ DQ ++ str "x fill=" ++ DQ ++ str " b=" ++ DQ ++ str "y" ++ DQ ++
  str "/></svg>".

Definition svg_with_prolog : text :=
  str "<?xml version='1.0'?><!DOCTYPE svg><!-- made by hand --><svg><style>.a{}</style><script>x()</script></svg>".

(* ================================================================== *)
(** ** Facts about the matcher *)

Section Matcher.

Variable fl : flags.

Lemma run_lit : forall w p s c k,
  run fl (lit_text w) p s c k =
  match lit_strip (fi fl) w s with
  | Some (m, rest) => k (rev m ++ p) rest c
  | None => None
  end.
Proof.
  induction w as [|x w IH]; intros p s c k.
  - reflexivity.
  - destruct w as [|y w'].
    + simpl. destruct s as [|a s']; [reflexivity|].
      destruct (chr_match (fi fl) x a); reflexivity.
    + change (lit_text (x :: y :: w')) with (Seq (Chr x) (lit_text (y :: w'))).
      remember (y :: w') as w2 eqn:Hw2. clear Hw2.
      cbn [run]. destruct s as [|a s']; [reflexivity|].
      cbn [lit_strip]. destruct (chr_match (fi fl) x a); [|reflexivity].
      rewrite IH. destruct (lit_strip (fi fl) w2 s') as [[m rest]|]; [|reflexivity].
      cbn [rev]. rewrite <- app_assoc. reflexivity.
Qed.

Lemma lit_strip_app : forall ci w s m rest,
  lit_strip ci w s = Some (m, rest) -> s = m ++ rest /\ length m = length w.
Proof.
  induction w as [|x w IH]; intros s m rest H; simpl in H.
  - inversion H; subst. split; reflexivity.
  - destruct s as [|a s']; [discriminate|].
    destruct (chr_match ci x a); [|discriminate].
    destruct (lit_strip ci w s') as [[m' r']|] eqn:E; [|discriminate].
    inversion H; subst. destruct (IH _ _ _ E) as [-> Hl].
    split; simpl; congruence.
Qed.

Lemma occurs_false : forall ci w s,
  occurs ci w s = false ->
  forall s1 s2, s = s1 ++ s2 -> lit_strip ci w s2 = None.
Proof.
  intros ci w s H s1. revert s H.
  induction s1 as [|a s1 IH]; intros s H s2 ->.
  - simpl in H. destruct s2; simpl in H;
      destruct (lit_strip ci w _); [discriminate|reflexivity|discriminate|reflexivity].
  - simpl in H. destruct (lit_strip ci w (a :: s1 ++ s2)); [discriminate|].
    eapply IH; [exact H|reflexivity].
Qed.

(** Repetition of one character class, written as plain recursions. *)
Section Class.

Variable P : ascii -> bool.
Variable k : text -> text -> option outcome.

Lemma greedy_cls_none : forall s p,
  (forall u s', s = u ++ s' -> k (rev u ++ p) s' = None) ->
  greedy_cls P k p s = None.
Proof.
  induction s as [|a s IH]; intros p H.
  - simpl. apply (H [] []). reflexivity.
  - simpl. assert (Hk : k p (a :: s) = None) by (apply (H [] (a :: s)); reflexivity).
    destruct (P a); [|exact Hk].
    rewrite IH; [exact Hk|].
    intros u s' ->. specialize (H (a :: u) s' eq_refl).
    simpl in H. rewrite <- app_assoc in H. exact H.
Qed.

Lemma lazy_cls_none : forall s p,
  (forall u s', s = u ++ s' -> k (rev u ++ p) s' = None) ->
  lazy_cls P k p s = None.
Proof.
  induction s as [|a s IH]; intros p H.
  - pose proof (H [] [] eq_refl) as Hk. simpl in *. rewrite Hk. reflexivity.
  - pose proof (H [] (a :: s) eq_refl) as Hk. simpl in Hk.
    cbn [lazy_cls]. rewrite Hk.
    destruct (P a); [|reflexivity].
    apply IH. intros u s' ->. specialize (H (a :: u) s' eq_refl).
    simpl in H. rewrite <- app_assoc in H. exact H.
Qed.

(** Greedy repetition runs to the end of [u] when [u] is in the class
    and the rest of the match succeeds somewhere behind it. *)
Lemma greedy_cls_through : forall u p s res,
  forallb P u = true ->
  greedy_cls P k (rev u ++ p) s = Some res ->
  greedy_cls P k p (u ++ s) = Some res.
Proof.
  induction u as [|a u IH]; intros p s res HP H.
  - exact H.
  - simpl in HP. apply andb_true_iff in HP as [Ha Hu].
    simpl. rewrite Ha. rewrite (IH (a :: p) s res Hu).
    + reflexivity.
    + simpl in H. rewrite <- app_assoc in H. exact H.
Qed.

(** It stops where the class stops. *)
Lemma greedy_cls_stop : forall p s,
  match s with [] => true | b :: _ => negb (P b) end = true ->
  greedy_cls P k p s = k p s.
Proof.
  intros p [|b s] H; simpl; [reflexivity|].
  apply negb_true_iff in H. rewrite H. reflexivity.
Qed.

(** Lazy repetition stops at the first place where the rest of the
    match succeeds. *)
Lemma lazy_cls_first : forall u p s,
  forallb P u = true ->
  (forall u1 u2, u = u1 ++ u2 -> u2 <> [] -> k (rev u1 ++ p) (u2 ++ s) = None) ->
  lazy_cls P k p (u ++ s) = lazy_cls P k (rev u ++ p) s.
Proof.
  induction u as [|a u IH]; intros p s HP H.
  - reflexivity.
  - simpl in HP. apply andb_true_iff in HP as [Ha Hu].
    change ((a :: u) ++ s) with (a :: u ++ s).
    pose proof (H [] (a :: u) eq_refl) as Hk. simpl in Hk.
    cbn [lazy_cls]. rewrite Hk by discriminate.
    rewrite Ha. rewrite IH; [|exact Hu|].
    + simpl. rewrite <- app_assoc. reflexivity.
    + intros u1 u2 -> Hne. specialize (H (a :: u1) u2 eq_refl Hne).
      simpl in H. rewrite <- app_assoc in H. exact H.
Qed.

Lemma lazy_cls_here : forall p s res,
  k p s = Some res -> lazy_cls P k p s = Some res.
Proof. intros p [|a s] res H; simpl; rewrite H; reflexivity. Qed.

End Class.

Lemma run_star_greedy : forall neg f s p c k,
  run fl (Star true (Cls neg f)) p s c k =
  greedy_cls (cls_match (fi fl) neg f) (fun p' s' => k p' s' c) p s.
Proof.
  intros neg f s p c k. cbn [run].
  generalize (Nat.le_refl (length s)).
  generalize (length s) at 2 3 as n.
  intros n; revert s p. induction n as [|n IH]; intros s p Hn.
  - destruct s; [reflexivity|simpl in Hn; lia].
  - cbn [star_loop run]. destruct s as [|a s]; [reflexivity|].
    cbn [greedy_cls]. destruct (cls_match (fi fl) neg f a); [|reflexivity].
    replace (length s <? length (a :: s)) with true
      by (symmetry; apply Nat.ltb_lt; simpl; lia).
    rewrite IH by (simpl in Hn; lia). reflexivity.
Qed.

Lemma run_star_lazy : forall neg f s p c k,
  run fl (Star false (Cls neg f)) p s c k =
  lazy_cls (cls_match (fi fl) neg f) (fun p' s' => k p' s' c) p s.
Proof.
  intros neg f s p c k. cbn [run].
  generalize (Nat.le_refl (length s)).
  generalize (length s) at 2 3 as n.
  intros n; revert s p. induction n as [|n IH]; intros s p Hn.
  - destruct s; [|simpl in Hn; lia]. simpl. destruct (k p [] c); reflexivity.
  - cbn [star_loop run]. destruct s as [|a s].
    + simpl. destruct (k p [] c); reflexivity.
    + cbn [lazy_cls]. destruct (k p (a :: s) c); [reflexivity|].
      destruct (cls_match (fi fl) neg f a); [|reflexivity].
      replace (length s <? length (a :: s)) with true
        by (symmetry; apply Nat.ltb_lt; simpl; lia).
      rewrite IH by (simpl in Hn; lia). reflexivity.
Qed.

Lemma consumed_app : forall u p, consumed p (rev u ++ p) = u.
Proof.
  intros u p. unfold consumed.
  rewrite length_app, length_rev, Nat.add_sub.
  rewrite <- (length_rev u), firstn_app, Nat.sub_diag, firstn_all.
  simpl. rewrite app_nil_r. apply rev_involutive.
Qed.

Lemma ref_match_app : forall w p s p' s',
  ref_match (fi fl) w p s = Some (p', s') ->
  exists u, s = u ++ s' /\ p' = rev u ++ p.
Proof.
  induction w as [|x w IH]; intros p s p' s' H; simpl in H.
  - inversion H; subst. exists []. split; reflexivity.
  - destruct s as [|a s0]; [discriminate|].
    destruct (chr_match (fi fl) x a); [|discriminate].
    destruct (IH _ _ _ _ H) as [u [-> ->]].
    exists (a :: u). split; [reflexivity|].
    simpl. rewrite <- app_assoc. reflexivity.
Qed.

(** Whatever the pattern, a successful run has handed to its continuation
    a later position of the same subject. *)
Lemma run_inv : forall r p s c k res,
  run fl r p s c k = Some res ->
  exists u s' c', s = u ++ s' /\ k (rev u ++ p) s' c' = Some res.
Proof.
  induction r as [|x|neg f|a IHa b IHb|a IHa b IHb|g r IH|n r IH|n| |x];
    intros p s c k res H; cbn [run] in H.
  - exists [], s, c. split; [reflexivity|exact H].
  - destruct s as [|a s']; [discriminate|].
    destruct (chr_match (fi fl) x a); [|discriminate].
    exists [a], s', c. split; [reflexivity|exact H].
  - destruct s as [|a s']; [discriminate|].
    destruct (cls_match (fi fl) neg f a); [|discriminate].
    exists [a], s', c. split; [reflexivity|exact H].
  - apply IHa in H as (u1 & s1 & c1 & -> & H).
    apply IHb in H as (u2 & s2 & c2 & -> & H).
    exists (u1 ++ u2), s2, c2. split; [apply app_assoc|].
    rewrite rev_app_distr, <- app_assoc. exact H.
  - destruct (run fl a p s c k) eqn:E.
    + inversion H; subst. eapply IHa; eassumption.
    + eapply IHb; eassumption.
  - revert H. generalize (length s) as n. intros n; revert p s c res.
    induction n as [|n IHn]; intros p s c res H; cbn [star_loop] in H.
    + exists [], s, c. split; [reflexivity|exact H].
    + cbv zeta in H.
      assert (Hmore : forall res',
                 run fl r p s c
                   (fun p' s' c' =>
                      if length s' <? length s
                      then star_loop (run fl r) g k n p' s' c' else None) = Some res' ->
                 exists u s' c', s = u ++ s' /\ k (rev u ++ p) s' c' = Some res').
      { intros res' E. apply IH in E as (u1 & s1 & c1 & -> & E).
        destruct (length s1 <? length (u1 ++ s1)); [|discriminate].
        apply IHn in E as (u2 & s2 & c2 & -> & E).
        exists (u1 ++ u2), s2, c2. split; [apply app_assoc|].
        rewrite rev_app_distr, <- app_assoc. exact E. }
      destruct g.
      * match type of H with
        | match ?m with _ => _ end = _ => destruct m eqn:E
        end.
        -- inversion H; subst. apply Hmore. exact E.
        -- exists [], s, c. split; [reflexivity|exact H].
      * destruct (k p s c) eqn:E.
        -- inversion H; subst. exists [], s, c. split; [reflexivity|exact E].
        -- apply Hmore. exact H.
  - apply IH in H as (u & s' & c' & -> & H).
    exists u, s'. eexists. split; [reflexivity|exact H].
  - destruct (ref_match (fi fl) (cap n c) p s) as [[p' s']|] eqn:E; [|discriminate].
    apply ref_match_app in E as [u [-> ->]].
    exists u, s', c. split; [reflexivity|exact H].
  - destruct p as [|a p'].
    + exists [], s, c. split; [reflexivity|exact H].
    + destruct (fm fl && is_line_terminator a); [|discriminate].
      exists [], s, c. split; [reflexivity|exact H].
  - destruct p as [|a p'].
    + exists [], s, c. split; [reflexivity|exact H].
    + destruct (chr_eqb a x); [discriminate|].
      exists [], s, c. split; [reflexivity|exact H].
Qed.

Lemma cap_head : forall n u c, cap n ((n, u) :: c) = u.
Proof. intros n u c. unfold cap. simpl. rewrite Nat.eqb_refl. reflexivity. Qed.

(** A successful attempt consumed the text it reports as group 0. *)
Lemma attempt_sound : forall r p s p' s' c,
  attempt fl r p s = Some (p', s', c) ->
  s = cap 0 c ++ s' /\ p' = rev (cap 0 c) ++ p.
Proof.
  intros r p s p' s' c H. unfold attempt in H. cbn [run] in H.
  apply run_inv in H as (u & s1 & c1 & -> & H).
  inversion H; subst. rewrite cap_head, consumed_app.
  split; reflexivity.
Qed.

Lemma search_sound : forall r s p skipped p1 s1 c,
  search fl r p s = Some (skipped, (p1, s1, c)) ->
  s = skipped ++ cap 0 c ++ s1 /\ p1 = rev (cap 0 c) ++ rev skipped ++ p.
Proof.
  induction s as [|a s IH]; intros p skipped p1 s1 c H; cbn [search] in H.
  - destruct (attempt fl r p []) as [[[p' s'] c']|] eqn:E; [|discriminate].
    inversion H; subst. apply attempt_sound in E. exact E.
  - destruct (attempt fl r p (a :: s)) as [[[p' s'] c']|] eqn:E.
    + inversion H; subst. apply attempt_sound in E. exact E.
    + destruct (search fl r (a :: p) s) as [[sk [[p2 s2] c2]]|] eqn:E2; [|discriminate].
      inversion H; subst. apply IH in E2 as [-> ->].
      split; [reflexivity|].
      simpl. rewrite <- !app_assoc. reflexivity.
Qed.

(** No match anywhere when every attempt fails. *)
Lemma search_none : forall r s p,
  (forall s1 s2, s = s1 ++ s2 -> attempt fl r (rev s1 ++ p) s2 = None) ->
  search fl r p s = None.
Proof.
  induction s as [|a s IH]; intros p H; cbn [search].
  - pose proof (H [] [] eq_refl) as E. simpl in E. rewrite E. reflexivity.
  - pose proof (H [] (a :: s) eq_refl) as E. simpl in E. rewrite E.
    rewrite IH; [reflexivity|].
    intros s1 s2 ->. specialize (H (a :: s1) s2 eq_refl).
    simpl in H. rewrite <- app_assoc in H. exact H.
Qed.

(** The search passes over a stretch in which every attempt fails. *)
Lemma search_skip : forall r a b p,
  (forall a1 a2, a = a1 ++ a2 -> a2 <> [] ->
                 attempt fl r (rev a1 ++ p) (a2 ++ b) = None) ->
  search fl r p (a ++ b) =
  match search fl r (rev a ++ p) b with
  | Some (skipped, res) => Some (a ++ skipped, res)
  | None => None
  end.
Proof.
  induction a as [|x a IH]; intros b p H.
  - simpl. destruct (search fl r p b) as [[sk res]|]; reflexivity.
  - change ((x :: a) ++ b) with (x :: a ++ b). cbn [search].
    pose proof (H [] (x :: a) eq_refl) as E. simpl in E. rewrite E by discriminate.
    rewrite IH.
    + simpl. rewrite <- app_assoc. simpl.
      destruct (search fl r (rev a ++ x :: p) b) as [[sk res]|]; reflexivity.
    + intros a1 a2 -> Hne. specialize (H (x :: a1) a2 eq_refl Hne).
      simpl in H. rewrite <- app_assoc in H. exact H.
Qed.

Lemma search_here : forall r p s res,
  attempt fl r p s = Some res -> search fl r p s = Some ([], res).
Proof. intros r p [|a s] res H; cbn [search]; rewrite H; reflexivity. Qed.

(** The fuel of the replacement loop is never exhausted. *)
Lemma replace_loop_fuel : forall r f n m s p,
  length s < n -> length s < m ->
  replace_loop n fl r f p s = replace_loop m fl r f p s.
Proof.
  intros r f. induction n as [|n IH]; intros m s p Hn Hm; [lia|].
  destruct m as [|m]; [lia|]. cbn [replace_loop].
  destruct (search fl r p s) as [[sk [[p1 s1] c]]|] eqn:E; [|reflexivity].
  apply search_sound in E as [Hs _].
  assert (Hlen : length s = length sk + length (cap 0 c) + length s1)
    by (rewrite Hs, !length_app; lia).
  f_equal. f_equal.
  destruct (cap 0 c) as [|x m0].
  - destruct s1 as [|a s2]; [reflexivity|].
    f_equal. apply IH; simpl in Hlen; lia.
  - apply IH; simpl in Hlen; lia.
Qed.

Lemma replace_all_eq : forall r f p s,
  replace_all fl r f p s =
  match search fl r p s with
  | None => s
  | Some (skipped, (p1, s1, c)) =>
      skipped ++ f c ++
      match cap 0 c with
      | [] =>
          match s1 with
          | [] => []
          | a :: s2 => a :: replace_all fl r f (a :: p1) s2
          end
      | _ :: _ => replace_all fl r f p1 s1
      end
  end.
Proof.
  intros r f p s. unfold replace_all at 1. cbn [replace_loop].
  destruct (search fl r p s) as [[sk [[p1 s1] c]]|] eqn:E; [|reflexivity].
  apply search_sound in E as [Hs _].
  assert (Hlen : length s = length sk + length (cap 0 c) + length s1)
    by (rewrite Hs, !length_app; lia).
  f_equal. f_equal.
  destruct (cap 0 c) as [|x m0].
  - destruct s1 as [|a s2]; [reflexivity|].
    f_equal. apply replace_loop_fuel; simpl in Hlen; simpl; lia.
  - apply replace_loop_fuel; simpl in Hlen; simpl; lia.
Qed.

(** Where nothing matches, nothing is replaced. *)
Lemma replace_all_none : forall r f p s,
  search fl r p s = None -> replace_all fl r f p s = s.
Proof. intros r f p s H. rewrite replace_all_eq, H. reflexivity. Qed.

(** A pattern that opens with a literal cannot match a text in which the
    literal does not occur. *)
Lemma attempt_lit_none : forall w r p s,
  lit_strip (fi fl) w s = None -> attempt fl (Seq (lit_text w) r) p s = None.
Proof.
  intros w r p s H. unfold attempt. cbn [run]. rewrite run_lit, H. reflexivity.
Qed.

Lemma search_lit_none : forall w r p s,
  occurs (fi fl) w s = false -> search fl (Seq (lit_text w) r) p s = None.
Proof.
  intros w r p s H. apply search_none. intros s1 s2 Hs.
  apply attempt_lit_none. eapply occurs_false; eassumption.
Qed.

Lemma replace_lit_noop : forall w r f s,
  occurs (fi fl) w s = false -> replace fl (Seq (lit_text w) r) f s = s.
Proof.
  intros w r f s H. unfold replace.
  destruct (fg fl).
  - apply replace_all_none. apply search_lit_none. exact H.
  - rewrite search_lit_none by exact H. reflexivity.
Qed.

Lemma regex_match_lit_none : forall w r s,
  occurs (fi fl) w s = false -> regex_match fl (Seq (lit_text w) r) s = None.
Proof.
  intros w r s H. unfold regex_match. rewrite search_lit_none by exact H. reflexivity.
Qed.

End Matcher.

(* ================================================================== *)
(** ** Results and failures (claims C1, C2, C9) *)

Lemma starts_with_app : forall w s t, starts_with w s = true -> starts_with w (s ++ t) = true.
Proof.
  induction w as [|x w IH]; intros s t H; [reflexivity|].
  destruct s as [|a s]; [discriminate|]. simpl in *.
  apply andb_true_iff in H as [Ha Hw]. rewrite Ha. simpl. apply IH. exact Hw.
Qed.

Lemma generic_source_is_no_comment : forall rest,
  starts_with (str "// ") (Generic.header ++ rest) = false.
Proof. intros rest. reflexivity. Qed.

Lemma themed_source_is_no_comment : forall rest,
  starts_with (str "// ") (Themed.header ++ rest) = false.
Proof. intros rest. reflexivity. Qed.

Lemma inline_source_is_no_comment : forall viewBox content,
  starts_with (str "// ") (Inline.jsx viewBox content) = false.
Proof. intros viewBox content. reflexivity. Qed.

(** In the themed revisions the [try] block never throws: its first
    statement runs on a string because of the guard in front of it. *)
Lemma themed_body_completes : forall s,
  exists e, Themed.body (VString s) = Normal e /\ (e = NoSvg \/ exists src, e = Generated src).
Proof.
  intros s. unfold Themed.body, sanitize, method_replace, bind.
  destruct (regex_match f_i re_svg _).
  - eexists. split; [reflexivity|]. right. eexists. reflexivity.
  - eexists. split; [reflexivity|]. left. reflexivity.
Qed.

Lemma inline_body_completes : forall s,
  exists e, Inline.body (VString s) = Normal e /\ (e = NoSvg \/ exists src, e = Generated src).
Proof.
  intros s. unfold Inline.body, sanitize, method_replace, bind.
  destruct (regex_match f_i re_svg _).
  - eexists. split; [reflexivity|]. right. eexists. reflexivity.
  - eexists. split; [reflexivity|]. left. reflexivity.
Qed.

(** C1 (as amended). Every revision returns a text for every input. In the
    themed revisions the result starts with the comment marker exactly when
    the conversion failed, and the caller's test for an error comment agrees
    with it. The generic revision differs in one place: for a falsy input it
    returns the empty text, which is a failure without any marker. *)
Theorem C1_failure_marker : forall r v,
  starts_with (str "// ") (convert r v) = failed r v && negb (returns_nothing r v)
  /\ is_error_comment (convert r v) = failed r v && negb (returns_nothing r v).
Proof.
  intros r v. destruct r; unfold convert, failed, returns_nothing.
  - unfold Generic.svgToReactNative, Generic.returns.
    destruct v as [| |b|s]; try (split; reflexivity).
    + destruct b; split; reflexivity.
    + destruct s as [|a s]; [split; reflexivity|].
      split; reflexivity.
  - unfold Themed.svgToReactNative, Themed.returns.
    destruct v as [| |b|s]; try (split; reflexivity).
    + destruct b; split; reflexivity.
    + destruct s as [|a s]; [split; reflexivity|].
      cbn [truthy is_empty negb is_string orb].
      unfold try_catch, exit_text.
      unfold Themed.body, sanitize, method_replace, bind.
      destruct (regex_match f_i re_svg _); split; reflexivity.
  - unfold Inline.svgToReactNative, Inline.returns.
    destruct v as [| |b|s]; try (split; reflexivity).
    + destruct b; split; reflexivity.
    + destruct s as [|a s]; [split; reflexivity|].
      cbn [truthy is_empty negb is_string orb].
      unfold try_catch, exit_text.
      unfold Inline.body, sanitize, method_replace, bind.
      destruct (regex_match f_i re_svg _); split; reflexivity.
Qed.

(** C1, the claim as stated, fails: no single prefix separates the failures
    from the successes of all revisions, because the generic revision
    answers the empty input with the empty text. *)
Lemma C1_no_common_marker :
  ~ (exists marker : text,
       forall r v, starts_with marker (convert r v) = failed r v).
Proof.
  intros [marker H].
  pose proof (H generic (VString [])) as H0.
  pose proof (H generic (VString svg_bare)) as H1.
  destruct marker as [|x marker].
  - vm_compute in H1. discriminate H1.
  - vm_compute in H0. discriminate H0.
Qed.

(** C9. A falsy input makes the generic revision return the empty text,
    which is neither generated source nor marked as a failure, and makes
    both themed revisions return the comment [// Invalid SVG input]. *)
Theorem C9_falsy_input : forall v,
  truthy v = false ->
  convert generic v = [] /\
  Generic.returns v = Generic.Empty /\
  is_error_comment (convert generic v) = false /\
  convert themed v = str "// Invalid SVG input" /\
  convert themed_inline v = str "// Invalid SVG input".
Proof.
  intros v H. unfold convert, Generic.svgToReactNative, Generic.returns,
    Themed.svgToReactNative, Themed.returns, Inline.svgToReactNative, Inline.returns.
  rewrite H. repeat split; reflexivity.
Qed.

Lemma C9_falsy_input_witness :
  truthy (VString []) = false /\
  convert generic (VString []) = [] /\
  Generic.returns (VString []) = Generic.Empty /\
  is_error_comment (convert generic (VString [])) = false /\
  convert themed (VString []) = str "// Invalid SVG input" /\
  convert themed_inline (VString []) = str "// Invalid SVG input".
Proof.
  split; [reflexivity | apply (C9_falsy_input (VString [])); reflexivity].
Defined.

(** The same holds for [null] and [undefined]. *)
Lemma falsy_null_undefined :
  convert generic VNull = [] /\ convert generic VUndefined = [] /\
  convert themed VNull = str "// Invalid SVG input" /\
  convert themed VUndefined = str "// Invalid SVG input" /\
  convert themed_inline VNull = str "// Invalid SVG input" /\
  convert themed_inline VUndefined = str "// Invalid SVG input".
Proof. repeat split; reflexivity. Qed.

(** A truthy value that is no string: the generic revision throws inside
    its [try] block and returns the comment of its [catch] block. *)
Lemma generic_catches_type_error :
  convert generic (VBool true) = str "// Error parsing SVG".
Proof. reflexivity. Qed.

(** C2, the claim as stated, fails on its own example: the generic revision
    has no check for a root and returns generated source around the
    capitalised fragment. *)
Lemma C2_generic_fragment :
  convert generic (VString svg_fragment) =
    Generic.header ++
    str "<G><Path d=" ++ DQ ++ str "M0 0" ++ DQ ++ str "/></G>" ++
    Generic.footer
  /\ failed generic (VString svg_fragment) = false
  /\ is_error_comment (convert generic (VString svg_fragment)) = false.
Proof. repeat split; vm_compute; reflexivity. Qed.

(** The editor of the generic revision is what rejects such a fragment: it
    keeps nothing of it, and the converter is then given the empty text. *)
Lemma generic_editor_drops_fragment :
  Generic.onValueChange svg_fragment = [] /\
  Generic.onValueChange (str "x" ++ svg_bare ++ str "y") = svg_bare.
Proof. split; vm_compute; reflexivity. Qed.

(** C2 (as amended). In both themed revisions a non-empty text whose
    sanitized form contains no [<svg], in any letter case, is answered with
    the comment [// No valid SVG content found], which the caller
    recognises as an error. (The generic revision has no such check.) *)
Theorem C2_themed_missing_root : forall r s,
  is_themed r = true ->
  is_empty s = false ->
  occurs true (str "<svg") (sanitize_text s) = false ->
  convert r (VString s) = str "// No valid SVG content found"
  /\ failed r (VString s) = true
  /\ is_error_comment (convert r (VString s)) = true.
Proof.
  intros r s Hr Hs Hocc.
  assert (Hm : regex_match f_i re_svg (sanitize_text s) = None)
    by (apply regex_match_lit_none; exact Hocc).
  destruct r; [discriminate Hr| |].
  - unfold convert, failed, Themed.svgToReactNative, Themed.returns.
    cbn [truthy is_string negb orb]. rewrite Hs. cbn [negb].
    unfold Themed.body, sanitize, method_replace, bind, try_catch.
    fold (strip_xml_decl s). fold (sanitize_text s).
    rewrite Hm. repeat split; reflexivity.
  - unfold convert, failed, Inline.svgToReactNative, Inline.returns.
    cbn [truthy is_string negb orb]. rewrite Hs. cbn [negb].
    unfold Inline.body, sanitize, method_replace, bind, try_catch.
    fold (strip_xml_decl s). fold (sanitize_text s).
    rewrite Hm. repeat split; reflexivity.
Qed.

Lemma C2_themed_missing_root_witness :
  is_themed themed = true /\
  is_empty svg_fragment = false /\
  occurs true (str "<svg") (sanitize_text svg_fragment) = false /\
  convert themed (VString svg_fragment) = str "// No valid SVG content found" /\
  failed themed (VString svg_fragment) = true /\
  is_error_comment (convert themed (VString svg_fragment)) = true.
Proof.
  split; [reflexivity|]. split; [reflexivity|]. split; [vm_compute; reflexivity|].
  apply (C2_themed_missing_root themed svg_fragment);
    [reflexivity | reflexivity | vm_compute; reflexivity].
Defined.

(* ================================================================== *)
(** ** Sanitizing (claim C8) *)

Lemma chr_match_ci : forall x a, chr_match false x a = true -> chr_match true x a = true.
Proof.
  intros x a H. unfold chr_match in *. simpl in *.
  rewrite orb_false_r in H. rewrite H. reflexivity.
Qed.

Lemma lit_strip_ci : forall w s,
  lit_strip true w s = None -> lit_strip false w s = None.
Proof.
  induction w as [|x w IH]; intros s H; simpl in *; [discriminate|].
  destruct s as [|a s]; [reflexivity|].
  destruct (chr_match false x a) eqn:E; [|reflexivity].
  rewrite (chr_match_ci _ _ E) in H.
  destruct (lit_strip true w s) as [[m r]|] eqn:E2; [discriminate|].
  rewrite (IH _ E2). reflexivity.
Qed.

(** What does not occur in any letter case does not occur as written. *)
Lemma occurs_ci : forall w s, occurs true w s = false -> occurs false w s = false.
Proof.
  intros w. induction s as [|a s IH]; intros H; simpl in *.
  - destruct (lit_strip true w []) eqn:E; [discriminate|].
    rewrite (lit_strip_ci _ _ E). reflexivity.
  - destruct (lit_strip true w (a :: s)) eqn:E; [discriminate|].
    rewrite (lit_strip_ci _ _ E). apply IH. exact H.
Qed.

(** On a text in which none of the five openings occurs every removal step
    of the three revisions returns the text unchanged. *)
Lemma sanitize_noop : forall s,
  occurs true (str "<?xml") s = false ->
  occurs true (str "<!DOCTYPE") s = false ->
  occurs false (str "<!--") s = false ->
  occurs true (str "<style") s = false ->
  occurs true (str "<script") s = false ->
  sanitize (VString s) = Normal s /\
  Generic.strip_xml (VString s) = Normal s /\
  Generic.strip_comments s = s /\
  Generic.strip_doctype s = s /\
  strip_style s = s /\
  strip_script s = s.
Proof.
  intros s Hxml Hdoc Hcom Hstyle Hscript.
  assert (Hxml' := occurs_ci _ _ Hxml).
  repeat split.
  - unfold sanitize, method_replace, bind, strip_comments, strip_doctype,
      re_xml_decl, re_doctype, re_comment, lit.
    rewrite (replace_lit_noop f_gi (str "<?xml")) by exact Hxml.
    rewrite (replace_lit_noop f_gi (str "<!DOCTYPE")) by exact Hdoc.
    rewrite (replace_lit_noop f_g (str "<!--")) by exact Hcom. reflexivity.
  - unfold Generic.strip_xml, method_replace, Generic.re_xml, lit.
    rewrite (replace_lit_noop f_g) by exact Hxml'. reflexivity.
  - unfold Generic.strip_comments, Generic.re_comment, lit.
    apply (replace_lit_noop f_g). exact Hcom.
  - unfold Generic.strip_doctype, Generic.re_doctype, lit.
    apply (replace_lit_noop f_gi). exact Hdoc.
  - unfold strip_style, re_style, lit. apply (replace_lit_noop f_gi). exact Hstyle.
  - unfold strip_script, re_script, lit. apply (replace_lit_noop f_gi). exact Hscript.
Qed.


(* ================================================================== *)
(** ** The root element of the themed output (claims C4, C10) *)

Lemma themed_component_shape : forall attributes content,
  Themed.component attributes content =
  lead themed ++ str "<Svg width={width} height={height} " ++ attributes ++
  str " fill={fillColor}>" ++ NL ++ content ++ NL ++ Themed.footer.
Proof.
  intros attributes content. unfold Themed.component, Themed.root_open, lead.
  rewrite <- !app_assoc. reflexivity.
Qed.

Lemma inline_jsx_shape : forall viewBox content,
  Inline.jsx viewBox content =
  lead themed_inline ++ str "<Svg width={width} height={height} " ++
  (str "viewBox=" ++ DQ ++ viewBox ++ DQ) ++
  str " fill={fillColor}>" ++ NL ++ content ++ NL ++ str "</Svg>".
Proof.
  intros viewBox content. unfold Inline.jsx, Inline.root_open, lead.
  rewrite <- !app_assoc. reflexivity.
Qed.

(** The same on the inline revision, for a source without any fill. *)
Lemma inline_root_fill_example :
  convert themed_inline (VString svg_bare) =
  str "<Svg width={width} height={height} viewBox=" ++ DQ ++ str "0 0 100 100" ++ DQ ++
  str " fill={fillColor}>" ++ NL ++ str "        " ++ NL ++ str "</Svg>".
Proof. vm_compute. reflexivity. Qed.

(** Every source generated by the themed component revision opens with the
    same header, whose height line is a constant. *)
Lemma themed_header_is_fixed : forall v src,
  generated themed v = Some src -> exists rest, src = Themed.header ++ rest.
Proof.
  intros v src H. unfold generated, Themed.returns in H.
  destruct (negb (truthy v) || negb (is_string v)); [discriminate|].
  destruct v as [| |b|s]; try discriminate H.
  unfold try_catch, Themed.body, sanitize, method_replace, bind in H.
  destruct (regex_match f_i re_svg _) as [m|]; [|discriminate].
  inversion H; subst. unfold Themed.component. eexists. reflexivity.
Qed.

(** C4: the code at a source of 200 by 100. The component computes its
    height as (width * 1024) / 1024; neither 200 nor 100 reaches the
    output. *)
Theorem C4_height_ignores_source :
  convert themed (VString svg_200_by_100) =
    Themed.component [] (str "      <Path d=" ++ DQ ++ str "M0 0" ++ DQ ++ str " />")
  /\ includes (str "const height = (width * 1024) / 1024")
       (convert themed (VString svg_200_by_100)) = true
  /\ includes (str "200") (convert themed (VString svg_200_by_100)) = false
  /\ includes (str "100") (convert themed (VString svg_200_by_100)) = false.
Proof. repeat split; vm_compute; reflexivity. Qed.

(* ================================================================== *)
(** ** Sizing (claim C5) *)

(** The defaults: no width, no height, no viewBox. *)
Lemma sizing_defaults :
  Inline.dimension "width" [] = str "100" /\
  Inline.dimension "height" [] = str "100" /\
  Inline.resolve_viewBox [] = str "0 0 100 100" /\
  convert themed_inline (VString svg_bare) =
    Inline.jsx (str "0 0 100 100") (str "        ").
Proof. repeat split; vm_compute; reflexivity. Qed.

(** An explicit viewBox is the one of the output, whatever the width and
    the height resolve to. *)
Lemma explicit_viewBox_wins : forall svgAttrs m,
  regex_match f_i Inline.re_viewBox svgAttrs = Some m ->
  Inline.resolve_viewBox svgAttrs = cap 1 m.
Proof. intros svgAttrs m H. unfold Inline.resolve_viewBox. rewrite H. reflexivity. Qed.

Lemma explicit_viewBox_example :
  convert themed_inline (VString svg_explicit_viewBox) =
    Inline.jsx (str "0 0 48 48") (str "        ").
Proof. vm_compute. reflexivity. Qed.

(** C5: the code at a root that has a stroke-width and no width. The
    pattern for the width finds the tail of stroke-width, so the width
    resolves to 2 instead of the default and the viewBox is made from it. *)
Theorem C5_stroke_width_read_as_width :
  Inline.dimension "width" (str " stroke-width=" ++ DQ ++ str "2" ++ DQ) = str "2"
  /\ Inline.resolve_viewBox (str " stroke-width=" ++ DQ ++ str "2" ++ DQ) = str "0 0 2 100"
  /\ convert themed_inline (VString svg_stroke_width) =
       Inline.jsx (str "0 0 2 100") (str "        ").
Proof. repeat split; vm_compute; reflexivity. Qed.

(* ================================================================== *)
(** ** Self-closing elements (claim C6) *)

(** What the themed revisions do get right: an empty pair directly under
    the root becomes self-closing. *)
Lemma top_level_pair_collapses :
  convert themed (VString svg_rect_paired) = convert themed (VString svg_rect_short) /\
  convert themed_inline (VString svg_rect_paired) =
    convert themed_inline (VString svg_rect_short).
Proof. split; vm_compute; reflexivity. Qed.

(** C6: the code at an empty pair inside a group, and at an empty pair
    under the generic revision. The pair is kept as a pair, so the two
    spellings of the same element give different outputs. *)
Theorem C6_empty_pair_kept :
  convert themed (VString svg_nested_paired) =
    Themed.component [] (str "      <G><Rect></Rect></G>")
  /\ convert themed (VString svg_nested_short) =
       Themed.component [] (str "      <G><Rect /></G>")
  /\ convert themed_inline (VString svg_nested_paired) =
       Inline.jsx (str "0 0 100 100") (str "        <G><Rect></Rect></G>")
  /\ convert themed_inline (VString svg_nested_short) =
       Inline.jsx (str "0 0 100 100") (str "        <G><Rect /></G>")
  /\ convert generic (VString svg_rect_paired) =
       Generic.header ++ str "<Svg><Rect></Rect></Svg>" ++ Generic.footer
  /\ convert generic (VString svg_rect_short) =
       Generic.header ++ str "<Svg><Rect/></Svg>" ++ Generic.footer.
Proof. repeat split; vm_compute; reflexivity. Qed.

(* ================================================================== *)
(** ** Attribute names (claim C7) *)

Lemma camel_case_one_hyphen :
  camel_case (str "stroke-width=") = str "strokeWidth=".
Proof. vm_compute. reflexivity. Qed.

(** C7: the code at a name with two hyphens. One pass is made and it
    joins the last two segments only, so a hyphen remains. *)
Theorem C7_second_hyphen_kept :
  camel_case (str "font-size-adjust=") = str "font-sizeAdjust="
  /\ convert themed (VString svg_two_hyphens) =
       Themed.component []
         (str "      <Text font-sizeAdjust=" ++ DQ ++ str "0.5" ++ DQ ++ str ">a</Text>")
  /\ convert themed_inline (VString svg_two_hyphens) =
       Inline.jsx (str "0 0 100 100")
         (str "        <Text font-sizeAdjust=" ++ DQ ++ str "0.5" ++ DQ ++ str ">a</Text>")
  /\ convert generic (VString svg_two_hyphens) =
       Generic.header ++
       str "<Svg><Text font-sizeAdjust=" ++ DQ ++ str "0.5" ++ DQ ++ str ">a</Text></Svg>" ++
       Generic.footer.
Proof. repeat split; vm_compute; reflexivity. Qed.

(* ================================================================== *)
(** ** More about literals and repetitions *)

Lemma chr_eqb_eq : forall a b, chr_eqb a b = true -> a = b.
Proof. intros a b H. apply Ascii.eqb_eq. exact H. Qed.

Lemma chr_eqb_refl : forall a, chr_eqb a a = true.
Proof. intros a. apply Ascii.eqb_refl. Qed.

Lemma chr_match_exact : forall x a, chr_match false x a = true -> x = a.
Proof.
  intros x a H. unfold chr_match in H. simpl in H. rewrite orb_false_r in H.
  apply chr_eqb_eq. exact H.
Qed.

Lemma chr_match_refl : forall ci x, chr_match ci x x = true.
Proof. intros ci x. unfold chr_match. rewrite chr_eqb_refl. reflexivity. Qed.

(** Without flag i a literal matches itself and nothing else. *)
Lemma lit_strip_exact : forall w s m rest,
  lit_strip false w s = Some (m, rest) -> m = w /\ s = w ++ rest.
Proof.
  induction w as [|x w IH]; intros s m rest H; simpl in H.
  - inversion H; subst. split; reflexivity.
  - destruct s as [|a s]; [discriminate|].
    destruct (chr_match false x a) eqn:E; [|discriminate].
    apply chr_match_exact in E. subst a.
    destruct (lit_strip false w s) as [[m' r']|] eqn:E2; [|discriminate].
    inversion H; subst. destruct (IH _ _ _ E2) as [-> ->].
    split; reflexivity.
Qed.

Lemma lit_strip_here : forall ci w rest, lit_strip ci w (w ++ rest) = Some (w, rest).
Proof.
  induction w as [|x w IH]; intros rest; simpl; [reflexivity|].
  rewrite chr_match_refl, IH. reflexivity.
Qed.

Section ClassSound.

Variable P : ascii -> bool.
Variable k : text -> text -> option outcome.

(** A repetition of a class consumed characters of the class only. *)
Lemma greedy_cls_sound : forall s p res,
  greedy_cls P k p s = Some res ->
  exists u s', s = u ++ s' /\ forallb P u = true /\ k (rev u ++ p) s' = Some res.
Proof.
  induction s as [|a s IH]; intros p res H; simpl in H.
  - exists [], []. repeat split. exact H.
  - destruct (P a) eqn:Pa.
    + destruct (greedy_cls P k (a :: p) s) eqn:E.
      * inversion H; subst. apply IH in E as (u & s' & -> & Hu & Hk).
        exists (a :: u), s'. simpl. rewrite Pa, Hu, <- app_assoc. repeat split. exact Hk.
      * exists [], (a :: s). repeat split. exact H.
    + exists [], (a :: s). repeat split. exact H.
Qed.

Lemma lazy_cls_sound : forall s p res,
  lazy_cls P k p s = Some res ->
  exists u s', s = u ++ s' /\ forallb P u = true /\ k (rev u ++ p) s' = Some res.
Proof.
  induction s as [|a s IH]; intros p res H; simpl in H.
  - destruct (k p []) eqn:E; [|discriminate].
    inversion H; subst. exists [], []. repeat split. exact E.
  - destruct (k p (a :: s)) eqn:E.
    + inversion H; subst. exists [], (a :: s). repeat split. exact E.
    + destruct (P a) eqn:Pa; [|discriminate].
      apply IH in H as (u & s' & -> & Hu & Hk).
      exists (a :: u), s'. simpl. rewrite Pa, Hu, <- app_assoc. repeat split. exact Hk.
Qed.

(** A greedy repetition fails over a stretch behind which it fails, when
    the rest of the match fails everywhere in the stretch. *)
Lemma greedy_cls_none_app : forall u p s,
  (forall u1 u2, u = u1 ++ u2 -> u2 <> [] -> k (rev u1 ++ p) (u2 ++ s) = None) ->
  greedy_cls P k (rev u ++ p) s = None ->
  greedy_cls P k p (u ++ s) = None.
Proof.
  induction u as [|a u IH]; intros p s H Hs.
  - exact Hs.
  - pose proof (H [] (a :: u) eq_refl) as Hk. simpl in Hk.
    change ((a :: u) ++ s) with (a :: u ++ s). cbn [greedy_cls].
    rewrite IH.
    + destruct (P a); apply Hk; discriminate.
    + intros u1 u2 -> Hne. specialize (H (a :: u1) u2 eq_refl Hne).
      simpl in H. rewrite <- app_assoc in H. exact H.
    + simpl in Hs. rewrite <- app_assoc in Hs. exact Hs.
Qed.

End ClassSound.

(** The first marked character of a text is where it is. *)
Lemma first_mark_unique : forall (mark : ascii -> bool) x1 b1 r1 x2 b2 r2,
  forallb (fun c => negb (mark c)) x1 = true -> mark b1 = true ->
  forallb (fun c => negb (mark c)) x2 = true -> mark b2 = true ->
  x1 ++ b1 :: r1 = x2 ++ b2 :: r2 ->
  x1 = x2 /\ b1 = b2 /\ r1 = r2.
Proof.
  intros mark. induction x1 as [|a x1 IH]; intros b1 r1 x2 b2 r2 H1 M1 H2 M2 E.
  - destruct x2 as [|c x2].
    + inversion E; subst. repeat split.
    + simpl in E. inversion E; subst. simpl in H2.
      rewrite M1 in H2. discriminate.
  - destruct x2 as [|c x2].
    + simpl in E. inversion E; subst. simpl in H1.
      rewrite M2 in H1. discriminate.
    + simpl in E. injection E as -> E. simpl in H1, H2.
      apply andb_true_iff in H1 as [_ H1]. apply andb_true_iff in H2 as [_ H2].
      destruct (IH _ _ _ _ _ H1 M1 H2 M2 E) as (-> & -> & ->).
      repeat split.
Qed.

(* ================================================================== *)
(** ** Where the rest of a pattern can start *)

Section Hits.

(** [hit t] tells whether the rest of a pattern could match at the head of
    [t]; [hits x y] whether it could at a place of [x] in the text [x ++ y]. *)
Variable hit : text -> bool.

Lemma hits_split : forall x y,
  hits hit x y = false ->
  forall x1 x2, x = x1 ++ x2 -> x2 <> [] -> hit (x2 ++ y) = false.
Proof.
  intros x y H x1. revert x H. induction x1 as [|a x1 IH]; intros x H x2 -> Hne.
  - simpl in *. destruct x2 as [|b x2]; [contradiction|].
    simpl in H. apply orb_false_iff in H as [H _]. exact H.
  - simpl in H. apply orb_false_iff in H as [_ H].
    eapply IH; [exact H|reflexivity|exact Hne].
Qed.

Lemma hits_app : forall x1 x2 y,
  hits hit (x1 ++ x2) y = hits hit x1 (x2 ++ y) || hits hit x2 y.
Proof.
  induction x1 as [|a x1 IH]; intros x2 y; [reflexivity|].
  simpl. rewrite IH, <- app_assoc, orb_assoc. reflexivity.
Qed.

(** Nowhere in [x], its end included. *)
Lemma hits_everywhere : forall x,
  hits hit x [] = false -> hit [] = false ->
  forall u s', x = u ++ s' -> hit s' = false.
Proof.
  intros x H H0 u s' E. destruct s' as [|b s']; [exact H0|].
  pose proof (hits_split x [] H u (b :: s') E) as Hs.
  rewrite app_nil_r in Hs. apply Hs. discriminate.
Qed.

Variable P : ascii -> bool.
Variable k : text -> text -> option outcome.
Hypothesis k_hit : forall p t res, k p t = Some res -> hit t = true.

Lemma k_none : forall p t, hit t = false -> k p t = None.
Proof.
  intros p t H. destruct (k p t) eqn:E; [|reflexivity].
  apply k_hit in E. congruence.
Qed.

(** A lazy repetition passes a stretch of the class without a hit. *)
Lemma lazy_scan : forall x y p,
  forallb P x = true -> hits hit x y = false ->
  lazy_cls P k p (x ++ y) = lazy_cls P k (rev x ++ p) y.
Proof.
  intros x y p HP H. apply lazy_cls_first; [exact HP|].
  intros u1 u2 E Hne. apply k_none. eapply hits_split; eassumption.
Qed.

(** A greedy repetition that fails behind a stretch without a hit fails
    in front of it. *)
Lemma greedy_scan_none : forall x y p,
  hits hit x y = false ->
  greedy_cls P k (rev x ++ p) y = None ->
  greedy_cls P k p (x ++ y) = None.
Proof.
  intros x y p H Hy. apply greedy_cls_none_app; [|exact Hy].
  intros u1 u2 E Hne. apply k_none. eapply hits_split; eassumption.
Qed.

Lemma lazy_all_none : forall x p,
  hits hit x [] = false -> hit [] = false -> lazy_cls P k p x = None.
Proof.
  intros x p H H0. apply lazy_cls_none. intros u s' E.
  apply k_none. eapply hits_everywhere; eassumption.
Qed.

Lemma greedy_all_none : forall x p,
  hits hit x [] = false -> hit [] = false -> greedy_cls P k p x = None.
Proof.
  intros x p H H0. apply greedy_cls_none. intros u s' E.
  apply k_none. eapply hits_everywhere; eassumption.
Qed.

End Hits.

(* ================================================================== *)
(** ** Path elements and their attributes (claim C3) *)

Lemma forallb_impl : forall (f g : ascii -> bool) x,
  (forall c, f c = true -> g c = true) -> forallb f x = true -> forallb g x = true.
Proof.
  intros f g x H. induction x as [|a x IH]; intros Hx; [reflexivity|].
  simpl in *. apply andb_true_iff in Hx as [Ha Hx].
  rewrite (H _ Ha), (IH Hx). reflexivity.
Qed.

Lemma plain_unmarked : forall c, plain c = true -> negb (mark c) = true.
Proof.
  intros c H. unfold plain in H.
  apply andb_true_iff in H as [H _]. apply andb_true_iff in H as [H _]. exact H.
Qed.

Lemma value_unmarked : forall v, value_ok v = true -> unmarked v = true.
Proof. intros v. apply forallb_impl. exact plain_unmarked. Qed.

Lemma name_plain : forall n, name_ok n = true ->
  forallb (fun c => plain c && negb (is_space c)) n = true.
Proof. intros n H. apply andb_true_iff in H as [H _]. exact H. Qed.

Lemma name_unmarked : forall n, name_ok n = true -> unmarked n = true.
Proof.
  intros n H. apply name_plain in H. revert H. apply forallb_impl.
  intros c Hc. apply andb_true_iff in Hc as [Hc _]. apply plain_unmarked. exact Hc.
Qed.

Lemma forallb_app_l : forall (f : ascii -> bool) x y,
  forallb f (x ++ y) = true -> forallb f x = true.
Proof. intros f x y H. rewrite forallb_app in H. apply andb_true_iff in H as [H _]. exact H. Qed.

Lemma forallb_app_r : forall (f : ascii -> bool) x y,
  forallb f (x ++ y) = true -> forallb f y = true.
Proof. intros f x y H. rewrite forallb_app in H. apply andb_true_iff in H as [_ H]. exact H. Qed.

Section HitsInAttributes.

Variable hit : text -> bool.
(** What a hit needs: a key in front of an equals sign. *)
Variable key : text -> Prop.
Hypothesis hit_shape : forall t,
  hit t = true -> exists x r, t = x ++ "="%char :: r /\ unmarked x = true /\ key x.
Hypothesis key_blank : forall n, name_ok n = true -> ~ key (" "%char :: n).
Hypothesis key_name : forall n1 n2, name_ok (n1 ++ n2) = true -> ~ key n2.

Lemma no_hit_before_equals : forall x r,
  unmarked x = true -> ~ key x -> hit (x ++ "="%char :: r) = false.
Proof.
  intros x r Hx Hk. destruct (hit (x ++ "="%char :: r)) eqn:E; [|reflexivity].
  apply hit_shape in E as (x' & r' & E & Hx' & Hk').
  destruct (first_mark_unique mark x "=" r x' "=" r' Hx eq_refl Hx' eq_refl E) as (-> & _ & _).
  contradiction.
Qed.

Lemma no_hit_before_quote : forall x r,
  unmarked x = true -> hit (x ++ DQc :: r) = false.
Proof.
  intros x r Hx. destruct (hit (x ++ DQc :: r)) eqn:E; [|reflexivity].
  apply hit_shape in E as (x' & r' & E & Hx' & Hk').
  destruct (first_mark_unique mark x DQc r x' "=" r' Hx eq_refl Hx' eq_refl E) as (_ & E' & _).
  discriminate E'.
Qed.

Lemma no_hit_at_equals : forall r, ~ key [] -> hit ("="%char :: r) = false.
Proof. intros r H. apply (no_hit_before_equals [] r); [reflexivity|exact H]. Qed.

Lemma no_hit_at_quote : forall r, hit (DQc :: r) = false.
Proof. intros r. apply (no_hit_before_quote [] r). reflexivity. Qed.

Lemma no_hit_in_text : forall v r,
  unmarked v = true -> hits hit v (DQc :: r) = false.
Proof.
  induction v as [|a v IH]; intros r Hv; [reflexivity|].
  cbn [hits]. rewrite (no_hit_before_quote (a :: v) r Hv).
  simpl in Hv. apply andb_true_iff in Hv as [_ Hv]. apply IH. exact Hv.
Qed.

Lemma no_hit_in_name : forall n1 n2 r,
  name_ok (n1 ++ n2) = true -> hits hit n2 ("="%char :: r) = false.
Proof.
  intros n1 n2; revert n1. induction n2 as [|a n2 IH]; intros n1 r Hn; [reflexivity|].
  cbn [hits]. rewrite no_hit_before_equals.
  - simpl. apply (IH (n1 ++ [a])). rewrite <- app_assoc. exact Hn.
  - apply name_unmarked in Hn. apply forallb_app_r in Hn. exact Hn.
  - apply (key_name n1). exact Hn.
Qed.

Lemma no_hit_in_attribute : forall a y,
  attribute_ok a = true -> hits hit (render_attribute a) y = false.
Proof.
  intros [n v] y Ha. unfold attribute_ok in Ha. simpl in Ha.
  apply andb_true_iff in Ha as [Hn Hv].
  change (render_attribute (n, v))
    with ([" "%char] ++ n ++ ["="%char; DQc] ++ v ++ [DQc]).
  rewrite !hits_app, <- !app_assoc. cbn [app hits].
  change (" "%char :: n ++ "="%char :: DQc :: v ++ DQc :: y)
    with ((" "%char :: n) ++ "="%char :: DQc :: v ++ DQc :: y).
  rewrite no_hit_before_equals;
    [|simpl; apply name_unmarked; exact Hn | apply key_blank; exact Hn].
  rewrite (no_hit_in_name [] n) by exact Hn.
  rewrite no_hit_at_equals by (apply (key_name n); rewrite app_nil_r; exact Hn).
  rewrite !no_hit_at_quote.
  rewrite no_hit_in_text by (apply value_unmarked; exact Hv).
  reflexivity.
Qed.

Lemma no_hit_in_attributes : forall l y,
  attributes_ok l = true -> hits hit (render_attributes l) y = false.
Proof.
  induction l as [|a l IH]; intros y Hl; [reflexivity|].
  simpl in Hl. apply andb_true_iff in Hl as [Ha Hl].
  cbn [render_attributes flat_map]. rewrite hits_app.
  rewrite no_hit_in_attribute by exact Ha.
  apply IH. exact Hl.
Qed.

End HitsInAttributes.

Lemma starts_with_here : forall w r, starts_with w (w ++ r) = true.
Proof.
  induction w as [|x w IH]; intros r; [reflexivity|].
  simpl. rewrite chr_eqb_refl. apply IH.
Qed.

Lemma starts_with_exact : forall w t, starts_with w t = true -> exists r, t = w ++ r.
Proof.
  induction w as [|x w IH]; intros t H.
  - exists t. reflexivity.
  - destruct t as [|a t]; [discriminate|]. simpl in H.
    apply andb_true_iff in H as [Ha H]. apply chr_eqb_eq in Ha. subst a.
    destruct (IH _ H) as [r ->]. exists r. reflexivity.
Qed.

(** *** The fill pattern of the themed component revision *)

Lemma themed_hit_shape : forall t,
  themed_hit t = true ->
  exists x r, t = x ++ "="%char :: r /\ unmarked x = true /\ themed_key x.
Proof.
  intros t H. apply starts_with_exact in H as [r ->].
  exists (str "fill"), (DQc :: r). repeat split.
Qed.

Lemma themed_key_blank : forall n, name_ok n = true -> ~ themed_key (" "%char :: n).
Proof. intros n _ H. discriminate H. Qed.

Lemma themed_key_name : forall n1 n2, name_ok (n1 ++ n2) = true -> ~ themed_key n2.
Proof.
  intros n1 n2 Hn ->. unfold name_ok in Hn.
  apply andb_true_iff in Hn as [_ Hn]. apply negb_true_iff in Hn.
  unfold ends_with in Hn. rewrite rev_app_distr, starts_with_here in Hn.
  discriminate Hn.
Qed.

Lemma themed_no_hit_in_attributes : forall l y,
  attributes_ok l = true -> hits themed_hit (render_attributes l) y = false.
Proof.
  intros l y H.
  exact (no_hit_in_attributes themed_hit themed_key themed_hit_shape
           themed_key_blank themed_key_name l y H).
Qed.

(** A pattern that goes on with [fill=DQ] can only succeed where that text
    stands. *)
Lemma fill_open_hit : forall fl r p t c k res,
  fi fl = false ->
  run fl (lit "fill=" +++ Chr DQc +++ r)%re p t c k = Some res ->
  themed_hit t = true.
Proof.
  intros fl r p t c k res Hfl H. unfold lit in H. cbn [run] in H.
  rewrite run_lit, Hfl in H.
  destruct (lit_strip false (str "fill=") t) as [[m rest]|] eqn:E; [|discriminate].
  apply lit_strip_exact in E as [-> ->].
  destruct rest as [|a rest]; [discriminate|].
  destruct (chr_match false DQc a) eqn:Ea; [|discriminate].
  apply chr_match_exact in Ea. subst a.
  unfold themed_hit, fill_open.
  change (str "fill=" ++ DQc :: rest) with ((str "fill=" ++ DQ) ++ rest).
  apply starts_with_here.
Qed.

(** Groups around a repetition of a class. *)
Lemma run_group_lazy : forall fl n neg f r p s c k,
  run fl (Grp n (Star false (Cls neg f)) +++ r)%re p s c k =
  lazy_cls (cls_match (fi fl) neg f)
    (fun p' s' => run fl r p' s' ((n, consumed p p') :: c) k) p s.
Proof.
  intros.
  change (run fl (Grp n (Star false (Cls neg f)) +++ r)%re p s c k)
    with (run fl (Star false (Cls neg f)) p s c
            (fun p' s' c' => run fl r p' s' ((n, consumed p p') :: c') k)).
  rewrite run_star_lazy. reflexivity.
Qed.

Lemma run_group_greedy : forall fl n neg f r p s c k,
  run fl (Grp n (Star true (Cls neg f)) +++ r)%re p s c k =
  greedy_cls (cls_match (fi fl) neg f)
    (fun p' s' => run fl r p' s' ((n, consumed p p') :: c) k) p s.
Proof.
  intros.
  change (run fl (Grp n (Star true (Cls neg f)) +++ r)%re p s c k)
    with (run fl (Star true (Cls neg f)) p s c
            (fun p' s' c' => run fl r p' s' ((n, consumed p p') :: c') k)).
  rewrite run_star_greedy. reflexivity.
Qed.

Lemma run_seq_greedy : forall fl neg f r p s c k,
  run fl (Star true (Cls neg f) +++ r)%re p s c k =
  greedy_cls (cls_match (fi fl) neg f)
    (fun p' s' => run fl r p' s' c k) p s.
Proof.
  intros.
  change (run fl (Star true (Cls neg f) +++ r)%re p s c k)
    with (run fl (Star true (Cls neg f)) p s c
            (fun p' s' c' => run fl r p' s' c' k)).
  rewrite run_star_greedy. reflexivity.
Qed.

Lemma plain_no_gt : forall c, plain c = true -> no_gt c = true.
Proof.
  intros c H. unfold plain in H. apply andb_true_iff in H as [_ H].
  unfold no_gt, cls_match, chr_is. simpl. rewrite orb_false_r. exact H.
Qed.

Lemma plain_no_dq : forall c, plain c = true -> no_dq c = true.
Proof.
  intros c H. unfold plain, mark in H.
  apply andb_true_iff in H as [H _]. apply andb_true_iff in H as [H _].
  apply negb_true_iff in H. apply orb_false_iff in H as [_ H].
  unfold no_dq, cls_match, chr_is. simpl. rewrite orb_false_r, H. reflexivity.
Qed.

Lemma plain_no_lt : forall c, plain c = true -> chr_eqb c "<" = false.
Proof.
  intros c H. unfold plain in H.
  apply andb_true_iff in H as [H _]. apply andb_true_iff in H as [_ H].
  apply negb_true_iff in H. exact H.
Qed.

Lemma plain_no_bracket : forall c, plain c = true -> no_bracket c = true.
Proof.
  intros c H. unfold plain in H. apply andb_true_iff in H as [H Hgt].
  apply andb_true_iff in H as [_ Hlt]. unfold no_bracket. rewrite Hlt, Hgt. reflexivity.
Qed.

Lemma render_attributes_no_bracket : forall l,
  attributes_ok l = true -> forallb no_bracket (render_attributes l) = true.
Proof.
  induction l as [|[n v] l IH]; intros H; [reflexivity|].
  simpl in H. apply andb_true_iff in H as [Ha Hl].
  unfold attribute_ok in Ha. simpl in Ha. apply andb_true_iff in Ha as [Hn Hv].
  cbn [render_attributes flat_map].
  change (render_attribute (n, v))
    with ([" "%char] ++ n ++ ["="%char; DQc] ++ v ++ [DQc]).
  rewrite !forallb_app. fold (render_attributes l). rewrite (IH Hl).
  assert (Hn' : forallb no_bracket n = true).
  { apply name_plain in Hn. revert Hn. apply forallb_impl.
    intros c Hc. apply andb_true_iff in Hc as [Hc _]. apply plain_no_bracket. exact Hc. }
  assert (Hv' : forallb no_bracket v = true).
  { revert Hv. apply forallb_impl. exact plain_no_bracket. }
  rewrite Hn', Hv'. reflexivity.
Qed.

Lemma no_bracket_no_gt : forall x, forallb no_bracket x = true -> forallb no_gt x = true.
Proof.
  intros x. apply forallb_impl. intros c H. unfold no_bracket in H.
  apply andb_true_iff in H as [_ H].
  unfold no_gt, cls_match, chr_is. simpl. rewrite orb_false_r. exact H.
Qed.

Lemma attempt_seq_lit : forall fl w r p s,
  attempt fl (lit_text w +++ r)%re p (w ++ s) =
  run fl r (rev w ++ p) s [] (fun p' s' c' => Some (p', s', (0, consumed p p') :: c')).
Proof.
  intros. unfold attempt.
  change (run fl (Grp 0 (lit_text w +++ r)%re) p (w ++ s) []
            (fun p' s' c' => Some (p', s', c')))
    with (run fl (lit_text w) p (w ++ s) []
            (fun p1 s1 c1 => run fl r p1 s1 c1
               (fun p' s' c' => Some (p', s', (0, consumed p p') :: c')))).
  rewrite run_lit, lit_strip_here. reflexivity.
Qed.

Lemma run_seq_lit : forall fl w r p s c k,
  run fl (lit_text w +++ r)%re p (w ++ s) c k = run fl r (rev w ++ p) s c k.
Proof.
  intros.
  change (run fl (lit_text w +++ r)%re p (w ++ s) c k)
    with (run fl (lit_text w) p (w ++ s) c (fun p1 s1 c1 => run fl r p1 s1 c1 k)).
  rewrite run_lit, lit_strip_here. reflexivity.
Qed.

Lemma run_seq_chr : forall fl x r p s c k,
  run fl (Chr x +++ r)%re p (x :: s) c k = run fl r (x :: p) s c k.
Proof.
  intros.
  change (run fl (Chr x +++ r)%re p (x :: s) c k)
    with (if chr_match (fi fl) x x then run fl r (x :: p) s c k else None).
  rewrite chr_match_refl. reflexivity.
Qed.

Lemma run_lit_end : forall fl w p s c k,
  run fl (lit_text w) p (w ++ s) c k = k (rev w ++ p) s c.
Proof. intros. rewrite run_lit, lit_strip_here. reflexivity. Qed.

Lemma run_lit_whole : forall fl w p c k,
  run fl (lit_text w) p w c k = k (rev w ++ p) [] c.
Proof.
  intros. rewrite <- (app_nil_r w) at 2. apply run_lit_end.
Qed.

(** A greedy repetition takes a whole stretch of the class when the class
    stops behind it and the rest of the match succeeds there. *)
Lemma greedy_cls_exact : forall P k u p s res,
  forallb P u = true ->
  match s with [] => true | b :: _ => negb (P b) end = true ->
  k (rev u ++ p) s = Some res ->
  greedy_cls P k p (u ++ s) = Some res.
Proof.
  intros P k u p s res Hu Hs Hk. apply greedy_cls_through; [exact Hu|].
  rewrite greedy_cls_stop by exact Hs. exact Hk.
Qed.

Lemma close_hit_run : forall fl p t c k res,
  fi fl = false -> run fl (lit "/>") p t c k = Some res -> close_hit t = true.
Proof.
  intros fl p t c k res Hfl H. unfold lit in H. rewrite run_lit, Hfl in H.
  destruct (lit_strip false (str "/>") t) as [[m rest]|] eqn:E; [|discriminate].
  apply lit_strip_exact in E as [-> ->]. apply starts_with_here.
Qed.

Lemma chr_eqb_sym : forall a b, chr_eqb a b = chr_eqb b a.
Proof. intros a b. apply Ascii.eqb_sym. Qed.

Lemma no_gt_spec : forall c, no_gt c = negb (chr_eqb ">" c).
Proof.
  intros c. unfold no_gt, cls_match, chr_is. simpl.
  rewrite orb_false_r, chr_eqb_sym. reflexivity.
Qed.

Lemma no_close_hit : forall B y,
  forallb no_gt B = true ->
  match y with [] => true | b :: _ => no_gt b end = true ->
  hits close_hit B y = false.
Proof.
  induction B as [|a B IH]; intros y HB Hy; [reflexivity|].
  simpl in HB. apply andb_true_iff in HB as [Ha HB].
  cbn [hits]. rewrite (IH y HB Hy), orb_false_r.
  unfold close_hit. cbn [app str list_ascii_of_string starts_with].
  destruct (chr_eqb "/" a); [|reflexivity]. cbn [andb].
  destruct B as [|b B].
  - destruct y as [|c y]; [reflexivity|].
    rewrite no_gt_spec in Hy. apply negb_true_iff in Hy.
    cbn [app starts_with]. rewrite Hy. reflexivity.
  - simpl in HB. apply andb_true_iff in HB as [Hb _].
    rewrite no_gt_spec in Hb. apply negb_true_iff in Hb.
    cbn [app starts_with]. rewrite Hb. reflexivity.
Qed.

Lemma themed_fill_self_attempt : forall A v B p,
  forallb no_gt A = true ->
  hits themed_hit A (fill_open ++ v ++ DQ ++ B ++ str "/>") = false ->
  forallb no_dq v = true ->
  forallb no_gt B = true ->
  exists pf w,
    attempt f_g Themed.re_fill_self p
      (str "<Path" ++ A ++ fill_open ++ v ++ DQ ++ B ++ str "/>") =
    Some (pf, [], [(0, w); (2, B); (1, A)]).
Proof.
  intros A v B p HA Hhit Hv HB.
  unfold Themed.re_fill_self, lit. rewrite attempt_seq_lit.
  unfold lazy_star, not_gt. rewrite run_group_lazy.
  change (cls_match (fi f_g) true (chr_is ">")) with no_gt.
  rewrite (lazy_scan themed_hit no_gt) ; [| | exact HA | exact Hhit].
  2:{ intros p0 t res H. eapply fill_open_hit; [|exact H]. reflexivity. }
  eexists. eexists. apply lazy_cls_here.
  unfold fill_open. rewrite <- app_assoc. rewrite run_seq_lit.
  change (DQ ++ v ++ DQ ++ B ++ str "/>") with (DQc :: v ++ DQc :: B ++ str "/>").
  rewrite run_seq_chr.
  unfold star, not_dq. rewrite run_seq_greedy.
  change (cls_match (fi f_g) true (chr_is DQc)) with no_dq.
  apply greedy_cls_exact; [exact Hv | reflexivity |].
  rewrite run_seq_chr. rewrite run_group_lazy.
  change (cls_match (fi f_g) true (chr_is ">")) with no_gt.
  rewrite (lazy_scan close_hit no_gt); [| | exact HB | apply no_close_hit; [exact HB|reflexivity]].
  2:{ intros p0 t res H. eapply close_hit_run; [|exact H]. reflexivity. }
  apply lazy_cls_here.
  rewrite run_lit_whole.
  rewrite (consumed_app B), (consumed_app A). reflexivity.
Qed.

(** Behind the last match nothing is left to replace. *)
Lemma replace_all_nil : forall fl w r f p,
  lit_strip (fi fl) w [] = None ->
  replace_all fl (lit_text w +++ r)%re f p [] = [].
Proof.
  intros. apply replace_all_none. cbn [search].
  rewrite attempt_lit_none; [reflexivity|assumption].
Qed.

Lemma themed_fill_self_text : forall A v B,
  forallb no_gt A = true ->
  hits themed_hit A (fill_open ++ v ++ DQ ++ B ++ str "/>") = false ->
  forallb no_dq v = true ->
  forallb no_gt B = true ->
  Themed.fill_self (str "<Path" ++ A ++ fill_open ++ v ++ DQ ++ B ++ str "/>") =
  str "<Path" ++ A ++ str "fill={fillColor}" ++ B ++ str " />".
Proof.
  intros A v B HA Hhit Hv HB.
  destruct (themed_fill_self_attempt A v B [] HA Hhit Hv HB) as (pf & w & Hat).
  pose proof (attempt_sound _ _ _ _ _ _ _ Hat) as [Hw _].
  rewrite cap_head, app_nil_r in Hw. subst w.
  unfold Themed.fill_self, replace. cbn [fg f_g].
  rewrite replace_all_eq, (search_here _ _ _ _ _ Hat).
  rewrite cap_head.
  unfold cap at 1 2. cbn [find fst snd Nat.eqb].
  remember (str "<Path" ++ A ++ fill_open ++ v ++ DQ ++ B ++ str "/>") as E eqn:HE.
  destruct E as [|e E]; [discriminate HE|].
  unfold Themed.re_fill_self, lit.
  rewrite replace_all_nil by reflexivity.
  rewrite app_nil_r. reflexivity.
Qed.

Lemma occurs_no_head : forall x w s,
  forallb (fun c => negb (chr_eqb x c)) s = true ->
  occurs false (x :: w) s = false.
Proof.
  intros x w. induction s as [|a s IH]; intros H; [reflexivity|].
  simpl in H. apply andb_true_iff in H as [Ha H].
  apply negb_true_iff in Ha.
  cbn [occurs lit_strip]. unfold chr_match. rewrite Ha. simpl.
  apply IH. exact H.
Qed.

Lemma no_bracket_no_lt : forall x, forallb no_bracket x = true -> forallb no_lt x = true.
Proof.
  intros x. apply forallb_impl. intros c H. unfold no_bracket in H.
  apply andb_true_iff in H as [H _]. unfold no_lt. rewrite chr_eqb_sym. exact H.
Qed.

(** A pattern that looks inside one Path tag for [fill=DQ] leaves alone a
    tag in which that text does not occur. *)
Lemma themed_fill_noop : forall r f X,
  hits themed_hit X [] = false ->
  forallb no_lt X = true ->
  replace f_g (lit "<Path" +++ Grp 1 (lazy_star not_gt) +++ lit "fill=" +++ Chr DQc +++ r)%re f
    (str "<Path" ++ X) = str "<Path" ++ X.
Proof.
  intros r f X Hhit Hlt. unfold replace. cbn [fg f_g].
  apply replace_all_none.
  change (str "<Path" ++ X) with ("<"%char :: (str "Path" ++ X)).
  cbn [search].
  change ("<"%char :: (str "Path" ++ X)) with (str "<Path" ++ X).
  unfold lit at 1. rewrite attempt_seq_lit.
  unfold lazy_star, not_gt. rewrite run_group_lazy.
  change (cls_match (fi f_g) true (chr_is ">")) with no_gt.
  rewrite (lazy_all_none themed_hit no_gt); [| | exact Hhit | reflexivity].
  2:{ intros p0 t res H. eapply fill_open_hit; [|exact H]. reflexivity. }
  unfold lit at 1. rewrite search_lit_none; [reflexivity|].
  cbn [fi f_g]. apply occurs_no_head.
  change (forallb no_lt (str "Path" ++ X) = true).
  rewrite forallb_app, Hlt. reflexivity.
Qed.

Lemma render_attributes_app : forall l1 l2,
  render_attributes (l1 ++ l2) = render_attributes l1 ++ render_attributes l2.
Proof. intros. unfold render_attributes. apply flat_map_app. Qed.

Lemma path_element_with_fill : forall pre v post,
  path_element (pre ++ (str "fill", v) :: post) =
  str "<Path" ++ (render_attributes pre ++ str " ") ++ fill_open ++ v ++ DQ ++
  (render_attributes post ++ str " ") ++ str "/>".
Proof.
  intros. unfold path_element. rewrite render_attributes_app.
  cbn [render_attributes flat_map]. fold (render_attributes post).
  unfold render_attribute, fill_open. cbn [fst snd].
  rewrite <- !app_assoc. reflexivity.
Qed.

Lemma themed_fill_self_with : forall pre v post,
  attributes_ok pre = true -> value_ok v = true -> attributes_ok post = true ->
  Themed.fill_self (path_element (pre ++ (str "fill", v) :: post)) =
  str "<Path" ++ render_attributes pre ++ str " fill={fillColor}" ++
  render_attributes post ++ str "  />".
Proof.
  intros pre v post Hpre Hv Hpost.
  rewrite path_element_with_fill, themed_fill_self_text.
  - rewrite <- !app_assoc. reflexivity.
  - rewrite forallb_app.
    rewrite (no_bracket_no_gt _ (render_attributes_no_bracket _ Hpre)). reflexivity.
  - rewrite hits_app, themed_no_hit_in_attributes by exact Hpre. reflexivity.
  - revert Hv. apply forallb_impl. exact plain_no_dq.
  - rewrite forallb_app.
    rewrite (no_bracket_no_gt _ (render_attributes_no_bracket _ Hpost)). reflexivity.
Qed.

Lemma themed_fill_paired_with : forall pre post,
  attributes_ok pre = true -> attributes_ok post = true ->
  Themed.fill_paired
    (str "<Path" ++ render_attributes pre ++ str " fill={fillColor}" ++
     render_attributes post ++ str "  />") =
  str "<Path" ++ render_attributes pre ++ str " fill={fillColor}" ++
  render_attributes post ++ str "  />".
Proof.
  intros pre post Hpre Hpost. unfold Themed.fill_paired, Themed.re_fill_paired.
  apply themed_fill_noop.
  - rewrite !hits_app.
    rewrite !themed_no_hit_in_attributes by assumption. reflexivity.
  - rewrite !forallb_app.
    rewrite (no_bracket_no_lt _ (render_attributes_no_bracket _ Hpre)).
    rewrite (no_bracket_no_lt _ (render_attributes_no_bracket _ Hpost)). reflexivity.
Qed.

Lemma themed_fill_without : forall l,
  attributes_ok l = true ->
  Themed.fill_self (path_element l) = path_element l /\
  Themed.fill_paired (path_element l) = path_element l.
Proof.
  intros l Hl. unfold path_element.
  assert (Hhit : hits themed_hit (render_attributes l ++ str " />") [] = false).
  { rewrite hits_app, themed_no_hit_in_attributes by exact Hl. reflexivity. }
  assert (Hlt : forallb no_lt (render_attributes l ++ str " />") = true).
  { rewrite forallb_app.
    rewrite (no_bracket_no_lt _ (render_attributes_no_bracket _ Hl)). reflexivity. }
  split.
  - unfold Themed.fill_self, Themed.re_fill_self. apply themed_fill_noop; assumption.
  - unfold Themed.fill_paired, Themed.re_fill_paired. apply themed_fill_noop; assumption.
Qed.

(** *** The fill pattern of the inline revision *)

Lemma drop_spaces_split : forall s,
  exists u, s = u ++ drop_spaces s /\ forallb is_space u = true.
Proof.
  induction s as [|a s [u [E Hu]]].
  - exists []. split; reflexivity.
  - simpl. destruct (is_space a) eqn:Ea.
    + exists (a :: u). simpl. rewrite Ea, Hu, <- E. split; reflexivity.
    + exists []. split; reflexivity.
Qed.

Lemma drop_spaces_app : forall u s,
  forallb is_space u = true ->
  match s with [] => true | b :: _ => negb (is_space b) end = true ->
  drop_spaces (u ++ s) = s.
Proof.
  induction u as [|a u IH]; intros s Hu Hs.
  - destruct s as [|b s]; [reflexivity|]. simpl.
    apply negb_true_iff in Hs. rewrite Hs. reflexivity.
  - simpl in Hu. apply andb_true_iff in Hu as [Ha Hu].
    simpl. rewrite Ha. apply IH; assumption.
Qed.

Lemma space_unmarked : forall c, is_space c = true -> negb (mark c) = true.
Proof.
  intros c H. unfold mark. destruct (chr_eqb c "=") eqn:E1.
  - apply chr_eqb_eq in E1. subst c. discriminate H.
  - destruct (chr_eqb c DQc) eqn:E2; [|reflexivity].
    apply chr_eqb_eq in E2. subst c. discriminate H.
Qed.

Lemma inline_hit_shape : forall t,
  inline_hit t = true ->
  exists x r, t = x ++ "="%char :: r /\ unmarked x = true /\ inline_key x.
Proof.
  intros [|a t'] H; [discriminate|]. unfold inline_hit in H.
  apply andb_true_iff in H as [Ha H]. apply andb_true_iff in H as [Hf He].
  destruct (drop_spaces_split t') as [u1 [E1 Hu1]].
  apply starts_with_exact in Hf as [t2 Ht2].
  rewrite Ht2 in He. change (skipn 4 (str "fill" ++ t2)) with t2 in He.
  destruct (drop_spaces_split t2) as [u2 [E2 Hu2]].
  destruct (drop_spaces t2) as [|c r] eqn:Ed; [discriminate|].
  apply chr_eqb_eq in He. subst c.
  exists (a :: u1 ++ str "fill" ++ u2), r. repeat split.
  - rewrite E1, Ht2, E2. simpl. rewrite <- !app_assoc. reflexivity.
  - unfold unmarked.
    change (a :: u1 ++ str "fill" ++ u2) with ([a] ++ u1 ++ str "fill" ++ u2).
    rewrite !forallb_app.
    rewrite (forallb_impl _ _ u1 space_unmarked Hu1).
    rewrite (forallb_impl _ _ u2 space_unmarked Hu2).
    cbn [forallb]. rewrite (space_unmarked _ Ha). reflexivity.
  - exists a, u1, u2. repeat split; assumption.
Qed.

Lemma no_space_nil : forall u y,
  forallb is_space u = true ->
  forallb (fun c => plain c && negb (is_space c)) (u ++ y) = true ->
  u = [].
Proof.
  intros [|a u] y Hu Hn; [reflexivity|].
  simpl in Hu, Hn. apply andb_true_iff in Hu as [Ha _].
  apply andb_true_iff in Hn as [Hn _]. apply andb_true_iff in Hn as [_ Hn].
  rewrite Ha in Hn. discriminate.
Qed.

Lemma inline_key_blank : forall n, name_ok n = true -> ~ inline_key (" "%char :: n).
Proof.
  intros n Hn (a & u1 & u2 & E & Ha & Hu1 & Hu2).
  injection E as _ E. subst n.
  pose proof (name_plain _ Hn) as Hp.
  pose proof (no_space_nil u1 _ Hu1 Hp) as ->. simpl in Hp, Hn.
  assert (u2 = []) as ->.
  { apply (no_space_nil u2 [] Hu2). rewrite app_nil_r.
    change (forallb (fun c => plain c && negb (is_space c)) (str "fill" ++ u2) = true) in Hp.
    apply forallb_app_r in Hp. exact Hp. }
  unfold name_ok in Hn. apply andb_true_iff in Hn as [_ Hn]. discriminate Hn.
Qed.

Lemma inline_key_name : forall n1 n2, name_ok (n1 ++ n2) = true -> ~ inline_key n2.
Proof.
  intros n1 n2 Hn (a & u1 & u2 & E & Ha & Hu1 & Hu2). subst n2.
  apply name_plain in Hn. apply forallb_app_r in Hn. simpl in Hn.
  apply andb_true_iff in Hn as [Hn _]. apply andb_true_iff in Hn as [_ Hn].
  rewrite Ha in Hn. discriminate.
Qed.

Lemma inline_no_hit_in_attributes : forall l y,
  attributes_ok l = true -> hits inline_hit (render_attributes l) y = false.
Proof.
  intros l y H.
  exact (no_hit_in_attributes inline_hit inline_key inline_hit_shape
           inline_key_blank inline_key_name l y H).
Qed.

Lemma inline_no_hit_in_value : forall v r,
  value_ok v = true -> hits inline_hit v (DQc :: r) = false.
Proof.
  intros v r H.
  exact (no_hit_in_text inline_hit inline_key inline_hit_shape v r (value_unmarked v H)).
Qed.

Lemma blank_spec : forall c, blank c = is_space c.
Proof. intros c. unfold blank, cls_match. simpl. apply orb_false_r. Qed.

Lemma forallb_blank : forall u, forallb blank u = true -> forallb is_space u = true.
Proof. intros u. apply forallb_impl. intros c H. rewrite <- blank_spec. exact H. Qed.

(** The rest of the inline pattern behind the first group. *)
Lemma inline_fill_hit : forall fl r p t c k res,
  fi fl = false ->
  run fl (plus space +++ lit "fill" +++ star space +++ Chr "=" +++ r)%re p t c k = Some res ->
  inline_hit t = true.
Proof.
  intros fl r p t c k res Hfl H.
  unfold plus, space, star, lit in H.
  change (run fl ((Cls false is_space +++ Star true (Cls false is_space)) +++
                  lit_text (str "fill") +++ Star true (Cls false is_space) +++
                  Chr "=" +++ r)%re p t c k)
    with (match t with
          | a :: s' =>
              if cls_match (fi fl) false is_space a
              then run fl (Star true (Cls false is_space) +++
                           lit_text (str "fill") +++ Star true (Cls false is_space) +++
                           Chr "=" +++ r)%re (a :: p) s' c k
              else None
          | [] => None
          end) in H.
  destruct t as [|a t']; [discriminate|].
  rewrite Hfl in H. fold (blank a) in H.
  destruct (blank a) eqn:Ha; [|discriminate]. rewrite blank_spec in Ha.
  rewrite run_seq_greedy in H. rewrite Hfl in H.
  apply greedy_cls_sound in H as (u1 & s1 & -> & Hu1 & H).
  apply forallb_blank in Hu1.
  change (run fl (lit_text (str "fill") +++ Star true (Cls false is_space) +++
                  Chr "=" +++ r)%re (rev u1 ++ a :: p) s1 c k)
    with (run fl (lit_text (str "fill")) (rev u1 ++ a :: p) s1 c
            (fun p1 s2 c1 => run fl (Star true (Cls false is_space) +++ Chr "=" +++ r)%re
                               p1 s2 c1 k)) in H.
  rewrite run_lit, Hfl in H.
  destruct (lit_strip false (str "fill") s1) as [[m rest]|] eqn:E; [|discriminate].
  apply lit_strip_exact in E as [-> ->].
  rewrite run_seq_greedy in H. rewrite Hfl in H.
  apply greedy_cls_sound in H as (u2 & s2 & -> & Hu2 & H).
  apply forallb_blank in Hu2.
  change (run fl (Chr "=" +++ r)%re (rev u2 ++ rev (str "fill") ++ rev u1 ++ a :: p) s2 c k)
    with (match s2 with
          | b :: s' =>
              if chr_match (fi fl) "=" b
              then run fl r (b :: rev u2 ++ rev (str "fill") ++ rev u1 ++ a :: p) s' c k
              else None
          | [] => None
          end) in H.
  destruct s2 as [|b s2]; [discriminate|]. rewrite Hfl in H.
  destruct (chr_match false "=" b) eqn:Eb; [|discriminate].
  apply chr_match_exact in Eb. subst b.
  unfold inline_hit. rewrite Ha. cbn [andb].
  rewrite (drop_spaces_app u1) by (exact Hu1 || reflexivity).
  change (skipn 4 (str "fill" ++ u2 ++ "="%char :: s2)) with (u2 ++ "="%char :: s2).
  rewrite (drop_spaces_app u2) by (exact Hu2 || reflexivity).
  reflexivity.
Qed.

Lemma run_seq_cls : forall fl neg f r p a s c k,
  cls_match (fi fl) neg f a = true ->
  run fl (Cls neg f +++ r)%re p (a :: s) c k = run fl r (a :: p) s c k.
Proof.
  intros fl neg f r p a s c k H.
  change (run fl (Cls neg f +++ r)%re p (a :: s) c k)
    with (if cls_match (fi fl) neg f a then run fl r (a :: p) s c k else None).
  rewrite H. reflexivity.
Qed.

Lemma run_seq_assoc : forall fl a b r p s c k,
  run fl ((a +++ b) +++ r)%re p s c k = run fl (a +++ (b +++ r))%re p s c k.
Proof. reflexivity. Qed.

Lemma run_group_seq_greedy : forall fl n neg f r p s c k,
  run fl (Grp n (Star true (Cls neg f) +++ r))%re p s c k =
  greedy_cls (cls_match (fi fl) neg f)
    (fun p' s' => run fl r p' s' c (fun p2 s2 c2 => k p2 s2 ((n, consumed p p2) :: c2))) p s.
Proof.
  intros.
  change (run fl (Grp n (Star true (Cls neg f) +++ r))%re p s c k)
    with (run fl (Star true (Cls neg f)) p s c
            (fun p' s' c' => run fl r p' s' c'
               (fun p2 s2 c2 => k p2 s2 ((n, consumed p p2) :: c2)))).
  rewrite run_star_greedy. reflexivity.
Qed.

Lemma consumed_snoc : forall u a p, consumed p (a :: rev u ++ p) = u ++ [a].
Proof.
  intros u a p.
  change (a :: rev u ++ p) with ((a :: rev u) ++ p).
  rewrite <- (rev_involutive (a :: rev u)). rewrite consumed_app.
  simpl. rewrite rev_involutive. reflexivity.
Qed.

Lemma inline_fill_attempt : forall A v B p,
  forallb no_gt A = true ->
  forallb no_dq v = true ->
  forallb no_gt B = true ->
  hits inline_hit (fill_open ++ v ++ DQ ++ B) (str ">") = false ->
  exists pf w,
    attempt f_g Inline.re_fill p
      (str "<Path" ++ A ++ str " " ++ fill_open ++ v ++ DQ ++ B ++ str ">") =
    Some (pf, [], [(0, w); (2, B ++ str ">"); (1, A)]).
Proof.
  intros A v B p HA Hv HB Hhit.
  unfold Inline.re_fill, lit, plus, star, space, not_gt, not_dq.
  rewrite attempt_seq_lit, run_group_greedy.
  change (cls_match (fi f_g) true (chr_is ">")) with no_gt.
  eexists. eexists.
  apply greedy_cls_through; [exact HA|].
  change (str " " ++ fill_open ++ v ++ DQ ++ B ++ str ">")
    with (" "%char :: (fill_open ++ v ++ DQ ++ B ++ str ">")).
  cbn [greedy_cls].
  change (no_gt " ") with true. cbv iota.
  replace (fill_open ++ v ++ DQ ++ B ++ str ">")
    with ((fill_open ++ v ++ DQ ++ B) ++ str ">") by (rewrite <- !app_assoc; reflexivity).
  rewrite (greedy_scan_none inline_hit no_gt); [| | exact Hhit |].
  2:{ intros p0 t res H. eapply inline_fill_hit; [|exact H]. reflexivity. }
  2:{ rewrite greedy_cls_stop by reflexivity.
      match goal with |- ?X = None => destruct X eqn:E; [|reflexivity] end.
      eapply inline_fill_hit in E; [|reflexivity]. discriminate E. }
  rewrite <- !app_assoc.
  rewrite run_seq_assoc.
  rewrite run_seq_cls by reflexivity.
  rewrite run_seq_greedy. rewrite greedy_cls_stop by reflexivity.
  unfold fill_open.
  change (str "fill=" ++ DQ) with (str "fill" ++ "="%char :: DQ).
  rewrite <- app_assoc. rewrite run_seq_lit.
  change (("="%char :: DQ) ++ v ++ DQ ++ B ++ str ">")
    with ("="%char :: DQc :: v ++ DQc :: B ++ str ">").
  rewrite run_seq_greedy. rewrite greedy_cls_stop by reflexivity.
  rewrite run_seq_chr.
  rewrite run_seq_greedy. rewrite greedy_cls_stop by reflexivity.
  rewrite run_seq_chr.
  rewrite run_seq_greedy.
  change (cls_match (fi f_g) true (chr_is DQc)) with no_dq.
  apply greedy_cls_exact; [exact Hv | reflexivity |].
  rewrite run_seq_chr.
  rewrite run_group_seq_greedy.
  change (cls_match (fi f_g) true (chr_is ">")) with no_gt.
  apply greedy_cls_exact; [exact HB | reflexivity |].
  change (run f_g (Chr ">") ?p0 (str ">") ?c0 ?k0)
    with (k0 (">"%char :: p0) [] c0).
  cbv beta. rewrite consumed_snoc, (consumed_app A). reflexivity.
Qed.

(** Where the inline pattern finds no fill attribute in a tag it leaves
    the tag alone. *)
Lemma inline_fill_noop : forall X,
  hits inline_hit X [] = false ->
  forallb no_lt X = true ->
  Inline.apply_fill (str "<Path" ++ X) = str "<Path" ++ X.
Proof.
  intros X Hhit Hlt. unfold Inline.apply_fill, replace. cbn [fg f_g].
  apply replace_all_none.
  change (str "<Path" ++ X) with ("<"%char :: (str "Path" ++ X)).
  cbn [search].
  change ("<"%char :: (str "Path" ++ X)) with (str "<Path" ++ X).
  unfold Inline.re_fill, lit. rewrite attempt_seq_lit.
  unfold star at 1. unfold not_gt at 1. rewrite run_group_greedy.
  change (cls_match (fi f_g) true (chr_is ">")) with no_gt.
  rewrite (greedy_all_none inline_hit no_gt); [| | exact Hhit | reflexivity].
  2:{ intros p0 t res H. eapply inline_fill_hit; [|exact H]. reflexivity. }
  rewrite search_lit_none; [reflexivity|].
  cbn [fi f_g]. apply occurs_no_head.
  change (forallb no_lt (str "Path" ++ X) = true).
  rewrite forallb_app, Hlt. reflexivity.
Qed.

Lemma inline_fill_text : forall A v B,
  forallb no_gt A = true ->
  forallb no_dq v = true ->
  forallb no_gt B = true ->
  hits inline_hit (fill_open ++ v ++ DQ ++ B) (str ">") = false ->
  Inline.apply_fill (str "<Path" ++ A ++ str " " ++ fill_open ++ v ++ DQ ++ B ++ str ">") =
  str "<Path" ++ A ++ str " fill={fillColor} " ++ B ++ str ">".
Proof.
  intros A v B HA Hv HB Hhit.
  destruct (inline_fill_attempt A v B [] HA Hv HB Hhit) as (pf & w & Hat).
  pose proof (attempt_sound _ _ _ _ _ _ _ Hat) as [Hw _].
  rewrite cap_head, app_nil_r in Hw. subst w.
  unfold Inline.apply_fill, replace. cbn [fg f_g].
  rewrite replace_all_eq, (search_here _ _ _ _ _ Hat).
  rewrite cap_head.
  unfold cap at 1 2. cbn [find fst snd Nat.eqb].
  remember (str "<Path" ++ A ++ str " " ++ fill_open ++ v ++ DQ ++ B ++ str ">") as E eqn:HE.
  destruct E as [|e E]; [discriminate HE|].
  unfold Inline.re_fill, lit.
  rewrite replace_all_nil by reflexivity.
  rewrite app_nil_r. reflexivity.
Qed.

Lemma path_element_with_fill_inline : forall pre v post,
  path_element (pre ++ (str "fill", v) :: post) =
  str "<Path" ++ render_attributes pre ++ str " " ++ fill_open ++ v ++ DQ ++
  (render_attributes post ++ str " /") ++ str ">".
Proof.
  intros. unfold path_element. rewrite render_attributes_app.
  cbn [render_attributes flat_map]. fold (render_attributes post).
  unfold render_attribute, fill_open. cbn [fst snd].
  rewrite <- !app_assoc. reflexivity.
Qed.

Lemma inline_fill_with : forall pre v post,
  attributes_ok pre = true -> value_ok v = true -> attributes_ok post = true ->
  Inline.apply_fill (path_element (pre ++ (str "fill", v) :: post)) =
  str "<Path" ++ render_attributes pre ++ str " fill={fillColor} " ++
  render_attributes post ++ str " />".
Proof.
  intros pre v post Hpre Hv Hpost.
  rewrite path_element_with_fill_inline, inline_fill_text.
  - rewrite <- !app_assoc. reflexivity.
  - apply no_bracket_no_gt, render_attributes_no_bracket. exact Hpre.
  - revert Hv. apply forallb_impl. exact plain_no_dq.
  - rewrite forallb_app.
    rewrite (no_bracket_no_gt _ (render_attributes_no_bracket _ Hpost)). reflexivity.
  - unfold fill_open. rewrite !hits_app, <- !app_assoc.
    change (DQ ++ render_attributes post ++ str " /" ++ str ">")
      with (DQc :: render_attributes post ++ str " /" ++ str ">").
    rewrite inline_no_hit_in_value by exact Hv.
    rewrite inline_no_hit_in_attributes by exact Hpost.
    reflexivity.
Qed.

Lemma inline_fill_without : forall l,
  attributes_ok l = true ->
  Inline.apply_fill (path_element l) = path_element l.
Proof.
  intros l Hl. unfold path_element. apply inline_fill_noop.
  - rewrite hits_app, inline_no_hit_in_attributes by exact Hl. reflexivity.
  - rewrite forallb_app.
    rewrite (no_bracket_no_lt _ (render_attributes_no_bracket _ Hl)). reflexivity.
Qed.

Lemma attributes_ok_app : forall l1 l2,
  attributes_ok l1 = true -> attributes_ok l2 = true -> attributes_ok (l1 ++ l2) = true.
Proof.
  intros l1 l2 H1 H2. unfold attributes_ok in *. rewrite forallb_app, H1, H2. reflexivity.
Qed.




(* ================================================================== *)
(** ** A callback that returns its match *)

Lemma replace_loop_id : forall fl r f,
  (forall c, f c = cap 0 c) ->
  forall n p s, replace_loop n fl r f p s = s.
Proof.
  intros fl r f Hf. induction n as [|n IH]; intros p s; [reflexivity|].
  cbn [replace_loop].
  destruct (search fl r p s) as [[sk [[p1 s1] c]]|] eqn:E; [|reflexivity].
  apply search_sound in E as [Hs _]. rewrite Hf.
  destruct (cap 0 c) as [|x m] eqn:Ec.
  - destruct s1 as [|a s2].
    + rewrite Hs. reflexivity.
    + rewrite IH, Hs. reflexivity.
  - rewrite IH, Hs. reflexivity.
Qed.

Lemma replace_id : forall fl r f s,
  (forall c, f c = cap 0 c) -> replace fl r f s = s.
Proof.
  intros fl r f s Hf. unfold replace, replace_all. destruct (fg fl).
  - apply replace_loop_id. exact Hf.
  - destruct (search fl r [] s) as [[sk [[p1 s1] c]]|] eqn:E; [|reflexivity].
    apply search_sound in E as [Hs _]. rewrite Hf, Hs. reflexivity.
Qed.

(** X17. The step of the generic revision that is meant to close open tags
    changes nothing, whatever the text. *)
Lemma generic_self_close_is_identity : forall s, Generic.self_close s = s.
Proof.
  intros s. unfold Generic.self_close. apply replace_id.
  intros c. destruct (starts_with (str ">/") (rev (cap 0 c))); reflexivity.
Qed.

(* ================================================================== *)
(** ** What sanitizing removes (claim C8) *)

Lemma opens_false : forall ci w t, opens ci w t = false -> lit_strip ci w t = None.
Proof. intros ci w t H. unfold opens in H. destruct (lit_strip ci w t); [discriminate|reflexivity]. Qed.

Lemma opens_run : forall fl w p t c k res,
  run fl (lit_text w) p t c k = Some res -> opens (fi fl) w t = true.
Proof.
  intros fl w p t c k res H. rewrite run_lit in H. unfold opens.
  destruct (lit_strip (fi fl) w t); [reflexivity|discriminate].
Qed.

Lemma opens_run_seq : forall fl w r p t c k res,
  run fl (lit_text w +++ r)%re p t c k = Some res -> opens (fi fl) w t = true.
Proof.
  intros fl w r p t c k res H.
  change (run fl (lit_text w +++ r)%re p t c k)
    with (run fl (lit_text w) p t c (fun p1 s1 c1 => run fl r p1 s1 c1 k)) in H.
  eapply opens_run. exact H.
Qed.

(** One block that the pattern matches, the first in the text and the only
    one, is cut out by the replacement with the empty text. *)
Lemma replace_cuts_block : forall fl w r a block z,
  fg fl = true ->
  hits (opens (fi fl) w) a (block ++ z) = false ->
  (forall p, exists pf c,
      attempt fl (lit_text w +++ r)%re p (block ++ z) = Some (pf, z, c)) ->
  block <> [] ->
  occurs (fi fl) w z = false ->
  replace fl (lit_text w +++ r)%re (fun _ => []) (a ++ block ++ z) = a ++ z.
Proof.
  intros fl w r a block z Hg Ha Hat Hne Hz.
  unfold replace. rewrite Hg. rewrite replace_all_eq.
  rewrite search_skip.
  - destruct (Hat (rev a ++ [])) as (pf & c & E).
    rewrite (search_here _ _ _ _ _ E).
    apply attempt_sound in E as [Hs _].
    apply app_inv_tail in Hs. rewrite <- Hs.
    destruct block as [|b block]; [contradiction|].
    rewrite replace_all_none by (apply search_lit_none; exact Hz).
    rewrite app_nil_r. reflexivity.
  - intros a1 a2 E Hne2. apply attempt_lit_none. apply opens_false.
    eapply hits_split; eassumption.
Qed.

Lemma run_seq_lazy : forall fl neg f r p s c k,
  run fl (Star false (Cls neg f) +++ r)%re p s c k =
  lazy_cls (cls_match (fi fl) neg f)
    (fun p' s' => run fl r p' s' c k) p s.
Proof.
  intros.
  change (run fl (Star false (Cls neg f) +++ r)%re p s c k)
    with (run fl (Star false (Cls neg f)) p s c
            (fun p' s' c' => run fl r p' s' c' k)).
  rewrite run_star_lazy. reflexivity.
Qed.

(** The class [\s\S] holds every character. *)
Lemma any_char_all : forall ci x,
  forallb (cls_match ci false (fun c => is_space c || negb (is_space c))) x = true.
Proof.
  intros ci. induction x as [|a x IH]; [reflexivity|].
  simpl. rewrite IH. unfold cls_match. destruct (is_space a); reflexivity.
Qed.

(** A block that opens with [w], runs lazily over any characters and
    closes with the first [e] behind. *)
Lemma attempt_lazy_block : forall fl w e b z p,
  hits (opens (fi fl) e) b (e ++ z) = false ->
  exists pf c,
    attempt fl (lit_text w +++ lazy_star any_char +++ lit_text e)%re p
      (w ++ b ++ e ++ z) = Some (pf, z, c).
Proof.
  intros fl w e b z p Hb. rewrite attempt_seq_lit.
  unfold lazy_star, any_char. rewrite run_seq_lazy.
  rewrite (lazy_scan (opens (fi fl) e)); [| | apply any_char_all | exact Hb].
  2:{ intros p0 t res H. eapply opens_run. exact H. }
  eexists. eexists. apply lazy_cls_here. rewrite run_lit_end. reflexivity.
Qed.

(** Comments, in the themed revisions. *)
Lemma strip_comments_cuts : forall a b z,
  hits (opens false (str "<!--")) a (str "<!--" ++ b ++ str "-->" ++ z) = false ->
  hits (opens false (str "-->")) b (str "-->" ++ z) = false ->
  occurs false (str "<!--") z = false ->
  strip_comments (a ++ str "<!--" ++ b ++ str "-->" ++ z) = a ++ z.
Proof.
  intros a b z Ha Hb Hz. unfold strip_comments, re_comment, lit.
  replace (a ++ str "<!--" ++ b ++ str "-->" ++ z)
    with (a ++ (str "<!--" ++ b ++ str "-->") ++ z)
    by (rewrite <- !app_assoc; reflexivity).
  apply replace_cuts_block.
  - reflexivity.
  - rewrite <- !app_assoc. exact Ha.
  - intros p. rewrite <- !app_assoc. apply attempt_lazy_block. exact Hb.
  - discriminate.
  - exact Hz.
Qed.

(** [^>] under flag i holds the same characters as without it. *)
Lemma no_gt_ci : forall c, no_gt c = true -> cls_match true true (chr_is ">") c = true.
Proof.
  intros [b0 b1 b2 b3 b4 b5 b6 b7].
  destruct b0, b1, b2, b3, b4, b5, b6, b7; intros H; try reflexivity; discriminate H.
Qed.

Lemma no_gt_any : forall ci c, no_gt c = true -> cls_match ci true (chr_is ">") c = true.
Proof. intros [|] c H; [apply no_gt_ci; exact H|exact H]. Qed.

Lemma forallb_no_gt_any : forall ci x,
  forallb no_gt x = true -> forallb (cls_match ci true (chr_is ">")) x = true.
Proof. intros ci x. apply forallb_impl. apply no_gt_any. Qed.

(** The XML declaration, in the themed revisions: from the opening to the
    first [>], which a question mark must precede. *)
Lemma attempt_xml_decl : forall b z p,
  forallb no_gt b = true ->
  exists pf c,
    attempt f_gi re_xml_decl p (str "<?xml" ++ b ++ str "?>" ++ z) = Some (pf, z, c).
Proof.
  intros b z p Hb. unfold re_xml_decl, lit. rewrite attempt_seq_lit.
  unfold star, not_gt. rewrite run_seq_greedy.
  eexists. eexists.
  apply greedy_cls_through; [apply forallb_no_gt_any; exact Hb|].
  change (str "?>" ++ z) with ("?"%char :: ">"%char :: z).
  cbn [greedy_cls].
  change (cls_match (fi f_gi) true (chr_is ">") "?") with true.
  change (cls_match (fi f_gi) true (chr_is ">") ">") with false.
  cbv iota.
  rewrite run_lit.
  change (lit_strip (fi f_gi) (str "?>") (">"%char :: z)) with (@None (text * text)).
  cbv iota.
  change ("?"%char :: ">"%char :: z) with (str "?>" ++ z).
  rewrite run_lit_end. reflexivity.
Qed.

Lemma strip_xml_decl_cuts : forall a b z,
  hits (opens true (str "<?xml")) a (str "<?xml" ++ b ++ str "?>" ++ z) = false ->
  forallb no_gt b = true ->
  occurs true (str "<?xml") z = false ->
  strip_xml_decl (a ++ str "<?xml" ++ b ++ str "?>" ++ z) = a ++ z.
Proof.
  intros a b z Ha Hb Hz. unfold strip_xml_decl.
  replace (a ++ str "<?xml" ++ b ++ str "?>" ++ z)
    with (a ++ (str "<?xml" ++ b ++ str "?>") ++ z)
    by (rewrite <- !app_assoc; reflexivity).
  unfold re_xml_decl at 1. unfold lit at 1.
  apply replace_cuts_block.
  - reflexivity.
  - rewrite <- !app_assoc. exact Ha.
  - intros p. rewrite <- !app_assoc. apply attempt_xml_decl. exact Hb.
  - discriminate.
  - exact Hz.
Qed.

(** The DOCTYPE, in the themed revisions: from the opening to the first [>]. *)
Lemma attempt_doctype : forall b z p,
  forallb no_gt b = true ->
  exists pf c,
    attempt f_gi re_doctype p (str "<!DOCTYPE" ++ b ++ str ">" ++ z) = Some (pf, z, c).
Proof.
  intros b z p Hb. unfold re_doctype, lit. rewrite attempt_seq_lit.
  unfold star, not_gt. rewrite run_seq_greedy.
  eexists. eexists.
  apply (greedy_cls_exact _ _ b _ (str ">" ++ z));
    [apply forallb_no_gt_any; exact Hb | reflexivity |].
  change (run f_gi (Chr ">") ?p0 (str ">" ++ z) ?c0 ?k0) with (k0 (">"%char :: p0) z c0).
  reflexivity.
Qed.

Lemma strip_doctype_cuts : forall a b z,
  hits (opens true (str "<!DOCTYPE")) a (str "<!DOCTYPE" ++ b ++ str ">" ++ z) = false ->
  forallb no_gt b = true ->
  occurs true (str "<!DOCTYPE") z = false ->
  strip_doctype (a ++ str "<!DOCTYPE" ++ b ++ str ">" ++ z) = a ++ z.
Proof.
  intros a b z Ha Hb Hz. unfold strip_doctype.
  replace (a ++ str "<!DOCTYPE" ++ b ++ str ">" ++ z)
    with (a ++ (str "<!DOCTYPE" ++ b ++ str ">") ++ z)
    by (rewrite <- !app_assoc; reflexivity).
  unfold re_doctype at 1. unfold lit at 1.
  apply replace_cuts_block.
  - reflexivity.
  - rewrite <- !app_assoc. exact Ha.
  - intros p. rewrite <- !app_assoc. apply attempt_doctype. exact Hb.
  - discriminate.
  - exact Hz.
Qed.

(** A style or script block: the opening tag up to its [>], then lazily to
    the first closing tag. *)
Lemma attempt_tag_block : forall w e t b z p,
  forallb no_gt t = true ->
  hits (opens true e) b (e ++ z) = false ->
  exists pf c,
    attempt f_gi
      (lit_text w +++ star not_gt +++ Chr ">" +++ lazy_star any_char +++ lit_text e)%re p
      (w ++ t ++ str ">" ++ b ++ e ++ z) = Some (pf, z, c).
Proof.
  intros w e t b z p Ht Hb. rewrite attempt_seq_lit.
  unfold star, not_gt. rewrite run_seq_greedy.
  eexists. eexists.
  apply (greedy_cls_exact _ _ t _ (str ">" ++ b ++ e ++ z));
    [apply forallb_no_gt_any; exact Ht | reflexivity |].
  change (str ">" ++ b ++ e ++ z) with (">"%char :: b ++ e ++ z).
  rewrite run_seq_chr.
  unfold lazy_star, any_char. rewrite run_seq_lazy.
  rewrite (lazy_scan (opens (fi f_gi) e)); [| | apply any_char_all | exact Hb].
  2:{ intros p0 t0 res H. eapply opens_run. exact H. }
  apply lazy_cls_here. rewrite run_lit_end. reflexivity.
Qed.

Lemma strip_style_cuts : forall a t b z,
  hits (opens true (str "<style")) a
    (str "<style" ++ t ++ str ">" ++ b ++ str "</style>" ++ z) = false ->
  forallb no_gt t = true ->
  hits (opens true (str "</style>")) b (str "</style>" ++ z) = false ->
  occurs true (str "<style") z = false ->
  strip_style (a ++ str "<style" ++ t ++ str ">" ++ b ++ str "</style>" ++ z) = a ++ z.
Proof.
  intros a t b z Ha Ht Hb Hz. unfold strip_style.
  replace (a ++ str "<style" ++ t ++ str ">" ++ b ++ str "</style>" ++ z)
    with (a ++ (str "<style" ++ t ++ str ">" ++ b ++ str "</style>") ++ z)
    by (rewrite <- !app_assoc; reflexivity).
  unfold re_style, lit.
  apply replace_cuts_block.
  - reflexivity.
  - rewrite <- !app_assoc. exact Ha.
  - intros p. rewrite <- !app_assoc. apply attempt_tag_block; assumption.
  - discriminate.
  - exact Hz.
Qed.

Lemma strip_script_cuts : forall a t b z,
  hits (opens true (str "<script")) a
    (str "<script" ++ t ++ str ">" ++ b ++ str "</script>" ++ z) = false ->
  forallb no_gt t = true ->
  hits (opens true (str "</script>")) b (str "</script>" ++ z) = false ->
  occurs true (str "<script") z = false ->
  strip_script (a ++ str "<script" ++ t ++ str ">" ++ b ++ str "</script>" ++ z) = a ++ z.
Proof.
  intros a t b z Ha Ht Hb Hz. unfold strip_script.
  replace (a ++ str "<script" ++ t ++ str ">" ++ b ++ str "</script>" ++ z)
    with (a ++ (str "<script" ++ t ++ str ">" ++ b ++ str "</script>") ++ z)
    by (rewrite <- !app_assoc; reflexivity).
  unfold re_script, lit.
  apply replace_cuts_block.
  - reflexivity.
  - rewrite <- !app_assoc. exact Ha.
  - intros p. rewrite <- !app_assoc. apply attempt_tag_block; assumption.
  - discriminate.
  - exact Hz.
Qed.

(** *** The patterns of the generic revision *)

Lemma no_cr_dot_or_nl : forall ci c,
  no_cr c = true ->
  cls_match ci true is_line_terminator c || chr_match ci NLc c = true.
Proof.
  intros ci [b0 b1 b2 b3 b4 b5 b6 b7].
  destruct ci, b0, b1, b2, b3, b4, b5, b6, b7; intros H; try reflexivity; discriminate H.
Qed.

(** A lazy repetition of [(.|\n)] passes a stretch without carriage return
    in which the rest of the pattern fails, and stops where it succeeds. *)
Lemma lazy_loop_block : forall fl (k : cont) b y z,
  (forall b1 b2 p' c', b = b1 ++ b2 -> b2 <> [] -> k p' (b2 ++ y) c' = None) ->
  (forall p' c', exists pf cf, k p' y c' = Some (pf, z, cf)) ->
  forallb no_cr b = true ->
  forall n p c,
    length (b ++ y) <= n ->
    exists pf cf,
      star_loop (run fl dot_or_nl) false k n p (b ++ y) c = Some (pf, z, cf).
Proof.
  intros fl k b y z. induction b as [|a b IH]; intros Hfail Hend Hb n p c Hn.
  - destruct (Hend p c) as (pf & cf & E). exists pf, cf.
    destruct n as [|n]; cbn [star_loop app]; rewrite E; reflexivity.
  - simpl in Hb. apply andb_true_iff in Hb as [Ha Hb].
    assert (IH' : forall n p c, length (b ++ y) <= n -> exists pf cf,
               star_loop (run fl dot_or_nl) false k n p (b ++ y) c = Some (pf, z, cf)).
    { apply IH; [|exact Hend|exact Hb].
      intros b1 b2 p' c' -> Hne. apply (Hfail (a :: b1) b2); [reflexivity|exact Hne]. }
    pose proof (Hfail [] (a :: b) p c eq_refl) as Hk.
    destruct n as [|n]; [simpl in Hn; lia|].
    change ((a :: b) ++ y) with (a :: b ++ y).
    cbn [star_loop]. simpl in Hk. rewrite Hk by discriminate.
    destruct (IH' n (a :: p) ((1, consumed p (a :: p)) :: c)) as (pf & cf & E);
      [simpl in Hn; lia|].
    exists pf, cf.
    remember (star_loop (run fl dot_or_nl) false k n) as loop eqn:Hloop.
    unfold dot_or_nl, dot. cbn [run].
    replace (length (b ++ y) <? length (a :: b ++ y)) with true
      by (symmetry; apply Nat.ltb_lt; simpl; lia).
    rewrite E.
    pose proof (no_cr_dot_or_nl (fi fl) a Ha) as Hq.
    destruct (cls_match (fi fl) true is_line_terminator a); [reflexivity|].
    simpl in Hq. rewrite Hq. reflexivity.
Qed.

(** A block of the generic revision: opening, lazily any characters but
    the carriage return, and the first closing behind. *)
Lemma attempt_generic_block : forall fl w e b z p,
  forallb no_cr b = true ->
  hits (opens (fi fl) e) b (e ++ z) = false ->
  exists pf c,
    attempt fl (lit_text w +++ lazy_star dot_or_nl +++ lit_text e)%re p
      (w ++ b ++ e ++ z) = Some (pf, z, c).
Proof.
  intros fl w e b z p Hb Hhit. rewrite attempt_seq_lit.
  unfold lazy_star.
  change (run fl (Star false dot_or_nl +++ lit_text e)%re ?p0 ?s0 ?c0 ?k0)
    with (star_loop (run fl dot_or_nl) false
            (fun p' s' c' => run fl (lit_text e) p' s' c' k0) (length s0) p0 s0 c0).
  apply lazy_loop_block.
  - intros b1 b2 p' c' E Hne. cbv beta. rewrite run_lit.
    rewrite (opens_false _ _ _ (hits_split _ _ _ Hhit _ _ E Hne)). reflexivity.
  - intros p' c'. cbv beta. rewrite run_lit_end. eexists. eexists. reflexivity.
  - exact Hb.
  - apply Nat.le_refl.
Qed.

Lemma generic_strip_xml_cuts : forall a b z,
  hits (opens false (str "<?xml")) a (str "<?xml" ++ b ++ str "?>" ++ z) = false ->
  forallb no_cr b = true ->
  hits (opens false (str "?>")) b (str "?>" ++ z) = false ->
  occurs false (str "<?xml") z = false ->
  Generic.strip_xml (VString (a ++ str "<?xml" ++ b ++ str "?>" ++ z)) = Normal (a ++ z).
Proof.
  intros a b z Ha Hb Hhit Hz. unfold Generic.strip_xml, method_replace. f_equal.
  replace (a ++ str "<?xml" ++ b ++ str "?>" ++ z)
    with (a ++ (str "<?xml" ++ b ++ str "?>") ++ z)
    by (rewrite <- !app_assoc; reflexivity).
  unfold Generic.re_xml, lit. fold dot_or_nl.
  apply replace_cuts_block.
  - reflexivity.
  - rewrite <- !app_assoc. exact Ha.
  - intros p. rewrite <- !app_assoc. apply attempt_generic_block; assumption.
  - discriminate.
  - exact Hz.
Qed.

Lemma generic_strip_comments_cuts : forall a b z,
  hits (opens false (str "<!--")) a (str "<!--" ++ b ++ str "-->" ++ z) = false ->
  forallb no_cr b = true ->
  hits (opens false (str "-->")) b (str "-->" ++ z) = false ->
  occurs false (str "<!--") z = false ->
  Generic.strip_comments (a ++ str "<!--" ++ b ++ str "-->" ++ z) = a ++ z.
Proof.
  intros a b z Ha Hb Hhit Hz. unfold Generic.strip_comments.
  replace (a ++ str "<!--" ++ b ++ str "-->" ++ z)
    with (a ++ (str "<!--" ++ b ++ str "-->") ++ z)
    by (rewrite <- !app_assoc; reflexivity).
  unfold Generic.re_comment, lit. fold dot_or_nl.
  apply replace_cuts_block.
  - reflexivity.
  - rewrite <- !app_assoc. exact Ha.
  - intros p. rewrite <- !app_assoc. apply attempt_generic_block; assumption.
  - discriminate.
  - exact Hz.
Qed.

Lemma generic_strip_doctype_cuts : forall a b z,
  hits (opens true (str "<!DOCTYPE")) a (str "<!DOCTYPE" ++ b ++ str ">" ++ z) = false ->
  forallb no_cr b = true ->
  hits (opens true (str ">")) b (str ">" ++ z) = false ->
  occurs true (str "<!DOCTYPE") z = false ->
  Generic.strip_doctype (a ++ str "<!DOCTYPE" ++ b ++ str ">" ++ z) = a ++ z.
Proof.
  intros a b z Ha Hb Hhit Hz. unfold Generic.strip_doctype.
  replace (a ++ str "<!DOCTYPE" ++ b ++ str ">" ++ z)
    with (a ++ (str "<!DOCTYPE" ++ b ++ str ">") ++ z)
    by (rewrite <- !app_assoc; reflexivity).
  unfold Generic.re_doctype, lit. fold dot_or_nl.
  change (Chr ">") with (lit_text (str ">")).
  apply replace_cuts_block.
  - reflexivity.
  - rewrite <- !app_assoc. exact Ha.
  - intros p. rewrite <- !app_assoc. apply attempt_generic_block; assumption.
  - discriminate.
  - exact Hz.
Qed.



(** All of it at once, on a file with a prolog. *)
Lemma sanitize_example :
  strip_script (strip_style (sanitize_text svg_with_prolog)) = str "<svg></svg>".
Proof. vm_compute. reflexivity. Qed.

(* ================================================================== *)
(** ** Where captured text comes from *)

Section Provenance.

Variable fl : flags.
Variable Q : ascii -> bool.

Lemma cap_all : forall n c, captures_all Q c -> forallb Q (cap n c) = true.
Proof.
  intros n c H. unfold cap.
  destruct (find (fun e => fst e =? n) c) as [e|] eqn:E; [|reflexivity].
  apply find_some in E as [Hin _].
  unfold captures_all in H. rewrite Forall_forall in H. apply H. exact Hin.
Qed.

(** On a subject whose characters all have the property, so do the
    groups that a run hands to its continuation. *)
Lemma run_provenance : forall r p s c k res,
  forallb Q s = true -> captures_all Q c ->
  run fl r p s c k = Some res ->
  exists u s' c',
    s = u ++ s' /\ captures_all Q c' /\ k (rev u ++ p) s' c' = Some res.
Proof.
  induction r as [|x|neg f|a IHa b IHb|a IHa b IHb|g r IH|n r IH|n| |x];
    intros p s c k res Hs Hc H; cbn [run] in H.
  - exists [], s, c. repeat split; assumption.
  - destruct s as [|a s']; [discriminate|].
    destruct (chr_match (fi fl) x a); [|discriminate].
    exists [a], s', c. repeat split; assumption.
  - destruct s as [|a s']; [discriminate|].
    destruct (cls_match (fi fl) neg f a); [|discriminate].
    exists [a], s', c. repeat split; assumption.
  - apply IHa in H as (u1 & s1 & c1 & -> & Hc1 & H); [|exact Hs|exact Hc].
    apply IHb in H as (u2 & s2 & c2 & -> & Hc2 & H);
      [|apply forallb_app_r in Hs; exact Hs|exact Hc1].
    exists (u1 ++ u2), s2, c2. split; [apply app_assoc|]. split; [exact Hc2|].
    rewrite rev_app_distr, <- app_assoc. exact H.
  - destruct (run fl a p s c k) eqn:E.
    + inversion H; subst. eapply IHa; eassumption.
    + eapply IHb; eassumption.
  - revert H Hs Hc. generalize (length s) as n. intros n; revert p s c res.
    induction n as [|n IHn]; intros p s c res H Hs Hc; cbn [star_loop] in H.
    + exists [], s, c. repeat split; assumption.
    + cbv zeta in H.
      assert (Hmore : forall res',
                 run fl r p s c
                   (fun p' s' c' =>
                      if length s' <? length s
                      then star_loop (run fl r) g k n p' s' c' else None) = Some res' ->
                 exists u s' c',
                   s = u ++ s' /\ captures_all Q c' /\ k (rev u ++ p) s' c' = Some res').
      { intros res' E.
        apply IH in E as (u1 & s1 & c1 & -> & Hc1 & E); [|exact Hs|exact Hc].
        destruct (length s1 <? length (u1 ++ s1)); [|discriminate].
        apply IHn in E as (u2 & s2 & c2 & -> & Hc2 & E);
          [|apply forallb_app_r in Hs; exact Hs|exact Hc1].
        exists (u1 ++ u2), s2, c2. split; [apply app_assoc|]. split; [exact Hc2|].
        rewrite rev_app_distr, <- app_assoc. exact E. }
      destruct g.
      * match type of H with
        | match ?m with _ => _ end = _ => destruct m eqn:E
        end.
        -- inversion H; subst. apply Hmore. exact E.
        -- exists [], s, c. repeat split; assumption.
      * destruct (k p s c) eqn:E.
        -- inversion H; subst. exists [], s, c. repeat split; assumption.
        -- apply Hmore. exact H.
  - apply IH in H as (u & s' & c' & -> & Hc' & H); [|exact Hs|exact Hc].
    exists u, s'. eexists. split; [reflexivity|]. split; [|exact H].
    constructor; [|exact Hc']. cbn [snd]. rewrite consumed_app.
    apply forallb_app_l in Hs. exact Hs.
  - destruct (ref_match (fi fl) (cap n c) p s) as [[p' s']|] eqn:E; [|discriminate].
    apply ref_match_app in E as [u [-> ->]].
    exists u, s', c. repeat split; assumption.
  - destruct p as [|a p'].
    + exists [], s, c. repeat split; assumption.
    + destruct (fm fl && is_line_terminator a); [|discriminate].
      exists [], s, c. repeat split; assumption.
  - destruct p as [|a p'].
    + exists [], s, c. repeat split; assumption.
    + destruct (chr_eqb a x); [discriminate|].
      exists [], s, c. repeat split; assumption.
Qed.

Lemma attempt_provenance : forall r p s pf s' c,
  forallb Q s = true ->
  attempt fl r p s = Some (pf, s', c) -> captures_all Q c.
Proof.
  intros r p s pf s' c Hs H. unfold attempt in H.
  apply run_provenance in H as (u & s1 & c1 & _ & Hc1 & H);
    [|exact Hs|constructor].
  inversion H; subst. exact Hc1.
Qed.

Lemma search_provenance : forall r s p sk pf s' c,
  forallb Q s = true ->
  search fl r p s = Some (sk, (pf, s', c)) -> captures_all Q c.
Proof.
  induction s as [|a s IH]; intros p sk pf s' c Hs H; cbn [search] in H.
  - destruct (attempt fl r p []) as [[[p1 s1] c1]|] eqn:E; [|discriminate].
    inversion H; subst. eapply attempt_provenance; eassumption.
  - destruct (attempt fl r p (a :: s)) as [[[p1 s1] c1]|] eqn:E.
    + inversion H; subst. eapply attempt_provenance; eassumption.
    + destruct (search fl r (a :: p) s) as [[sk2 [[p2 s2] c2]]|] eqn:E2; [|discriminate].
      inversion H; subst. simpl in Hs. apply andb_true_iff in Hs as [_ Hs].
      eapply IH; eassumption.
Qed.

Lemma regex_match_provenance : forall r s c,
  forallb Q s = true -> regex_match fl r s = Some c -> captures_all Q c.
Proof.
  intros r s c Hs H. unfold regex_match in H.
  destruct (search fl r [] s) as [[sk [[pf s'] c']]|] eqn:E; [|discriminate].
  inversion H; subst. eapply search_provenance; eassumption.
Qed.

(** A replacement built from the groups keeps the property. *)
Lemma replace_loop_provenance : forall r f,
  (forall c, captures_all Q c -> forallb Q (f c) = true) ->
  forall n p s, forallb Q s = true -> forallb Q (replace_loop n fl r f p s) = true.
Proof.
  intros r f Hf. induction n as [|n IH]; intros p s Hs; [exact Hs|].
  cbn [replace_loop].
  destruct (search fl r p s) as [[sk [[p1 s1] c]]|] eqn:E; [|exact Hs].
  pose proof (search_provenance _ _ _ _ _ _ _ Hs E) as Hc.
  apply search_sound in E as [E _]. rewrite E in Hs.
  rewrite !forallb_app in Hs.
  apply andb_true_iff in Hs as [Hsk Hs]. apply andb_true_iff in Hs as [_ Hs1].
  rewrite !forallb_app, Hsk, (Hf c Hc). cbn [andb].
  destruct (cap 0 c).
  - destruct s1 as [|a s2]; [reflexivity|].
    simpl in Hs1. apply andb_true_iff in Hs1 as [Ha Hs2].
    simpl. rewrite Ha. apply IH. exact Hs2.
  - apply IH. exact Hs1.
Qed.

Lemma replace_provenance : forall r f s,
  (forall c, captures_all Q c -> forallb Q (f c) = true) ->
  forallb Q s = true -> forallb Q (replace fl r f s) = true.
Proof.
  intros r f s Hf Hs. unfold replace, replace_all. destruct (fg fl).
  - apply replace_loop_provenance; assumption.
  - destruct (search fl r [] s) as [[sk [[p1 s1] c]]|] eqn:E; [|exact Hs].
    pose proof (search_provenance _ _ _ _ _ _ _ Hs E) as Hc.
    apply search_sound in E as [E _]. rewrite E in Hs.
    rewrite !forallb_app in Hs.
    apply andb_true_iff in Hs as [Hsk Hs]. apply andb_true_iff in Hs as [_ Hs1].
    rewrite !forallb_app, Hsk, (Hf c Hc), Hs1. reflexivity.
Qed.

Lemma drop_spaces_forallb : forall s,
  forallb Q s = true -> forallb Q (drop_spaces s) = true.
Proof.
  induction s as [|a s IH]; intros H; [reflexivity|].
  simpl. destruct (is_space a); [|exact H].
  simpl in H. apply andb_true_iff in H as [_ H]. apply IH. exact H.
Qed.

Lemma rev_forallb : forall s, forallb Q s = true -> forallb Q (rev s) = true.
Proof.
  intros s H. rewrite forallb_forall in *. intros x Hx.
  apply H. apply in_rev. exact Hx.
Qed.

Lemma trim_forallb : forall s, forallb Q s = true -> forallb Q (trim s) = true.
Proof.
  intros s H. unfold trim.
  apply rev_forallb, drop_spaces_forallb, rev_forallb, drop_spaces_forallb. exact H.
Qed.

End Provenance.

Lemma ci_no_gt : forall c, cls_match true true (chr_is ">") c = true -> no_gt c = true.
Proof.
  intros c H. unfold no_gt, cls_match, chr_is in *. simpl in *.
  destruct (chr_eqb c ">"); [discriminate H|reflexivity].
Qed.

Lemma search_attempt : forall fl r s p sk res,
  search fl r p s = Some (sk, res) -> exists p' s', attempt fl r p' s' = Some res.
Proof.
  intros fl r. induction s as [|a s IH]; intros p sk res H; cbn [search] in H.
  - destruct (attempt fl r p []) eqn:E; [|discriminate].
    inversion H; subst. eexists. eexists. exact E.
  - destruct (attempt fl r p (a :: s)) eqn:E.
    + inversion H; subst. eexists. eexists. exact E.
    + destruct (search fl r (a :: p) s) as [[sk2 res2]|] eqn:E2; [|discriminate].
      inversion H; subst. eapply IH. exact E2.
Qed.

(** The attribute text that the match of the svg element hands out holds
    no [>]. *)
Lemma svg_attributes_no_gt : forall t m,
  regex_match f_i re_svg t = Some m -> forallb no_gt (cap 1 m) = true.
Proof.
  intros t m H. unfold regex_match in H.
  destruct (search f_i re_svg [] t) as [[sk [[pf s'] c]]|] eqn:E; [|discriminate].
  inversion H; subst. clear H.
  apply search_attempt in E as (p & s & E).
  unfold attempt, re_svg, lit in E.
  change (run f_i (Grp 0 (lit_text (str "<svg") +++ ?r)%re) p s [] ?k0)
    with (run f_i (lit_text (str "<svg")) p s []
            (fun p1 s1 c1 => run f_i r p1 s1 c1
               (fun p' s' c' => k0 p' s' ((0, consumed p p') :: c')))) in E.
  rewrite run_lit in E.
  destruct (lit_strip (fi f_i) (str "<svg") s) as [[w rest]|]; [|discriminate].
  unfold star, not_gt in E. rewrite run_group_greedy in E.
  apply greedy_cls_sound in E as (u & s1 & -> & Hu & E).
  rewrite consumed_app in E.
  change (run f_i (Chr ">" +++ ?r)%re ?p0 s1 ?c0 ?k0)
    with (match s1 with
          | a :: s2 => if chr_match (fi f_i) ">" a then run f_i r (a :: p0) s2 c0 k0 else None
          | [] => None
          end) in E.
  destruct s1 as [|a s2]; [discriminate|].
  destruct (chr_match (fi f_i) ">" a); [|discriminate].
  unfold lazy_star, any_char in E. rewrite run_group_lazy in E.
  apply lazy_cls_sound in E as (u2 & s3 & -> & _ & E).
  rewrite run_lit in E.
  destruct (lit_strip (fi f_i) (str "</svg>") s3) as [[w2 rest2]|]; [|discriminate].
  inversion E; subst. unfold cap. cbn [find fst snd Nat.eqb].
  revert Hu. apply forallb_impl. exact ci_no_gt.
Qed.

Lemma no_gt_upper : forall c, no_gt c = true -> no_gt (to_upper c) = true.
Proof.
  intros [b0 b1 b2 b3 b4 b5 b6 b7].
  destruct b0, b1, b2, b3, b4, b5, b6, b7; intros H; try reflexivity; discriminate H.
Qed.

Lemma capitalize_no_gt : forall b, forallb no_gt b = true -> forallb no_gt (capitalize b) = true.
Proof.
  intros [|c b] H; [reflexivity|]. simpl in *.
  apply andb_true_iff in H as [Hc Hb]. rewrite (no_gt_upper c Hc), Hb. reflexivity.
Qed.

Lemma camel_case_no_gt : forall s, forallb no_gt s = true -> forallb no_gt (camel_case s) = true.
Proof.
  intros s H. unfold camel_case. apply replace_provenance; [|exact H].
  intros c Hc. unfold camel. rewrite !forallb_app.
  rewrite (cap_all no_gt 1 c Hc).
  rewrite (capitalize_no_gt _ (cap_all no_gt 2 c Hc)). reflexivity.
Qed.

Lemma strip_root_attributes_no_gt : forall s,
  forallb no_gt s = true -> forallb no_gt (strip_root_attributes s) = true.
Proof.
  intros s H. unfold strip_root_attributes.
  apply trim_forallb. apply replace_provenance; [reflexivity|].
  apply replace_provenance; [reflexivity|exact H].
Qed.

(** The viewBox of the inline revision holds no [>] either. *)
Lemma dimension_no_gt : forall name s,
  forallb no_gt s = true -> forallb no_gt (Inline.dimension name s) = true.
Proof.
  intros name s H. unfold Inline.dimension.
  destruct (regex_match f_i (Inline.re_dimension name) s) as [m|] eqn:E; [|reflexivity].
  apply cap_all. eapply regex_match_provenance; eassumption.
Qed.

Lemma resolve_viewBox_no_gt : forall s,
  forallb no_gt s = true -> forallb no_gt (Inline.resolve_viewBox s) = true.
Proof.
  intros s H. unfold Inline.resolve_viewBox.
  destruct (regex_match f_i Inline.re_viewBox s) as [m|] eqn:E.
  - apply cap_all. eapply regex_match_provenance; eassumption.
  - rewrite !forallb_app, !dimension_no_gt by exact H. reflexivity.
Qed.



(* ================================================================== *)
(** ** Hyphenated names (claim C7) *)

Lemma alnum_cls_spec : forall c, alnum_cls c = is_alnum c.
Proof. intros c. unfold alnum_cls, cls_match. simpl. apply orb_false_r. Qed.

Lemma forallb_alnum_cls : forall x, forallb is_alnum x = true -> forallb alnum_cls x = true.
Proof. intros x. apply forallb_impl. intros c H. rewrite alnum_cls_spec. exact H. Qed.

Lemma alnum_not_hyphen : forall c, is_alnum c = true -> chr_match false "-" c = false.
Proof.
  intros [b0 b1 b2 b3 b4 b5 b6 b7].
  destruct b0, b1, b2, b3, b4, b5, b6, b7; intros H; try reflexivity; discriminate H.
Qed.

Lemma alnum_not_equals : forall c, is_alnum c = true -> chr_match false "=" c = false.
Proof.
  intros [b0 b1 b2 b3 b4 b5 b6 b7].
  destruct b0, b1, b2, b3, b4, b5, b6, b7; intros H; try reflexivity; discriminate H.
Qed.

Lemma consumed_cons : forall u a p, consumed p (rev u ++ a :: p) = a :: u.
Proof.
  intros u a p.
  replace (rev u ++ a :: p) with (rev (a :: u) ++ p)
    by (simpl; rewrite <- app_assoc; reflexivity).
  apply consumed_app.
Qed.

(** A group around [x+] for a class [x], at a character of the class. *)
Lemma run_group_plus : forall fl n neg f r p a s c k,
  cls_match (fi fl) neg f a = true ->
  run fl (Grp n (plus (Cls neg f)) +++ r)%re p (a :: s) c k =
  greedy_cls (cls_match (fi fl) neg f)
    (fun p' s' => run fl r p' s' ((n, consumed p p') :: c) k) (a :: p) s.
Proof.
  intros fl n neg f r p a s c k H. unfold plus.
  change (run fl (Grp n (Cls neg f +++ Star true (Cls neg f)) +++ r)%re p (a :: s) c k)
    with (if cls_match (fi fl) neg f a
          then run fl (Star true (Cls neg f)) (a :: p) s c
                 (fun p' s' c' => run fl r p' s' ((n, consumed p p') :: c') k)
          else None).
  rewrite H, run_star_greedy. reflexivity.
Qed.

Lemma run_group_plus_none : forall fl n neg f r p s c k,
  match s with [] => true | a :: _ => negb (cls_match (fi fl) neg f a) end = true ->
  run fl (Grp n (plus (Cls neg f)) +++ r)%re p s c k = None.
Proof.
  intros fl n neg f r p s c k H. unfold plus.
  destruct s as [|a s]; [reflexivity|].
  change (run fl (Grp n (Cls neg f +++ Star true (Cls neg f)) +++ r)%re p (a :: s) c k)
    with (if cls_match (fi fl) neg f a
          then run fl (Star true (Cls neg f)) (a :: p) s c
                 (fun p' s' c' => run fl r p' s' ((n, consumed p p') :: c') k)
          else None).
  apply negb_true_iff in H. rewrite H. reflexivity.
Qed.

(** Two segments and the equals sign: the whole is one match. *)
Lemma hyphen_attempt : forall a0 a b0 b p z,
  forallb is_alnum (a0 :: a) = true ->
  forallb is_alnum (b0 :: b) = true ->
  exists pf w,
    attempt f_g re_hyphen p ((a0 :: a) ++ str "-" ++ (b0 :: b) ++ str "=" ++ z) =
    Some (pf, z, [(0, w); (2, b0 :: b); (1, a0 :: a)]).
Proof.
  intros a0 a b0 b p z Ha Hb.
  simpl in Ha, Hb.
  apply andb_true_iff in Ha as [Ha0 Ha]. apply andb_true_iff in Hb as [Hb0 Hb].
  unfold attempt, re_hyphen, alnum.
  change (run f_g (Grp 0 ?r) p ?s [] ?k0)
    with (run f_g r p s [] (fun p' s' c' => k0 p' s' ((0, consumed p p') :: c'))).
  change ((a0 :: a) ++ str "-" ++ (b0 :: b) ++ str "=" ++ z)
    with (a0 :: a ++ "-"%char :: b0 :: b ++ "="%char :: z).
  rewrite run_group_plus by (cbn [fi f_g]; fold (alnum_cls a0); rewrite alnum_cls_spec; exact Ha0).
  eexists. eexists.
  apply greedy_cls_exact; [apply forallb_alnum_cls; exact Ha | reflexivity |].
  rewrite run_seq_chr.
  rewrite run_group_plus by (cbn [fi f_g]; fold (alnum_cls b0); rewrite alnum_cls_spec; exact Hb0).
  apply greedy_cls_exact; [apply forallb_alnum_cls; exact Hb | reflexivity |].
  change (run f_g (Chr "=") ?p0 ("="%char :: z) ?c0 ?k0) with (k0 ("="%char :: p0) z c0).
  cbv beta. rewrite !consumed_cons. reflexivity.
Qed.

Lemma hyphen_attempt_nil : forall p, attempt f_g re_hyphen p [] = None.
Proof. reflexivity. Qed.

(** X20. A name of two segments around one hyphen: the segments are joined
    and the second one is capitalised. *)
Lemma camel_case_pair : forall a b,
  forallb is_alnum a = true -> is_empty a = false ->
  forallb is_alnum b = true -> is_empty b = false ->
  camel_case (a ++ str "-" ++ b ++ str "=") = a ++ capitalize b ++ str "=".
Proof.
  intros [|a0 a] [|b0 b] Ha Hea Hb Heb; try discriminate.
  destruct (hyphen_attempt a0 a b0 b [] [] Ha Hb) as (pf & w & E).
  rewrite app_nil_r in E.
  unfold camel_case, replace. cbn [fg f_g].
  rewrite replace_all_eq, (search_here _ _ _ _ _ E), cap_head.
  pose proof (attempt_sound _ _ _ _ _ _ _ E) as [Hw _].
  rewrite cap_head, app_nil_r in Hw.
  destruct w as [|w0 w]; [discriminate Hw|].
  rewrite replace_all_none by reflexivity.
  unfold camel, cap. cbn [find fst snd Nat.eqb].
  rewrite app_nil_r. reflexivity.
Qed.

(** With a second hyphen in front, no match starts in the first segment. *)
Lemma hyphen_attempt_blocked : forall a b0 b c0 c p,
  forallb is_alnum a = true ->
  forallb is_alnum (b0 :: b) = true ->
  attempt f_g re_hyphen p
    (a ++ str "-" ++ (b0 :: b) ++ str "-" ++ (c0 :: c) ++ str "=") = None.
Proof.
  intros a b0 b c0 c p Ha Hb.
  simpl in Hb. apply andb_true_iff in Hb as [Hb0 Hb].
  unfold attempt, re_hyphen, alnum.
  change (run f_g (Grp 0 ?r) p ?s [] ?k0)
    with (run f_g r p s [] (fun p' s' c' => k0 p' s' ((0, consumed p p') :: c'))).
  destruct a as [|a0 a].
  - apply run_group_plus_none. reflexivity.
  - simpl in Ha. apply andb_true_iff in Ha as [Ha0 Ha].
    change ((a0 :: a) ++ str "-" ++ (b0 :: b) ++ str "-" ++ (c0 :: c) ++ str "=")
      with (a0 :: a ++ "-"%char :: b0 :: b ++ "-"%char :: (c0 :: c) ++ str "=").
    rewrite run_group_plus
      by (cbn [fi f_g]; fold (alnum_cls a0); rewrite alnum_cls_spec; exact Ha0).
    apply greedy_cls_none_app.
    + intros u1 [|y u2] E Hne; [contradiction|].
      assert (Hy : is_alnum y = true).
      { rewrite E in Ha. apply forallb_app_r in Ha. simpl in Ha.
        apply andb_true_iff in Ha as [Hy _]. exact Hy. }
      change (run f_g (Chr "-" +++ ?r)%re ?p0 ((y :: u2) ++ ?s0) ?c1 ?k0)
        with (if chr_match (fi f_g) "-" y
              then run f_g r (y :: p0) (u2 ++ s0) c1 k0 else None).
      cbn [fi f_g]. rewrite (alnum_not_hyphen y Hy). reflexivity.
    + rewrite greedy_cls_stop by reflexivity.
      rewrite run_seq_chr.
      rewrite run_group_plus
        by (cbn [fi f_g]; fold (alnum_cls b0); rewrite alnum_cls_spec; exact Hb0).
      apply greedy_cls_none_app.
      * intros u1 [|y u2] E Hne; [contradiction|].
        assert (Hy : is_alnum y = true).
        { rewrite E in Hb. apply forallb_app_r in Hb. simpl in Hb.
          apply andb_true_iff in Hb as [Hy _]. exact Hy. }
        change (run f_g (Chr "=") ?p0 ((y :: u2) ++ ?s0) ?c1 ?k0)
          with (if chr_match (fi f_g) "=" y then k0 (y :: p0) (u2 ++ s0) c1 else None).
        cbn [fi f_g]. rewrite (alnum_not_equals y Hy). reflexivity.
      * rewrite greedy_cls_stop by reflexivity. reflexivity.
Qed.

(** X21. A name of three segments around two hyphens: one pass joins the
    last two segments only, and the first hyphen stays. *)
Lemma camel_case_two_hyphens : forall a b c,
  forallb is_alnum a = true ->
  forallb is_alnum b = true -> is_empty b = false ->
  forallb is_alnum c = true -> is_empty c = false ->
  camel_case (a ++ str "-" ++ b ++ str "-" ++ c ++ str "=") =
  a ++ str "-" ++ b ++ capitalize c ++ str "=".
Proof.
  intros a [|b0 b] [|c0 c] Ha Hb Heb Hc Hec; try discriminate.
  destruct (hyphen_attempt b0 b c0 c (rev (a ++ str "-") ++ []) [] Hb Hc) as (pf & w & E).
  rewrite (app_nil_r (str "=")) in E.
  unfold camel_case, replace. cbn [fg f_g].
  rewrite replace_all_eq.
  replace (a ++ str "-" ++ (b0 :: b) ++ str "-" ++ (c0 :: c) ++ str "=")
    with ((a ++ str "-") ++ (b0 :: b) ++ str "-" ++ (c0 :: c) ++ str "=")
    by (rewrite <- !app_assoc; reflexivity).
  rewrite search_skip.
  - rewrite (search_here _ _ _ _ _ E), cap_head.
    pose proof (attempt_sound _ _ _ _ _ _ _ E) as [Hw _].
    rewrite cap_head, app_nil_r in Hw.
    destruct w as [|w0 w]; [discriminate Hw|].
    rewrite replace_all_none by reflexivity.
    unfold camel, cap. cbn [find fst snd Nat.eqb].
    rewrite app_nil_r, <- !app_assoc. reflexivity.
  - intros u1 u2 Eu Hne.
    assert (Hu : exists a2, u2 = a2 ++ str "-" /\ forallb is_alnum a2 = true).
    { apply app_eq_app in Eu as [l [[E1 E2]|[E1 E2]]].
      - exists l. split; [exact E2|]. rewrite E1 in Ha. apply forallb_app_r in Ha. exact Ha.
      - destruct l as [|x l].
        + exists []. simpl in E2. split; [symmetry; exact E2|reflexivity].
        + simpl in E2. injection E2 as _ E2.
          destruct l; [|discriminate E2]. simpl in E2. subst u2. contradiction. }
    destruct Hu as (a2 & -> & Ha2).
    rewrite <- app_assoc. apply hyphen_attempt_blocked; assumption.
Qed.

(* ================================================================== *)
(** ** The highlighter *)

Lemma replace_all_skip : forall fl r f p a s,
  attempt fl r p (a :: s) = None ->
  replace_all fl r f p (a :: s) = a :: replace_all fl r f (a :: p) s.
Proof.
  intros fl r f p a s H.
  rewrite (replace_all_eq fl r f p (a :: s)), (replace_all_eq fl r f (a :: p) s).
  cbn [search]. rewrite H.
  destruct (search fl r (a :: p) s) as [[sk [[p1 s1] c]]|]; reflexivity.
Qed.

(** Under flag g a one-character pattern with a constant replacement is a
    substitution. *)
Lemma replace_chr : forall x w s,
  replace f_g (Chr x) (fun _ => w) s = substitute x w s.
Proof.
  intros x w s. unfold replace. cbn [fg f_g].
  generalize (@nil ascii) as p.
  induction s as [|a s IH]; intros p; [reflexivity|].
  unfold substitute. cbn [flat_map]. fold (substitute x w s).
  destruct (chr_eqb x a) eqn:E.
  - rewrite replace_all_eq.
    assert (Hs : search f_g (Chr x) p (a :: s) = Some ([], (a :: p, s, [(0, [a])]))).
    { apply search_here. unfold attempt. cbn [run fi f_g]. unfold chr_match. rewrite E.
      cbn [orb]. rewrite (consumed_cons [] a p : consumed p (a :: p) = [a]). reflexivity. }
    rewrite Hs, cap_head. cbn [app]. rewrite IH. reflexivity.
  - rewrite replace_all_skip.
    + rewrite IH. reflexivity.
    + unfold attempt. cbn [run fi f_g]. unfold chr_match. rewrite E. reflexivity.
Qed.

Lemma substitute_forallb : forall (Q : ascii -> bool) x w s,
  forallb Q w = true ->
  forallb (fun a => chr_eqb x a || Q a) s = true ->
  forallb Q (substitute x w s) = true.
Proof.
  intros Q x w s Hw. induction s as [|a s IH]; intros H; [reflexivity|].
  cbn [forallb] in H. apply andb_true_iff in H as [Ha Hs].
  unfold substitute. cbn [flat_map]. fold (substitute x w s).
  rewrite forallb_app, (IH Hs), andb_true_r.
  destruct (chr_eqb x a); [exact Hw|]. cbn [forallb]. cbn [orb] in Ha. rewrite Ha. reflexivity.
Qed.

Lemma substitute_id : forall x w s,
  forallb (fun a => negb (chr_eqb x a)) s = true -> substitute x w s = s.
Proof.
  intros x w s. induction s as [|a s IH]; intros H; [reflexivity|].
  cbn [forallb] in H. apply andb_true_iff in H as [Ha Hs].
  unfold substitute. cbn [flat_map]. fold (substitute x w s).
  rewrite (IH Hs). destruct (chr_eqb x a); [discriminate Ha|reflexivity].
Qed.

(** A match of a pattern that needs a character holds that character. *)
Lemma run_needs : forall fl x r p s c k res,
  needs x r = true ->
  run fl r p s c k = Some res ->
  exists u s' c',
    s = u ++ s' /\ existsb (chr_match (fi fl) x) u = true /\
    k (rev u ++ p) s' c' = Some res.
Proof.
  intros fl x r. induction r as [|y|neg g|a IHa b IHb|a IHa b IHb|gr r IH|n r IH|n| |y];
    intros p s c k res N H; cbn [needs] in N; try discriminate N.
  - cbn [run] in H. destruct s as [|a s]; [discriminate H|].
    destruct (chr_match (fi fl) y a) eqn:E; [|discriminate H].
    apply chr_eqb_eq in N. subst y.
    exists [a], s, c. cbn [existsb]. rewrite E. repeat split. exact H.
  - cbn [run] in H. apply orb_true_iff in N as [N|N].
    + destruct (IHa _ _ _ _ _ N H) as (u1 & s1 & c1 & -> & E1 & H1).
      destruct (run_inv _ _ _ _ _ _ _ H1) as (u2 & s2 & c2 & -> & H2).
      exists (u1 ++ u2), s2, c2. rewrite existsb_app, E1, rev_app_distr, <- !app_assoc.
      repeat split. exact H2.
    + destruct (run_inv _ _ _ _ _ _ _ H) as (u1 & s1 & c1 & -> & H1).
      destruct (IHb _ _ _ _ _ N H1) as (u2 & s2 & c2 & -> & E2 & H2).
      exists (u1 ++ u2), s2, c2. rewrite existsb_app, E2, orb_true_r, rev_app_distr, <- !app_assoc.
      repeat split. exact H2.
  - cbn [run] in H. apply andb_true_iff in N as [Na Nb].
    destruct (run fl a p s c k) eqn:E.
    + inversion H; subst. exact (IHa _ _ _ _ _ Na E).
    + exact (IHb _ _ _ _ _ Nb H).
  - cbn [run] in H.
    destruct (IH _ _ _ _ _ N H) as (u & s' & c' & -> & E & H').
    exists u, s', ((n, consumed p (rev u ++ p)) :: c'). repeat split; assumption.
Qed.

Lemma existsb_forallb_false : forall (f : ascii -> bool) u s',
  forallb (fun a => negb (f a)) (u ++ s') = true -> existsb f u = false.
Proof.
  intros f u s'. induction u as [|a u IH]; intros H; [reflexivity|].
  cbn [app forallb] in H. apply andb_true_iff in H as [Ha Hs].
  cbn [existsb]. rewrite (IH Hs). destruct (f a); [discriminate Ha|reflexivity].
Qed.

Lemma search_needs : forall fl x r s p,
  needs x r = true ->
  forallb (fun a => negb (chr_match (fi fl) x a)) s = true ->
  search fl r p s = None.
Proof.
  intros fl x r s p N H. apply search_none. intros s1 s2 ->.
  destruct (attempt fl r (rev s1 ++ p) s2) as [res|] eqn:E; [|reflexivity].
  unfold attempt in E.
  destruct (run_needs fl x (Grp 0 r) _ _ _ _ _ N E) as (u & s' & c' & -> & Eu & _).
  apply forallb_app_r in H.
  rewrite (existsb_forallb_false _ _ _ H) in Eu. discriminate Eu.
Qed.

Lemma replace_needs : forall fl x r f s,
  needs x r = true ->
  forallb (fun a => negb (chr_match (fi fl) x a)) s = true ->
  replace fl r f s = s.
Proof.
  intros fl x r f s N H. unfold replace.
  destruct (fg fl).
  - apply replace_all_none. apply (search_needs fl x); assumption.
  - rewrite (search_needs fl x r s [] N H). reflexivity.
Qed.

Lemma bracket_cases : forall a,
  chr_eqb "<" a || (chr_eqb ">" a || no_bracket a) = true.
Proof.
  intros a. unfold no_bracket. rewrite (chr_eqb_sym a "<"), (chr_eqb_sym a ">").
  destruct (chr_eqb "<" a), (chr_eqb ">" a); reflexivity.
Qed.

Lemma inert_spec : forall c,
  inert c = true ->
  chr_eqb "<" c = false /\ chr_eqb ">" c = false /\ chr_eqb "&" c = false /\
  chr_eqb "=" c = false /\ chr_eqb "/" c = false.
Proof.
  intros c H. unfold inert, no_bracket in H.
  rewrite (chr_eqb_sym "<" c), (chr_eqb_sym ">" c), (chr_eqb_sym "&" c),
    (chr_eqb_sym "=" c), (chr_eqb_sym "/" c).
  destruct (chr_eqb c "<"), (chr_eqb c ">"), (chr_eqb c "&"), (chr_eqb c "="),
    (chr_eqb c "/"); try discriminate H; repeat split.
Qed.

Lemma inert_free : forall x code,
  (forall c, inert c = true -> chr_eqb x c = false) ->
  forallb inert code = true ->
  forallb (fun a => negb (chr_match false x a)) code = true.
Proof.
  intros x code Hx H. apply forallb_forall. intros a Ha.
  rewrite forallb_forall in H. unfold chr_match. cbn [andb]. rewrite orb_false_r.
  rewrite (Hx a (H a Ha)). reflexivity.
Qed.

Lemma inert_free_eqb : forall x code,
  (forall c, inert c = true -> chr_eqb x c = false) ->
  forallb inert code = true ->
  forallb (fun a => negb (chr_eqb x a)) code = true.
Proof.
  intros x code Hx H. apply forallb_forall. intros a Ha.
  rewrite forallb_forall in H. rewrite (Hx a (H a Ha)). reflexivity.
Qed.

(** X1. For every language but html the highlighter is the substitution of
    the two angle brackets by their entities, and its result holds no
    angle bracket at all. *)
Theorem highlight_escapes : forall code language,
  text_eqb language (str "html") = false ->
  Highlight.highlight code language =
    substitute ">" (str "&gt;") (substitute "<" (str "&lt;") code)
  /\ forallb no_bracket (Highlight.highlight code language) = true.
Proof.
  intros code language H. unfold Highlight.highlight. rewrite H.
  unfold Highlight.escape_gt, Highlight.escape_lt. rewrite !replace_chr.
  split; [reflexivity|].
  apply substitute_forallb; [reflexivity|].
  apply (substitute_forallb (fun a => chr_eqb ">" a || no_bracket a)); [reflexivity|].
  apply forallb_forall. intros a _. apply bracket_cases.
Qed.

Lemma highlight_escapes_witness :
  text_eqb (str "jsx") (str "html") = false /\
  Highlight.highlight (str "<Svg>") (str "jsx") =
    substitute ">" (str "&gt;") (substitute "<" (str "&lt;") (str "<Svg>"))
  /\ forallb no_bracket (Highlight.highlight (str "<Svg>") (str "jsx")) = true.
Proof. split; [reflexivity|]. apply (highlight_escapes (str "<Svg>") (str "jsx")). reflexivity. Defined.

(** X2. A text without angle brackets, ampersands, equals signs and slashes
    is returned as it is, whatever the language. *)
Theorem highlight_plain : forall code language,
  forallb inert code = true -> Highlight.highlight code language = code.
Proof.
  intros code language H.
  assert (E : Highlight.escape_gt (Highlight.escape_lt code) = code).
  { unfold Highlight.escape_gt, Highlight.escape_lt. rewrite !replace_chr.
    rewrite (substitute_id "<"), (substitute_id ">"); [reflexivity| |];
      apply inert_free_eqb; try exact H; intros c Hc; apply inert_spec in Hc; tauto. }
  unfold Highlight.highlight, Highlight.syntaxHighlight. rewrite E.
  destruct (text_eqb language (str "html")); [|reflexivity].
  unfold Highlight.mark_tags, Highlight.mark_attributes, Highlight.mark_comments.
  rewrite (replace_needs f_g "&" Highlight.re_tag),
    (replace_needs f_g "=" Highlight.re_attribute),
    (replace_needs f_g "/" Highlight.re_comment);
    try reflexivity;
    apply inert_free; try exact H; intros c Hc; apply inert_spec in Hc; tauto.
Qed.

Lemma highlight_plain_witness :
  forallb inert (str "M0 0h10v10H0z") = true /\
  Highlight.highlight (str "M0 0h10v10H0z") (str "html") = str "M0 0h10v10H0z".
Proof.
  split; [reflexivity|]. apply (highlight_plain (str "M0 0h10v10H0z") (str "html")). reflexivity.
Defined.

(* ================================================================== *)
(** ** The handlers of the editors *)


Lemma inline_returns_cases : forall a s,
  Inline.returns (VString (a :: s)) = NoSvg \/
  exists viewBox content,
    Inline.returns (VString (a :: s)) = Generated (Inline.jsx viewBox content).
Proof.
  intros a s. unfold Inline.returns. cbn [truthy is_empty negb is_string orb].
  unfold Inline.body, sanitize, method_replace, bind.
  destruct (regex_match f_i re_svg _).
  - right. eexists. eexists. reflexivity.
  - left. reflexivity.
Qed.

Lemma themed_returns_cases : forall a s,
  Themed.returns (VString (a :: s)) = NoSvg \/
  exists attributes content,
    Themed.returns (VString (a :: s)) = Generated (Themed.component attributes content).
Proof.
  intros a s. unfold Themed.returns. cbn [truthy is_empty negb is_string orb].
  unfold Themed.body, sanitize, method_replace, bind.
  destruct (regex_match f_i re_svg _).
  - right. eexists. eexists. reflexivity.
  - left. reflexivity.
Qed.

Lemma inline_jsx_is_no_error : forall viewBox content,
  is_error_comment (Inline.jsx viewBox content) = false /\
  is_empty (Inline.jsx viewBox content) = false /\
  starts_with (str "// Error") (Inline.jsx viewBox content) = false.
Proof. intros viewBox content. repeat split. Qed.

Lemma themed_component_is_no_error : forall attributes content,
  is_error_comment (Themed.component attributes content) = false /\
  is_empty (Themed.component attributes content) = false /\
  starts_with (str "// Error") (Themed.component attributes content) = false.
Proof. intros attributes content. repeat split. Qed.

(** X4. [convertAndFormat] of the inline revision on a non-empty input:
    the output is what the converter returned, a generated source leaves
    no error, and a failure shows the text of its comment. The only errors
    it can show are the two below. *)
Theorem inline_convert_state : forall st,
  truthy (debouncedInput st) = true ->
  converted (InlineApp.convertAndFormat st) = Inline.svgToReactNative (debouncedInput st)
  /\ formattingError (InlineApp.convertAndFormat st) = None
  /\ match Inline.returns (debouncedInput st) with
     | Generated _ => error (InlineApp.convertAndFormat st) = None
     | InvalidInput =>
         error (InlineApp.convertAndFormat st) = Some (str "Invalid SVG input")
     | NoSvg =>
         error (InlineApp.convertAndFormat st) = Some (str "No valid SVG content found")
     | Caught _ => False
     end.
Proof.
  intros [v conv err ferr copy] H. cbn [debouncedInput] in *.
  unfold InlineApp.convertAndFormat. cbn [debouncedInput]. rewrite H.
  cbn [setError setFormattingError debouncedInput converted error formattingError copySuccess].
  unfold Inline.svgToReactNative.
  destruct v as [| |b|s]; try discriminate H.
  - destruct b; [|discriminate H]. repeat split.
  - destruct s as [|a s]; [discriminate H|].
    destruct (inline_returns_cases a s) as [->|(viewBox & content & ->)].
    + repeat split.
    + cbn [exit_text].
      destruct (inline_jsx_is_no_error viewBox content) as (-> & _ & _).
      repeat split.
Qed.

Lemma inline_convert_state_witness :
  truthy (VString svg_fragment) = true /\
  converted (InlineApp.convertAndFormat (Editor (VString svg_fragment) [] None None [])) =
    str "// No valid SVG content found" /\
  error (InlineApp.convertAndFormat (Editor (VString svg_fragment) [] None None [])) =
    Some (str "No valid SVG content found").
Proof.
  pose proof (inline_convert_state (Editor (VString svg_fragment) [] None None [])
                (eq_refl : truthy (VString svg_fragment) = true)) as (Hc & _ & He).
  split; [reflexivity|]. split; [exact Hc|exact He].
Defined.

(** X5. After [convertAndFormat] the copy button writes the output to the
    clipboard whenever the input was not empty, also when the output is a
    failure comment; after an empty input there is nothing to copy. *)
Theorem inline_copy_after_convert : forall st,
  fst (handleCopy (InlineApp.convertAndFormat st)) =
  if truthy (debouncedInput st)
  then WriteText (Inline.svgToReactNative (debouncedInput st))
  else NoRequest.
Proof.
  intros [v conv err ferr copy]. cbn [debouncedInput].
  unfold InlineApp.convertAndFormat. cbn [debouncedInput].
  destruct (truthy v) eqn:H; [|reflexivity].
  cbn [setError setFormattingError debouncedInput converted error formattingError copySuccess].
  unfold Inline.svgToReactNative.
  destruct v as [| |b|s]; try discriminate H.
  - destruct b; [|discriminate H]. reflexivity.
  - destruct s as [|a s]; [discriminate H|].
    destruct (inline_returns_cases a s) as [->|(viewBox & content & ->)].
    + reflexivity.
    + cbn [exit_text].
      destruct (inline_jsx_is_no_error viewBox content) as (E1 & E2 & E3).
      rewrite E1. cbn [try_catch]. unfold handleCopy.
      cbn [setConverted setFormattingError converted]. rewrite E2, E3. reflexivity.
Qed.




(* ================================================================== *)
(** ** The first svg block of the typed text *)

(** A lazy repetition stops at the first place where the rest matches. *)
Lemma lazy_cls_min : forall (P : ascii -> bool) (k : text -> text -> option outcome) s p res,
  lazy_cls P k p s = Some res ->
  exists u s',
    s = u ++ s' /\ forallb P u = true /\ k (rev u ++ p) s' = Some res /\
    (forall u1 u2, u = u1 ++ u2 -> u2 <> [] -> k (rev u1 ++ p) (u2 ++ s') = None).
Proof.
  intros P k. induction s as [|a s IH]; intros p res H; simpl in H.
  - destruct (k p []) eqn:E; [|discriminate].
    inversion H; subst. exists [], []. repeat split; [exact E|].
    intros u1 u2 E2 Hn. destruct u1, u2; try discriminate E2. contradiction.
  - destruct (k p (a :: s)) eqn:E.
    + inversion H; subst. exists [], (a :: s). repeat split; [exact E|].
      intros u1 u2 E2 Hn. destruct u1, u2; try discriminate E2. contradiction.
    + destruct (P a) eqn:Pa; [|discriminate].
      apply IH in H as (u & s' & -> & Hu & Hk & Hmin).
      exists (a :: u), s'. simpl. rewrite Pa, Hu, <- app_assoc. repeat split; [exact Hk|].
      intros u1 u2 E2 Hn. destruct u1 as [|b u1].
      * simpl in E2. subst u2. simpl. exact E.
      * simpl in E2. inversion E2; subst. simpl. rewrite <- app_assoc. simpl.
        apply Hmin; [reflexivity|exact Hn].
Qed.

Lemma lit_strip_rest : forall ci w s m rest,
  lit_strip ci w s = Some (m, rest) ->
  forall rest', lit_strip ci w (m ++ rest') = Some (m, rest').
Proof.
  induction w as [|x w IH]; intros s m rest H rest'; simpl in H.
  - inversion H; subst. reflexivity.
  - destruct s as [|a s]; [discriminate|].
    destruct (chr_match ci x a) eqn:E; [|discriminate].
    destruct (lit_strip ci w s) as [[m' r']|] eqn:E2; [|discriminate].
    inversion H; subst. simpl. rewrite E, (IH _ _ _ E2). reflexivity.
Qed.

Lemma lit_strip_more : forall ci w t m r y,
  lit_strip ci w t = Some (m, r) -> lit_strip ci w (t ++ y) = Some (m, r ++ y).
Proof.
  induction w as [|x w IH]; intros t m r y H; simpl in H.
  - inversion H; subst. reflexivity.
  - destruct t as [|a t]; [discriminate|].
    destruct (chr_match ci x a) eqn:E; [|discriminate].
    destruct (lit_strip ci w t) as [[m' r']|] eqn:E2; [|discriminate].
    inversion H; subst. simpl. rewrite E, (IH _ _ _ _ E2). reflexivity.
Qed.

Lemma chr_match_upper : forall x a,
  chr_match true x a = true -> to_upper a = to_upper x.
Proof.
  intros x a H. unfold chr_match in H. cbn [andb] in H.
  apply orb_true_iff in H as [H|H]; apply chr_eqb_eq in H; congruence.
Qed.

Lemma lit_strip_upper : forall w s m rest,
  lit_strip true w s = Some (m, rest) -> map to_upper m = map to_upper w.
Proof.
  induction w as [|x w IH]; intros s m rest H; simpl in H.
  - inversion H; subst. reflexivity.
  - destruct s as [|a s]; [discriminate|].
    destruct (chr_match true x a) eqn:E; [|discriminate].
    destruct (lit_strip true w s) as [[m' r']|] eqn:E2; [|discriminate].
    inversion H; subst. simpl. rewrite (chr_match_upper _ _ E), (IH _ _ _ E2). reflexivity.
Qed.

Lemma opens_less : forall ci e t y,
  opens ci e (t ++ y) = false -> opens ci e t = false.
Proof.
  intros ci e t y H. unfold opens in *.
  destruct (lit_strip ci e t) as [[m r]|] eqn:E; [|reflexivity].
  rewrite (lit_strip_more _ _ _ _ _ y E) in H. discriminate H.
Qed.

Lemma hits_less : forall ci e b z y,
  hits (opens ci e) b (z ++ y) = false -> hits (opens ci e) b z = false.
Proof.
  intros ci e b z y. induction b as [|c b IH]; intros H; [reflexivity|].
  simpl in H. apply orb_false_iff in H as [H1 H2].
  simpl. rewrite (IH H2), orb_false_r.
  apply (opens_less ci e _ y). simpl. rewrite <- app_assoc. exact H1.
Qed.

Lemma hits_intro : forall (hit : text -> bool) x y,
  (forall x1 x2, x = x1 ++ x2 -> x2 <> [] -> hit (x2 ++ y) = false) ->
  hits hit x y = false.
Proof.
  intros hit x y. induction x as [|a x IH]; intros H; [reflexivity|].
  assert (H0 : hit ((a :: x) ++ y) = false) by (apply (H []); [reflexivity|discriminate]).
  simpl in *. rewrite H0. simpl.
  apply IH. intros x1 x2 -> Hn. apply (H (a :: x1) x2); [reflexivity|exact Hn].
Qed.

Lemma opens_true : forall ci w t m r, lit_strip ci w t = Some (m, r) -> opens ci w t = true.
Proof. intros ci w t m r H. unfold opens. rewrite H. reflexivity. Qed.

(** What a match of an opening, anything, and the first closing is made of. *)
Lemma block_attempt_sound : forall fl w e p s pf s' c,
  attempt fl (lit_text w +++ lazy_star any_char +++ lit_text e)%re p s = Some (pf, s', c) ->
  exists a b z,
    s = a ++ b ++ z ++ s' /\ c = [(0, a ++ b ++ z)] /\
    lit_strip (fi fl) w s = Some (a, b ++ z ++ s') /\
    lit_strip (fi fl) e (z ++ s') = Some (z, s') /\
    hits (opens (fi fl) e) b (z ++ s') = false.
Proof.
  intros fl w e p s pf s' c H. unfold attempt in H. cbn [run] in H.
  rewrite run_lit in H.
  destruct (lit_strip (fi fl) w s) as [[a rest]|] eqn:Ew; [|discriminate H].
  destruct (lit_strip_app _ _ _ _ _ Ew) as [-> _].
  unfold lazy_star, any_char in H.
  change (run fl (Star false (Cls false (fun c0 => is_space c0 || negb (is_space c0))))
            (rev a ++ p) rest []
            (fun p' s'0 c' => run fl (lit_text e) p' s'0 c'
               (fun p'0 s'1 c'0 => Some (p'0, s'1, (0, consumed p p'0) :: c'0))))
    with (run fl (Star false (Cls false (fun c0 => is_space c0 || negb (is_space c0)))
                  +++ lit_text e)%re (rev a ++ p) rest []
            (fun p'0 s'1 c'0 => Some (p'0, s'1, (0, consumed p p'0) :: c'0))) in H.
  rewrite run_seq_lazy in H.
  apply lazy_cls_min in H as (b & t & -> & _ & Hk & Hmin).
  rewrite run_lit in Hk.
  destruct (lit_strip (fi fl) e t) as [[z r]|] eqn:Ee; [|discriminate Hk].
  destruct (lit_strip_app _ _ _ _ _ Ee) as [-> _].
  inversion Hk; subst.
  exists a, b, z. split; [reflexivity|]. split; [|split; [reflexivity|split; [exact Ee|]]].
  - replace (rev z ++ rev b ++ rev a ++ p) with (rev (a ++ b ++ z) ++ p)
      by (rewrite !rev_app_distr, <- !app_assoc; reflexivity).
    rewrite consumed_app. reflexivity.
  - apply hits_intro. intros b1 b2 -> Hn.
    specialize (Hmin b1 b2 eq_refl Hn). rewrite run_lit in Hmin.
    unfold opens. destruct (lit_strip (fi fl) e (b2 ++ z ++ s')) as [[m r]|]; [discriminate Hmin|reflexivity].
Qed.

Lemma block_attempt : forall fl w e a b z y p,
  lit_strip (fi fl) w (a ++ b ++ z ++ y) = Some (a, b ++ z ++ y) ->
  lit_strip (fi fl) e (z ++ y) = Some (z, y) ->
  hits (opens (fi fl) e) b (z ++ y) = false ->
  attempt fl (lit_text w +++ lazy_star any_char +++ lit_text e)%re p (a ++ b ++ z ++ y) =
  Some (rev (a ++ b ++ z) ++ p, y, [(0, a ++ b ++ z)]).
Proof.
  intros fl w e a b z y p Hw He Hb. unfold attempt. cbn [run].
  rewrite run_lit, Hw.
  unfold lazy_star, any_char.
  change (run fl (Star false (Cls false (fun c0 => is_space c0 || negb (is_space c0))))
            (rev a ++ p) (b ++ z ++ y) []
            (fun p' s'0 c' => run fl (lit_text e) p' s'0 c'
               (fun p'0 s'1 c'0 => Some (p'0, s'1, (0, consumed p p'0) :: c'0))))
    with (run fl (Star false (Cls false (fun c0 => is_space c0 || negb (is_space c0)))
                  +++ lit_text e)%re (rev a ++ p) (b ++ z ++ y) []
            (fun p'0 s'1 c'0 => Some (p'0, s'1, (0, consumed p p'0) :: c'0))).
  rewrite run_seq_lazy.
  rewrite (lazy_scan (opens (fi fl) e)); [| | apply any_char_all | exact Hb].
  2:{ intros p0 t res H. eapply opens_run. exact H. }
  apply lazy_cls_here. rewrite run_lit, He.
  replace (rev z ++ rev b ++ rev a ++ p) with (rev (a ++ b ++ z) ++ p)
    by (rewrite !rev_app_distr, <- !app_assoc; reflexivity).
  rewrite consumed_app. reflexivity.
Qed.

(** X8. What the editor of the generic revision keeps of the typed text:
    nothing, or a part of it that runs from an opening of the svg element
    to the first closing tag behind it, both in any letter case. *)
Theorem onValueChange_block : forall value,
  Generic.onValueChange value = [] \/
  exists before a b z behind,
    value = before ++ a ++ b ++ z ++ behind /\
    Generic.onValueChange value = a ++ b ++ z /\
    map to_upper a = str "<SVG" /\
    map to_upper z = str "</SVG>" /\
    hits (opens true (str "</svg>")) b (z ++ behind) = false.
Proof.
  intros value. unfold Generic.onValueChange, regex_match.
  destruct (search f_i _ [] value) as [[sk [[pf s'] c]]|] eqn:E; [|left; reflexivity].
  right.
  destruct (search_sound _ _ _ _ _ _ _ _ E) as [Hv _].
  destruct (search_attempt _ _ _ _ _ _ E) as (p' & t & Ha).
  unfold lit in Ha.
  destruct (block_attempt_sound _ _ _ _ _ _ _ _ Ha) as (a & b & z & -> & -> & Hw & He & Hb).
  rewrite cap_head in *. exists sk, a, b, z, s'.
  split; [|split; [reflexivity|split; [|split]]].
  - rewrite Hv, <- !app_assoc. reflexivity.
  - exact (lit_strip_upper _ _ _ _ Hw).
  - exact (lit_strip_upper _ _ _ _ He).
  - exact Hb.
Qed.

(** X9. Keeping the first svg block is idempotent: the editor's callback
    returns its own result unchanged. *)
Theorem onValueChange_idempotent : forall value,
  Generic.onValueChange (Generic.onValueChange value) = Generic.onValueChange value.
Proof.
  intros value. unfold Generic.onValueChange at 2 3. unfold regex_match.
  destruct (search f_i _ [] value) as [[sk [[pf s'] c]]|] eqn:E; [|reflexivity].
  destruct (search_attempt _ _ _ _ _ _ E) as (p' & t & Ha).
  unfold lit in Ha.
  destruct (block_attempt_sound _ _ _ _ _ _ _ _ Ha) as (a & b & z & -> & -> & Hw & He & Hb).
  rewrite cap_head.
  unfold Generic.onValueChange, regex_match, lit.
  assert (Hat : attempt f_i (lit_text (str "<svg") +++ lazy_star any_char +++ lit_text (str "</svg>"))%re
                  [] (a ++ b ++ z ++ []) =
                Some (rev (a ++ b ++ z) ++ [], [], [(0, a ++ b ++ z)])).
  { apply block_attempt.
    - exact (lit_strip_rest _ _ _ _ _ Hw _).
    - exact (lit_strip_rest _ _ _ _ _ He _).
    - rewrite app_nil_r. exact (hits_less _ _ _ _ _ Hb). }
  rewrite !app_nil_r in Hat.
  rewrite (search_here _ _ _ _ _ Hat), cap_head. reflexivity.
Qed.

(* ================================================================== *)
(** ** Indentation *)

Lemma split_on_cons : forall sep s, exists l ls, split_on sep s = l :: ls.
Proof.
  intros sep s. induction s as [|c s (l & ls & IH)]; [exists [], []; reflexivity|].
  simpl. destruct (chr_eqb c sep); [eexists; eexists; reflexivity|].
  rewrite IH. eexists; eexists; reflexivity.
Qed.

Lemma join_cons : forall sep l l' ls,
  join sep (l :: l' :: ls) = l ++ sep ++ join sep (l' :: ls).
Proof. reflexivity. Qed.

Lemma join_split : forall s, join NL (split_on NLc s) = s.
Proof.
  induction s as [|c s IH]; [reflexivity|].
  cbn [split_on]. destruct (split_on_cons NLc s) as (l & ls & E). rewrite E in *.
  destruct (chr_eqb c NLc) eqn:Ec.
  - apply chr_eqb_eq in Ec. subst c. rewrite join_cons, IH. reflexivity.
  - destruct ls as [|l' ls].
    + cbn [join] in *. rewrite IH. reflexivity.
    + rewrite join_cons. rewrite join_cons in IH. rewrite <- IH. reflexivity.
Qed.

Lemma split_on_lines : forall s,
  Forall (fun l => forallb (fun c => negb (chr_eqb c NLc)) l = true) (split_on NLc s).
Proof.
  induction s as [|c s IH]; [repeat constructor|].
  simpl. destruct (chr_eqb c NLc) eqn:Ec; [constructor; [reflexivity|exact IH]|].
  destruct (split_on NLc s) as [|l ls]; [repeat constructor; simpl; rewrite Ec; reflexivity|].
  inversion IH; subst. constructor; [|assumption].
  simpl. rewrite Ec. assumption.
Qed.

Lemma split_on_app_line : forall l s,
  forallb (fun c => negb (chr_eqb c NLc)) l = true ->
  split_on NLc (l ++ NLc :: s) = l :: split_on NLc s.
Proof.
  induction l as [|c l IH]; intros s H.
  - reflexivity.
  - simpl in H. apply andb_true_iff in H as [Hc Hl].
    simpl. destruct (chr_eqb c NLc); [discriminate Hc|]. rewrite (IH _ Hl). reflexivity.
Qed.

Lemma split_on_line : forall l,
  forallb (fun c => negb (chr_eqb c NLc)) l = true -> split_on NLc l = [l].
Proof.
  induction l as [|c l IH]; intros H; [reflexivity|].
  simpl in H. apply andb_true_iff in H as [Hc Hl].
  simpl. destruct (chr_eqb c NLc); [discriminate Hc|]. rewrite (IH Hl). reflexivity.
Qed.

Lemma split_join : forall l ls,
  Forall (fun l => forallb (fun c => negb (chr_eqb c NLc)) l = true) (l :: ls) ->
  split_on NLc (join NL (l :: ls)) = l :: ls.
Proof.
  intros l ls. revert l. induction ls as [|l' ls IH]; intros l H.
  - inversion H; subst. simpl. apply split_on_line. assumption.
  - inversion H; subst. rewrite join_cons. unfold NL at 1. cbn [app].
    rewrite split_on_app_line by assumption. rewrite IH by assumption. reflexivity.
Qed.

Lemma indent_lines_substitute : forall pad s,
  indent_lines pad s = pad ++ substitute NLc (NL ++ pad) s.
Proof.
  intros pad s. unfold indent_lines. induction s as [|c s IH].
  - simpl. rewrite app_nil_r. reflexivity.
  - unfold substitute. cbn [flat_map]. fold (substitute NLc (NL ++ pad) s).
    rewrite (chr_eqb_sym NLc c). cbn [split_on].
    destruct (split_on_cons NLc s) as (l & ls & E). rewrite E in *.
    destruct (chr_eqb c NLc) eqn:Ec.
    + cbn [map]. cbn [map] in IH. rewrite join_cons, app_nil_r, <- !app_assoc.
      apply (f_equal (app pad)). apply (f_equal (app NL)). exact IH.
    + cbn [map] in *. destruct ls as [|l' ls].
      * cbn [map join] in *. apply app_inv_head in IH. rewrite IH. reflexivity.
      * cbn [map] in *. rewrite join_cons in *. rewrite <- app_assoc in IH.
        apply app_inv_head in IH. rewrite <- app_assoc. cbn [app]. rewrite IH. reflexivity.
Qed.

(** X14. The indentation of the themed revisions keeps the lines of the
    content and puts the pad in front of each of them: the lines of the
    result are the lines of the content behind the pad, for every pad
    without a line feed. *)
Theorem indent_lines_lines : forall pad s,
  forallb (fun c => negb (chr_eqb c NLc)) pad = true ->
  split_on NLc (indent_lines pad s) = map (fun line => pad ++ line) (split_on NLc s).
Proof.
  intros pad s H. unfold indent_lines.
  destruct (split_on_cons NLc s) as (l & ls & E).
  pose proof (split_on_lines s) as Hl. rewrite E in *. cbn [map].
  apply split_join. change (Forall (fun l0 => forallb (fun c => negb (chr_eqb c NLc)) l0 = true)
                              (map (fun line => pad ++ line) (l :: ls))).
  apply Forall_map. eapply Forall_impl; [|exact Hl].
  intros x Hx. cbn beta. rewrite forallb_app, H, Hx. reflexivity.
Qed.

Lemma indent_lines_lines_witness :
  forallb (fun c => negb (chr_eqb c NLc)) (str "      ") = true /\
  split_on NLc (indent_lines (str "      ") (str "<G>" ++ NL ++ str "</G>")) =
  [str "      <G>"; str "      </G>"].
Proof.
  split; [reflexivity|].
  exact (indent_lines_lines (str "      ") (str "<G>" ++ NL ++ str "</G>") eq_refl).
Defined.

(** X15. The two ways of indenting agree: splitting, padding and joining
    as the themed revisions do is the replacement of every line feed by a
    line feed and the pad, as the generic revision does, behind one pad. *)
Theorem indent_lines_generic : forall s,
  indent_lines (str "  ") s = str "  " ++ Generic.indent s.
Proof.
  intros s. rewrite indent_lines_substitute. unfold Generic.indent.
  rewrite replace_chr. reflexivity.
Qed.

(* ================================================================== *)
(** ** The removal of width and height *)

(** A block that the pattern matches, and before which it cannot start,
    is cut out. *)
Lemma replace_cuts : forall fl r (hit : text -> bool) a block z,
  fg fl = true ->
  (forall p t res, attempt fl r p t = Some res -> hit t = true) ->
  hits hit a (block ++ z) = false ->
  (forall p, exists pf c, attempt fl r p (block ++ z) = Some (pf, z, c)) ->
  block <> [] ->
  hits hit z [] = false -> hit [] = false ->
  replace fl r (fun _ => []) (a ++ block ++ z) = a ++ z.
Proof.
  intros fl r hit a block z Hg Hhit Ha Hat Hne Hz H0.
  assert (Hnone : forall p t, hit t = false -> attempt fl r p t = None).
  { intros p t Ht. destruct (attempt fl r p t) eqn:E; [|reflexivity].
    apply Hhit in E. congruence. }
  unfold replace. rewrite Hg. rewrite replace_all_eq.
  rewrite search_skip.
  - destruct (Hat (rev a ++ [])) as (pf & c & E).
    rewrite (search_here _ _ _ _ _ E).
    apply attempt_sound in E as [Hs _].
    apply app_inv_tail in Hs. rewrite <- Hs.
    destruct block as [|b block]; [contradiction|].
    rewrite replace_all_none.
    + rewrite app_nil_r. reflexivity.
    + apply search_none. intros s1 s2 E2. apply Hnone.
      eapply hits_everywhere; eassumption.
  - intros a1 a2 E Hne2. apply Hnone. eapply hits_split; eassumption.
Qed.

Lemma size_attempt_hit : forall p t res,
  attempt f_g re_size p t = Some res -> size_hit t = true.
Proof.
  intros p t res H. unfold attempt, re_size, lit in H. cbn [run] in H.
  unfold size_hit.
  match type of H with
  | match ?X with _ => _ end = _ => destruct X eqn:E
  end.
  - apply opens_run in E. cbn [fi f_g] in E. rewrite E. reflexivity.
  - apply opens_run in H. cbn [fi f_g] in H. rewrite H. apply orb_true_r.
Qed.

Lemma size_rest : forall v z p c (k : cont) res,
  forallb no_dq v = true ->
  k (DQc :: rev v ++ DQc :: "="%char :: p) z c = Some res ->
  run f_g (Chr "=" +++ Chr DQc +++ star not_dq +++ Chr DQc)%re p
    ("="%char :: DQc :: v ++ DQc :: z) c k = Some res.
Proof.
  intros v z p c k res Hv Hk. rewrite !run_seq_chr. unfold star, not_dq.
  rewrite run_seq_greedy.
  apply greedy_cls_exact; [exact Hv|reflexivity|].
  cbn [run fi f_g]. rewrite chr_match_refl. exact Hk.
Qed.

Lemma size_attempt_shape : forall p s,
  attempt f_g re_size p s =
  match run f_g (lit_text (str "width")) p s []
          (fun p' s' c' =>
             run f_g (Chr "=" +++ Chr DQc +++ star not_dq +++ Chr DQc)%re p' s'
               ((1, consumed p p') :: c')
               (fun p2 s2 c2 => Some (p2, s2, (0, consumed p p2) :: c2))) with
  | Some res => Some res
  | None =>
      run f_g (lit_text (str "height")) p s []
        (fun p' s' c' =>
           run f_g (Chr "=" +++ Chr DQc +++ star not_dq +++ Chr DQc)%re p' s'
             ((1, consumed p p') :: c')
             (fun p2 s2 c2 => Some (p2, s2, (0, consumed p p2) :: c2)))
  end.
Proof. reflexivity. Qed.

Lemma size_attempt : forall name v z p,
  name = str "width" \/ name = str "height" ->
  forallb no_dq v = true ->
  exists pf c,
    attempt f_g re_size p (name ++ "="%char :: DQc :: v ++ DQc :: z) = Some (pf, z, c).
Proof.
  intros name v z p Hn Hv. rewrite size_attempt_shape.
  destruct Hn as [-> | ->].
  - rewrite run_lit_end. erewrite size_rest; [|exact Hv|reflexivity].
    eexists. eexists. reflexivity.
  - rewrite (run_lit f_g (str "width")).
    change (lit_strip (fi f_g) (str "width") (str "height" ++ "="%char :: DQc :: v ++ DQc :: z))
      with (@None (text * text)).
    cbv iota. rewrite run_lit_end. erewrite size_rest; [|exact Hv|reflexivity].
    eexists. eexists. reflexivity.
Qed.

(** X18. The removal of the width and height attributes does not look at
    what stands before the name: the text from [width=] or [height=] to
    the closing quote is cut out also where it is the end of a longer
    attribute name, which leaves the head of that name behind. *)
Theorem strip_size_cuts : forall name a v z,
  name = str "width" \/ name = str "height" ->
  hits size_hit a (name ++ str "=" ++ DQ ++ v ++ DQ ++ z) = false ->
  forallb no_dq v = true ->
  hits size_hit z [] = false ->
  Generic.strip_size (a ++ name ++ str "=" ++ DQ ++ v ++ DQ ++ z) = a ++ z
  /\ (occurs false (str "xmlns") (a ++ name ++ str "=" ++ DQ ++ v ++ DQ ++ z) = false ->
      strip_root_attributes (a ++ name ++ str "=" ++ DQ ++ v ++ DQ ++ z) = trim (a ++ z)).
Proof.
  intros name a v z Hn Ha Hv Hz.
  assert (E : replace f_g re_size (fun _ => []) (a ++ name ++ str "=" ++ DQ ++ v ++ DQ ++ z)
              = a ++ z).
  { replace (a ++ name ++ str "=" ++ DQ ++ v ++ DQ ++ z)
      with (a ++ (name ++ str "=" ++ DQ ++ v ++ DQ) ++ z)
      by (rewrite <- !app_assoc; reflexivity).
    apply (replace_cuts f_g re_size size_hit).
    - reflexivity.
    - exact size_attempt_hit.
    - rewrite <- !app_assoc. exact Ha.
    - intros p. rewrite <- !app_assoc. apply size_attempt; assumption.
    - destruct Hn as [-> | ->]; discriminate.
    - exact Hz.
    - reflexivity. }
  split; [exact E|].
  intros Hx. unfold strip_root_attributes, re_xmlns, lit.
  rewrite (replace_lit_noop f_g (str "xmlns")) by exact Hx.
  rewrite E. reflexivity.
Qed.

Lemma strip_size_cuts_witness :
  hits size_hit (str " stroke-") (str "width" ++ str "=" ++ DQ ++ str "2" ++ DQ ++ []) = false /\
  Generic.strip_size (str " stroke-" ++ str "width" ++ str "=" ++ DQ ++ str "2" ++ DQ ++ []) =
    str " stroke-" ++ [].
Proof.
  split; [reflexivity|].
  apply (strip_size_cuts (str "width") (str " stroke-") (str "2") []);
    [left; reflexivity|reflexivity|reflexivity|reflexivity].
Defined.

(* ================================================================== *)
(** ** A text with a root element is converted *)

Lemma search_some : forall fl r s1 s2 p res,
  attempt fl r (rev s1 ++ p) s2 = Some res ->
  exists sk res', search fl r p (s1 ++ s2) = Some (sk, res').
Proof.
  intros fl r s1. induction s1 as [|a s1 IH]; intros s2 p res H.
  - simpl in *. exists [], res. apply search_here. exact H.
  - cbn [app search]. destruct (attempt fl r p (a :: s1 ++ s2)) as [res0|].
    + eexists. eexists. reflexivity.
    + simpl in H. rewrite <- app_assoc in H. simpl in H.
      destruct (IH _ _ _ H) as (sk & res' & ->). eexists. eexists. reflexivity.
Qed.

Lemma lazy_cls_some : forall (P : ascii -> bool) (k : text -> text -> option outcome) u p s res,
  forallb P u = true ->
  k (rev u ++ p) s = Some res ->
  exists res', lazy_cls P k p (u ++ s) = Some res'.
Proof.
  intros P k u. induction u as [|a u IH]; intros p s res Hu Hk.
  - exists res. apply lazy_cls_here. exact Hk.
  - simpl in Hu. apply andb_true_iff in Hu as [Pa Hu].
    cbn [app lazy_cls]. destruct (k p (a :: u ++ s)) as [res0|]; [eexists; reflexivity|].
    rewrite Pa. apply (IH (a :: p) s res Hu). simpl in Hk. rewrite <- app_assoc in Hk. exact Hk.
Qed.

Lemma svg_attempt : forall attrs content behind p,
  forallb no_gt attrs = true ->
  exists res,
    attempt f_i re_svg p
      (str "<svg" ++ attrs ++ str ">" ++ content ++ str "</svg>" ++ behind) = Some res.
Proof.
  intros attrs content behind p Ha. unfold re_svg, lit.
  rewrite attempt_seq_lit. unfold star, not_gt. rewrite run_group_greedy.
  destruct (lazy_cls_some
              (cls_match (fi f_i) false (fun c => is_space c || negb (is_space c)))
              (fun p' s' =>
                 run f_i (lit_text (str "</svg>")) p' s'
                   ((2, consumed (">"%char :: rev attrs ++ rev (str "<svg") ++ p) p')
                      :: [(1, consumed (rev (str "<svg") ++ p) (rev attrs ++ rev (str "<svg") ++ p))])
                   (fun p'0 s'0 c' => Some (p'0, s'0, (0, consumed p p'0) :: c')))
              content (">"%char :: rev attrs ++ rev (str "<svg") ++ p)
              (str "</svg>" ++ behind)
              (rev (str "</svg>") ++ rev content ++ ">"%char :: rev attrs ++ rev (str "<svg") ++ p,
               behind,
               [(0, consumed p (rev (str "</svg>") ++ rev content ++ ">"%char :: rev attrs ++ rev (str "<svg") ++ p));
                (2, consumed (">"%char :: rev attrs ++ rev (str "<svg") ++ p)
                      (rev content ++ ">"%char :: rev attrs ++ rev (str "<svg") ++ p));
                (1, consumed (rev (str "<svg") ++ p) (rev attrs ++ rev (str "<svg") ++ p))]))
    as (res & Hres).
  - apply any_char_all.
  - rewrite run_lit_end. reflexivity.
  - exists res. apply greedy_cls_exact.
    + apply forallb_no_gt_any. exact Ha.
    + reflexivity.
    + change (str ">" ++ content ++ str "</svg>" ++ behind)
        with (">"%char :: content ++ str "</svg>" ++ behind).
      rewrite run_seq_chr. unfold lazy_star, any_char. rewrite run_group_lazy.
      exact Hres.
Qed.

(** X11. The converse of the missing root: when the sanitized text holds an
    opening [<svg] whose tag is closed and a closing [</svg>] behind it,
    both themed revisions generate source, whatever stands around the
    element and in it. *)
Theorem root_converts : forall r s before attrs content behind,
  is_themed r = true ->
  sanitize_text s =
    before ++ str "<svg" ++ attrs ++ str ">" ++ content ++ str "</svg>" ++ behind ->
  forallb no_gt attrs = true ->
  failed r (VString s) = false /\ exists src, generated r (VString s) = Some src.
Proof.
  intros r s before attrs content behind Hr Hs Ha.
  destruct (svg_attempt attrs content behind (rev before ++ []) Ha) as (res & Hres).
  destruct (search_some _ _ _ _ _ _ Hres) as (sk & [[pf s'] c] & Hsearch).
  assert (Hm : regex_match f_i re_svg (sanitize_text s) = Some c).
  { unfold regex_match. rewrite Hs, Hsearch. reflexivity. }
  destruct s as [|a s].
  { destruct before; discriminate Hs. }
  destruct r; [discriminate Hr| |].
  - unfold failed, generated, Themed.returns.
    cbn [truthy is_empty negb is_string orb].
    unfold Themed.body, sanitize, method_replace, bind.
    fold (strip_xml_decl (a :: s)). fold (sanitize_text (a :: s)).
    rewrite Hm. cbn [try_catch]. split; [reflexivity|]. eexists. reflexivity.
  - unfold failed, generated, Inline.returns.
    cbn [truthy is_empty negb is_string orb].
    unfold Inline.body, sanitize, method_replace, bind.
    fold (strip_xml_decl (a :: s)). fold (sanitize_text (a :: s)).
    rewrite Hm. cbn [try_catch]. split; [reflexivity|]. eexists. reflexivity.
Qed.

Lemma root_converts_witness :
  is_themed themed = true /\
  sanitize_text (str "x<svg a>y</svg>z") =
    str "x" ++ str "<svg" ++ str " a" ++ str ">" ++ str "y" ++ str "</svg>" ++ str "z" /\
  failed themed (VString (str "x<svg a>y</svg>z")) = false.
Proof.
  split; [reflexivity|]. split; [reflexivity|].
  exact (proj1 (root_converts themed (str "x<svg a>y</svg>z")
                  (str "x") (str " a") (str "y") (str "z") eq_refl eq_refl eq_refl)).
Defined.

(* ================================================================== *)
(** ** Instances of the facts about attribute names *)

Lemma camel_case_pair_witness :
  forallb is_alnum (str "stroke") = true /\ forallb is_alnum (str "width") = true /\
  camel_case (str "stroke" ++ str "-" ++ str "width" ++ str "=") =
    str "stroke" ++ capitalize (str "width") ++ str "=".
Proof.
  split; [reflexivity|]. split; [reflexivity|].
  exact (camel_case_pair (str "stroke") (str "width") eq_refl eq_refl eq_refl eq_refl).
Defined.

Lemma camel_case_two_hyphens_witness :
  forallb is_alnum (str "font") = true /\ forallb is_alnum (str "size") = true /\
  forallb is_alnum (str "adjust") = true /\
  camel_case (str "font" ++ str "-" ++ str "size" ++ str "-" ++ str "adjust" ++ str "=") =
    str "font" ++ str "-" ++ str "size" ++ capitalize (str "adjust") ++ str "=".
Proof.
  split; [reflexivity|]. split; [reflexivity|]. split; [reflexivity|].
  exact (camel_case_two_hyphens (str "font") (str "size") (str "adjust")
           eq_refl eq_refl eq_refl eq_refl eq_refl).
Defined.

(* ================================================================== *)
(** ** Blank lines *)

Lemma search_inv : forall fl r s p sk p1 s1 c,
  search fl r p s = Some (sk, (p1, s1, c)) ->
  (forall k1 k2, sk = k1 ++ k2 -> k2 <> [] ->
     attempt fl r (rev k1 ++ p) (k2 ++ cap 0 c ++ s1) = None) /\
  attempt fl r (rev sk ++ p) (cap 0 c ++ s1) = Some (p1, s1, c).
Proof.
  intros fl r. induction s as [|a s IH]; intros p sk p1 s1 c H; cbn [search] in H.
  - destruct (attempt fl r p []) as [res|] eqn:E; [|discriminate H].
    inversion H; subst. split.
    + intros k1 k2 E2 Hn. destruct k1, k2; try discriminate E2. contradiction.
    + destruct (attempt_sound _ _ _ _ _ _ _ E) as [Hs _]. rewrite <- Hs. exact E.
  - destruct (attempt fl r p (a :: s)) as [res|] eqn:E.
    + inversion H; subst. split.
      * intros k1 k2 E2 Hn. destruct k1, k2; try discriminate E2. contradiction.
      * destruct (attempt_sound _ _ _ _ _ _ _ E) as [Hs _]. rewrite <- Hs. exact E.
    + destruct (search fl r (a :: p) s) as [[sk' res]|] eqn:E2; [|discriminate H].
      inversion H; subst.
      destruct (search_sound _ _ _ _ _ _ _ _ E2) as [Hs _].
      destruct (IH _ _ _ _ _ E2) as [Hk Hat]. split.
      * intros k1 k2 E3 Hn. destruct k1 as [|b k1].
        -- simpl in E3. subst k2. simpl. rewrite <- Hs. exact E.
        -- simpl in E3. inversion E3; subst. simpl. rewrite <- app_assoc. simpl.
           apply Hk; [reflexivity|exact Hn].
      * simpl. rewrite <- app_assoc. exact Hat.
Qed.

Lemma search_none_inv : forall fl r s p,
  search fl r p s = None ->
  forall s1 s2, s = s1 ++ s2 -> attempt fl r (rev s1 ++ p) s2 = None.
Proof.
  intros fl r. induction s as [|a s IH]; intros p H s1 s2 E; cbn [search] in H.
  - destruct s1, s2; try discriminate E. simpl.
    destruct (attempt fl r p []); [discriminate H|reflexivity].
  - destruct (attempt fl r p (a :: s)) as [res|] eqn:Ea; [discriminate H|].
    destruct (search fl r (a :: p) s) as [[sk' res]|] eqn:E2; [discriminate H|].
    destruct s1 as [|b s1].
    + simpl in *. subst s2. exact Ea.
    + simpl in E. inversion E; subst. simpl. rewrite <- app_assoc. simpl.
      apply (IH _ E2). reflexivity.
Qed.

(** The pattern of a blank line, [^\s*\n] under flags g and m, at one
    place. *)
Lemma blank_attempt_shape : forall p t,
  attempt f_gm (Bol +++ star space +++ Chr NLc)%re p t =
  if line_start p
  then greedy_cls blank
         (fun p' s' =>
            run f_gm (Chr NLc) p' s' []
              (fun p2 s2 c2 => Some (p2, s2, (0, consumed p p2) :: c2))) p t
  else None.
Proof.
  intros p t.
  assert (E : attempt f_gm (Bol +++ star space +++ Chr NLc)%re p t =
              if line_start p
              then run f_gm (star space +++ Chr NLc)%re p t []
                     (fun p2 s2 c2 => Some (p2, s2, (0, consumed p p2) :: c2))
              else None).
  { destruct p as [|a p]; [reflexivity|].
    unfold attempt. cbn [run line_start fm f_gm andb].
    destruct (is_line_terminator a); reflexivity. }
  rewrite E. unfold star, space. rewrite run_seq_greedy. reflexivity.
Qed.

Section BlankLine.

Variable c0 : captures.
Variable k0 : cont.
Hypothesis k0_some : forall p s c,
  exists res, k0 p s c = Some res /\ snd (fst res) = s /\ fst (fst res) = p.

Lemma blank_rest_cons : forall p' a s',
  blank_rest c0 k0 p' (a :: s') = if chr_eqb NLc a then k0 (a :: p') s' c0 else None.
Proof.
  intros p' a s'. unfold blank_rest. cbn [run fi f_gm]. unfold chr_match. cbn [andb].
  rewrite orb_false_r. reflexivity.
Qed.

Lemma blank_nl_space : forall a, chr_eqb NLc a = true -> blank a = true.
Proof. intros a H. apply chr_eqb_eq in H. subst a. reflexivity. Qed.

(** A match needs a line feed in the white space ahead. *)
Lemma blank_greedy_hit : forall t p res,
  greedy_cls blank (blank_rest c0 k0) p t = Some res -> blank_ahead t = true.
Proof.
  induction t as [|a t IH]; intros p res H.
  - discriminate H.
  - cbn [greedy_cls] in H. cbn [blank_ahead].
    rewrite (chr_eqb_sym a NLc). destruct (chr_eqb NLc a) eqn:Ea; [reflexivity|].
    rewrite blank_rest_cons, Ea in H.
    destruct (blank a) eqn:Ba; [|discriminate H].
    rewrite blank_spec in Ba. rewrite Ba.
    destruct (greedy_cls blank (blank_rest c0 k0) (a :: p) t) as [res'|] eqn:E; [|discriminate H].
    rewrite (IH _ _ E). reflexivity.
Qed.

(** With a line feed in the white space ahead there is a match. *)
Lemma blank_greedy_some : forall t p,
  blank_ahead t = true -> exists res, greedy_cls blank (blank_rest c0 k0) p t = Some res.
Proof.
  induction t as [|a t IH]; intros p H; [discriminate H|].
  cbn [blank_ahead] in H. cbn [greedy_cls]. rewrite blank_rest_cons.
  rewrite (chr_eqb_sym a NLc) in H.
  destruct (chr_eqb NLc a) eqn:Ea.
  - rewrite (blank_nl_space a Ea).
    destruct (greedy_cls blank (blank_rest c0 k0) (a :: p) t) as [res'|]; [eexists; reflexivity|].
    destruct (k0_some (a :: p) t c0) as (res & -> & _). eexists. reflexivity.
  - cbn [orb] in H. apply andb_true_iff in H as [Sa Ht].
    rewrite blank_spec, Sa. destruct (IH (a :: p) Ht) as (res & ->). eexists. reflexivity.
Qed.

Lemma blank_greedy_none : forall t p,
  greedy_cls blank (blank_rest c0 k0) p t = None -> blank_ahead t = false.
Proof.
  intros t p H. destruct (blank_ahead t) eqn:E; [|reflexivity].
  destruct (blank_greedy_some t p E) as (res & Hres). congruence.
Qed.

(** The match takes the last line feed of the white space ahead. *)
Lemma blank_greedy_rest : forall t p res,
  greedy_cls blank (blank_rest c0 k0) p t = Some res ->
  blank_ahead (snd (fst res)) = false /\ line_start (fst (fst res)) = true.
Proof.
  induction t as [|a t IH]; intros p res H; [discriminate H|].
  cbn [greedy_cls] in H. rewrite blank_rest_cons in H.
  destruct (blank a) eqn:Ba.
  - destruct (greedy_cls blank (blank_rest c0 k0) (a :: p) t) as [res'|] eqn:E.
    + inversion H; subst. exact (IH _ _ E).
    + destruct (chr_eqb NLc a) eqn:Ea; [|discriminate H].
      destruct (k0_some (a :: p) t c0) as (res0 & E0 & Es & Ep). rewrite E0 in H.
      injection H as <-. rewrite Es, Ep. split; [exact (blank_greedy_none _ _ E)|].
      apply chr_eqb_eq in Ea. subst a. reflexivity.
  - destruct (chr_eqb NLc a) eqn:Ea; [|discriminate H].
    rewrite (blank_nl_space a Ea) in Ba. discriminate Ba.
Qed.

End BlankLine.

Lemma blank_attempt_hit : forall p t res,
  attempt f_gm (Bol +++ star space +++ Chr NLc)%re p t = Some res ->
  line_start p = true /\ blank_ahead t = true /\
  blank_ahead (snd (fst res)) = false /\ line_start (fst (fst res)) = true.
Proof.
  intros p t res H. rewrite blank_attempt_shape in H.
  destruct (line_start p); [|discriminate H].
  split; [reflexivity|]. split.
  - eapply (blank_greedy_hit []). exact H.
  - eapply (blank_greedy_rest []); [|exact H].
    intros p0 s0 c1. eexists. repeat split.
Qed.

Lemma blank_attempt_none : forall p t,
  attempt f_gm (Bol +++ star space +++ Chr NLc)%re p t = None ->
  line_start p = true -> blank_ahead t = false.
Proof.
  intros p t H Hp. rewrite blank_attempt_shape, Hp in H.
  eapply (blank_greedy_none []); [|exact H].
  intros p0 s0 c1. eexists. repeat split.
Qed.

Lemma blank_ahead_app : forall x y,
  blank_ahead (x ++ y) = false ->
  (forallb is_space x = true /\ blank_ahead y = false) \/
  (forall y', blank_ahead (x ++ y') = false).
Proof.
  induction x as [|c x IH]; intros y H.
  - left. split; [reflexivity|exact H].
  - cbn [app blank_ahead] in H. apply orb_false_iff in H as [Hc H].
    destruct (is_space c) eqn:Sc.
    + cbn [andb] in H. destruct (IH _ H) as [[Hx Hy]|Hr].
      * left. cbn [forallb]. rewrite Sc, Hx. split; [reflexivity|exact Hy].
      * right. intros y'. cbn [app blank_ahead]. rewrite Hc, Sc, (Hr y'). reflexivity.
    + right. intros y'. cbn [app blank_ahead]. rewrite Hc, Sc. reflexivity.
Qed.

Lemma line_start_app : forall t1 p q,
  t1 <> [] -> line_start (rev t1 ++ p) = line_start (rev t1 ++ q).
Proof.
  intros t1 p q H. destruct (rev t1) as [|a r] eqn:E.
  - apply (f_equal (@rev ascii)) in E. rewrite rev_involutive in E. contradiction.
  - reflexivity.
Qed.

(** What the removal of blank lines leaves behind: at no start of a line
    in the result the white space ahead holds a line feed. *)
Lemma blank_clean : forall n s p q,
  length s < n ->
  line_start p = line_start q ->
  (blank_ahead s = false ->
   blank_ahead (replace_loop n f_gm (Bol +++ star space +++ Chr NLc)%re (fun _ => []) p s) = false)
  /\ (line_start q = true ->
      blank_ahead (replace_loop n f_gm (Bol +++ star space +++ Chr NLc)%re (fun _ => []) p s) = false)
  /\ (forall t1 t2,
        replace_loop n f_gm (Bol +++ star space +++ Chr NLc)%re (fun _ => []) p s = t1 ++ t2 ->
        t1 <> [] -> line_start (rev t1 ++ q) = true -> blank_ahead t2 = false).
Proof.
  induction n as [|n IH]; intros s p q Hn Hpq; [lia|].
  cbn [replace_loop].
  destruct (search f_gm (Bol +++ star space +++ Chr NLc)%re p s)
    as [[sk [[p1 s1] c]]|] eqn:E.
  - destruct (search_sound _ _ _ _ _ _ _ _ E) as [Hs Hp1].
    destruct (search_inv _ _ _ _ _ _ _ _ E) as [Hskip Hat].
    destruct (blank_attempt_hit _ _ _ Hat) as (Hls & Hm & Hs1 & Hl1).
    cbn [fst snd] in Hs1, Hl1.
    destruct (cap 0 c) as [|m0 m] eqn:Em.
    { cbn [app] in Hm. congruence. }
    cbn [app].
    assert (Hlen : length s1 < n).
    { rewrite Hs, !length_app in Hn. cbn [length] in Hn. lia. }
    assert (Hq' : line_start (rev sk ++ q) = true).
    { destruct sk as [|a sk]; [cbn [rev app] in *; congruence|].
      rewrite (line_start_app (a :: sk) q p) by discriminate. exact Hls. }
    destruct (IH s1 p1 (rev sk ++ q) Hlen) as (A1 & B1 & C1); [congruence|].
    specialize (A1 Hs1). clear B1.
    set (out1 := replace_loop n f_gm (Bol +++ star space +++ Chr NLc)%re (fun _ => []) p1 s1) in *.
    assert (Hcut : forall l, l <> [] -> blank_ahead (l ++ (m0 :: m) ++ s1) = false ->
                             blank_ahead (l ++ out1) = false).
    { intros l _ Hl. destruct (blank_ahead_app _ _ Hl) as [[_ Hb]|Hr]; [congruence|apply Hr]. }
    assert (A : blank_ahead s = false -> blank_ahead (sk ++ out1) = false).
    { intros Hb. destruct sk as [|a sk]; [exact A1|].
      apply Hcut; [discriminate|]. rewrite <- Hs. exact Hb. }
    split; [exact A|]. split.
    + intros Hq. destruct sk as [|a sk]; [exact A1|].
      apply A. apply (blank_attempt_none p); [|congruence].
      rewrite Hs. apply (Hskip [] (a :: sk)); [reflexivity|discriminate].
    + intros t1 t2 Et Hne Hl.
      apply app_eq_app in Et as [l [[E1 E2]|[E1 E2]]].
      * destruct l as [|b l].
        -- rewrite app_nil_r in E1. subst. exact A1.
        -- subst t2. apply Hcut; [discriminate|].
           apply (blank_attempt_none (rev t1 ++ p)).
           ++ apply Hskip; [exact E1|discriminate].
           ++ rewrite (line_start_app t1 p q) by exact Hne. exact Hl.
      * destruct l as [|b l].
        -- rewrite app_nil_r in E1. cbn [app] in E2. subst. exact A1.
        -- apply (C1 (b :: l) t2 E2); [discriminate|].
           rewrite E1, rev_app_distr, <- app_assoc in Hl. exact Hl.
  - split; [intros H; exact H|]. split.
    + intros Hq. apply (blank_attempt_none p); [|congruence].
      exact (search_none_inv _ _ _ _ E [] s eq_refl).
    + intros t1 t2 Et Hne Hl. apply (blank_attempt_none (rev t1 ++ p)).
      * exact (search_none_inv _ _ _ _ E t1 t2 Et).
      * rewrite (line_start_app t1 p q) by exact Hne. exact Hl.
Qed.

Lemma strip_blank_lines_clean : forall s t1 t2,
  strip_blank_lines s = t1 ++ t2 ->
  line_start (rev t1) = true -> blank_ahead t2 = false.
Proof.
  intros s t1 t2 E Hl. unfold strip_blank_lines, replace, replace_all in E. cbn [fg f_gm] in E.
  destruct (blank_clean (S (length s)) s [] []) as (_ & B & C); [lia|reflexivity|].
  destruct t1 as [|a t1].
  - cbn [app] in E. rewrite <- E. apply B. reflexivity.
  - apply (C (a :: t1) t2 E); [discriminate|]. rewrite app_nil_r. exact Hl.
Qed.

(** X12. The removal of blank lines is idempotent: in its result the
    pattern of a blank line matches nowhere. *)
Theorem strip_blank_lines_idempotent : forall s,
  strip_blank_lines (strip_blank_lines s) = strip_blank_lines s.
Proof.
  intros s. unfold strip_blank_lines at 1. unfold replace. cbn [fg f_gm].
  apply replace_all_none. apply search_none. intros t1 t2 E.
  destruct (attempt f_gm _ (rev t1 ++ []) t2) as [res|] eqn:Ea; [|reflexivity].
  destruct (blank_attempt_hit _ _ _ Ea) as (Hl & Hb & _).
  rewrite app_nil_r in Hl. rewrite (strip_blank_lines_clean s t1 t2 E Hl) in Hb. discriminate Hb.
Qed.

Lemma squeeze_attempt_hit : forall p t res,
  attempt f_g (Chr NLc +++ star space +++ Chr NLc)%re p t = Some res ->
  exists t', t = NLc :: t' /\ blank_ahead t' = true.
Proof.
  intros p t res H. unfold attempt in H.
  change (run f_g (Grp 0 (Chr NLc +++ star space +++ Chr NLc)%re) p t []
            (fun p' s' c' => Some (p', s', c')))
    with (run f_g (Chr NLc +++ (star space +++ Chr NLc))%re p t []
            (fun p' s' c' => Some (p', s', (0, consumed p p') :: c'))) in H.
  destruct t as [|a t]; [discriminate H|].
  destruct (chr_eqb NLc a) eqn:Ea.
  - apply chr_eqb_eq in Ea. subst a. rewrite run_seq_chr in H.
    unfold star, space in H. rewrite run_seq_greedy in H.
    exists t. split; [reflexivity|].
    eapply (blank_greedy_hit []). exact H.
  - exfalso. cbn [run fi f_g] in H. unfold chr_match in H. rewrite Ea in H. discriminate H.
Qed.

(** X13. After the removal of blank lines the second replacement of the
    tidying, [/\n\s*\n/g] to one line feed, finds nothing to replace: it
    returns its input, and the tidying of both themed revisions is the
    removal of blank lines, [trim] and the indentation. *)
Theorem squeeze_lines_is_idle : forall s,
  squeeze_lines (strip_blank_lines s) = strip_blank_lines s
  /\ Themed.tidy s = indent_lines (str "      ") (trim (strip_blank_lines s))
  /\ Inline.tidy s = indent_lines (str "        ") (trim (strip_blank_lines s)).
Proof.
  intros s.
  assert (E : squeeze_lines (strip_blank_lines s) = strip_blank_lines s).
  { unfold squeeze_lines, replace. cbn [fg f_g].
    apply replace_all_none. apply search_none. intros t1 t2 Et.
    destruct (attempt f_g _ (rev t1 ++ []) t2) as [res|] eqn:Ea; [|reflexivity].
    destruct (squeeze_attempt_hit _ _ _ Ea) as (t' & -> & Hb).
    rewrite (strip_blank_lines_clean s (t1 ++ [NLc]) t') in Hb.
    - discriminate Hb.
    - rewrite Et, <- app_assoc. reflexivity.
    - rewrite rev_app_distr. reflexivity. }
  split; [exact E|]. unfold Themed.tidy, Inline.tidy. rewrite E. split; reflexivity.
Qed.

(* ================================================================== *)
(** ** An empty pair of tags *)

Lemma ref_match_here : forall ci w p s, ref_match ci w p (w ++ s) = Some (rev w ++ p, s).
Proof.
  intros ci w. induction w as [|x w IH]; intros p s; [reflexivity|].
  cbn [app ref_match]. rewrite chr_match_refl, IH. cbn [rev]. rewrite <- app_assoc. reflexivity.
Qed.

Lemma space_not_lt : forall c, is_space c = true -> chr_match false "<" c = false.
Proof.
  intros c H. unfold chr_match. cbn [andb]. rewrite orb_false_r.
  destruct (chr_eqb "<" c) eqn:E; [|reflexivity].
  apply chr_eqb_eq in E. subst c. discriminate H.
Qed.

Lemma no_close_in_blank : forall inner y,
  forallb is_space inner = true -> hits (opens false (str "</")) inner y = false.
Proof.
  induction inner as [|c inner IH]; intros y H; [reflexivity|].
  cbn [forallb] in H. apply andb_true_iff in H as [Hc Hi].
  cbn [hits]. rewrite (IH y Hi), orb_false_r.
  unfold opens. cbn [app str list_ascii_of_string lit_strip]. rewrite (space_not_lt c Hc). reflexivity.
Qed.

Lemma trim_blank : forall inner, forallb is_space inner = true -> trim inner = [].
Proof.
  intros inner H. unfold trim.
  assert (E : drop_spaces inner = []).
  { induction inner as [|c inner IH]; [reflexivity|].
    cbn [forallb] in H. apply andb_true_iff in H as [Hc Hi].
    cbn [drop_spaces]. rewrite Hc. exact (IH Hi). }
  rewrite E. reflexivity.
Qed.

(** One element with blank content is one match of the pattern. *)
Lemma paired_attempt : forall t0 tag attrs inner p,
  forallb is_alnum (t0 :: tag) = true ->
  forallb no_gt attrs = true ->
  match attrs with [] => true | a :: _ => negb (is_alnum a) end = true ->
  forallb is_space inner = true ->
  exists pf w,
    attempt f_g re_paired p
      (str "<" ++ (t0 :: tag) ++ attrs ++ str ">" ++ inner ++ str "</" ++ (t0 :: tag) ++ str ">") =
    Some (pf, [], [(0, w); (3, inner); (2, attrs); (1, t0 :: tag)]).
Proof.
  intros t0 tag attrs inner p Ht Ha Hh Hi.
  simpl in Ht. apply andb_true_iff in Ht as [Ht0 Ht].
  unfold attempt, re_paired, alnum, not_gt, star, lazy_star, any_char, lit.
  change (run f_g (Grp 0 ?r) p ?s [] ?k0)
    with (run f_g r p s [] (fun p' s' c' => k0 p' s' ((0, consumed p p') :: c'))).
  change (str "<" ++ (t0 :: tag) ++ attrs ++ str ">" ++ inner ++ str "</" ++ (t0 :: tag) ++ str ">")
    with ("<"%char :: t0 :: tag ++ attrs ++ ">"%char :: inner ++ str "</" ++ (t0 :: tag) ++ str ">").
  rewrite run_seq_chr.
  rewrite run_group_plus by (cbn [fi f_g]; fold (alnum_cls t0); rewrite alnum_cls_spec; exact Ht0).
  eexists. eexists.
  apply greedy_cls_exact; [apply forallb_alnum_cls; exact Ht | |].
  { destruct attrs as [|a attrs]; [reflexivity|].
    cbn [app fi f_g]. fold (alnum_cls a). rewrite alnum_cls_spec. exact Hh. }
  rewrite run_group_greedy.
  apply greedy_cls_exact; [exact Ha | reflexivity |].
  rewrite run_seq_chr. rewrite run_group_lazy.
  rewrite (lazy_scan (opens false (str "</"))).
  - apply lazy_cls_here. rewrite run_seq_lit.
    change (run f_g (Ref 1 +++ Chr ">")%re ?p0 ?s0 ?c0 ?k0)
      with (match ref_match (fi f_g) (cap 1 c0) p0 s0 with
            | Some (p', s') => run f_g (Chr ">") p' s' c0 k0
            | None => None
            end).
    cbn [cap find fst snd Nat.eqb]. rewrite consumed_cons.
    rewrite ref_match_here.
    change (run f_g (Chr ">") ?p0 (str ">") ?c0 ?k0) with (k0 (">"%char :: p0) (@nil ascii) c0).
    cbv beta. rewrite !consumed_app. reflexivity.
  - intros p0 t res H. eapply (opens_run_seq f_g). exact H.
  - apply any_char_all.
  - apply no_close_in_blank. exact Hi.
Qed.

(** X16. An element at the top of the content whose opening and closing
    tags enclose nothing but white space becomes self-closing, with its
    attribute text kept as it is. *)
Theorem collapse_empty_pair : forall tag attrs inner,
  forallb is_alnum tag = true -> is_empty tag = false ->
  forallb no_gt attrs = true ->
  match attrs with [] => true | a :: _ => negb (is_alnum a) end = true ->
  forallb is_space inner = true ->
  collapse_empty (str "<" ++ tag ++ attrs ++ str ">" ++ inner ++ str "</" ++ tag ++ str ">") =
  str "<" ++ tag ++ attrs ++ str " />".
Proof.
  intros [|t0 tag] attrs inner Ht He Ha Hh Hi; [discriminate He|].
  destruct (paired_attempt t0 tag attrs inner [] Ht Ha Hh Hi) as (pf & w & E).
  unfold collapse_empty, replace. cbn [fg f_g].
  rewrite replace_all_eq, (search_here _ _ _ _ _ E).
  pose proof (attempt_sound _ _ _ _ _ _ _ E) as [Hw _].
  rewrite cap_head, app_nil_r in Hw.
  rewrite cap_head. destruct w as [|w0 w]; [discriminate Hw|].
  rewrite replace_all_none by reflexivity.
  cbn [cap find fst snd Nat.eqb]. rewrite (trim_blank inner Hi). cbn [is_empty].
  rewrite app_nil_r. reflexivity.
Qed.

Lemma collapse_empty_pair_witness :
  forallb is_alnum (str "Rect") = true /\
  forallb no_gt (str " x=" ++ DQ ++ str "1" ++ DQ) = true /\
  forallb is_space (str " " ++ NL) = true /\
  collapse_empty (str "<" ++ str "Rect" ++ (str " x=" ++ DQ ++ str "1" ++ DQ) ++ str ">" ++
                  (str " " ++ NL) ++ str "</" ++ str "Rect" ++ str ">") =
  str "<" ++ str "Rect" ++ (str " x=" ++ DQ ++ str "1" ++ DQ) ++ str " />".
Proof.
  split; [reflexivity|]. split; [reflexivity|]. split; [reflexivity|].
  exact (collapse_empty_pair (str "Rect") (str " x=" ++ DQ ++ str "1" ++ DQ) (str " " ++ NL)
           eq_refl eq_refl eq_refl eq_refl eq_refl).
Defined.

(* ================================================================== *)
(** ** The highlighter marks its own markup *)

Lemma alnum_differs : forall x c,
  is_alnum x = false -> is_alnum c = true -> chr_eqb x c = false.
Proof.
  intros x c Hx Hc. destruct (chr_eqb x c) eqn:E; [|reflexivity].
  apply chr_eqb_eq in E. subst c. congruence.
Qed.

Lemma alnum_free : forall x name,
  is_alnum x = false -> forallb is_alnum name = true ->
  forallb (fun a => negb (chr_eqb x a)) name = true.
Proof.
  intros x name Hx H. apply forallb_forall. intros a Ha.
  rewrite forallb_forall in H. rewrite (alnum_differs x a Hx (H a Ha)). reflexivity.
Qed.

Lemma run_group_lit : forall fl n w r p s c k,
  run fl (Grp n (lit_text w) +++ r)%re p (w ++ s) c k =
  run fl r (rev w ++ p) s ((n, w) :: c) k.
Proof.
  intros fl n w r p s c k.
  change (run fl (Grp n (lit_text w) +++ r)%re p (w ++ s) c k)
    with (run fl (lit_text w) p (w ++ s) c
            (fun p' s' c' => run fl r p' s' ((n, consumed p p') :: c') k)).
  rewrite run_lit_end, consumed_app. reflexivity.
Qed.

Lemma run_opt_skip : forall fl n x r p a s c k,
  chr_match (fi fl) x a = false ->
  run fl (opt (Grp n (Chr x)) +++ r)%re p (a :: s) c k = run fl r p (a :: s) c k.
Proof.
  intros fl n x r p a s c k H. unfold opt.
  change (run fl (Alt (Grp n (Chr x)) Eps +++ r)%re p (a :: s) c k)
    with (match (if chr_match (fi fl) x a
                 then run fl r (a :: p) s ((n, consumed p (a :: p)) :: c) k
                 else None) with
          | Some res => Some res
          | None => run fl r p (a :: s) c k
          end).
  rewrite H. reflexivity.
Qed.

Lemma run_group_plus_end : forall fl n neg f p a s c k,
  cls_match (fi fl) neg f a = true ->
  run fl (Grp n (plus (Cls neg f))) p (a :: s) c k =
  greedy_cls (cls_match (fi fl) neg f)
    (fun p' s' => k p' s' ((n, consumed p p') :: c)) (a :: p) s.
Proof.
  intros fl n neg f p a s c k H. unfold plus.
  change (run fl (Grp n (Cls neg f +++ Star true (Cls neg f))%re) p (a :: s) c k)
    with (if cls_match (fi fl) neg f a
          then run fl (Star true (Cls neg f)) (a :: p) s c
                 (fun p' s' c' => k p' s' ((n, consumed p p') :: c'))
          else None).
  rewrite H, run_star_greedy. reflexivity.
Qed.

(** The tag pattern on an escaped opening bracket and a name. *)
Lemma tag_attempt : forall n0 name p,
  forallb is_alnum (n0 :: name) = true ->
  exists pf w,
    attempt f_g Highlight.re_tag p (str "&lt;" ++ n0 :: name) =
    Some (pf, [], [(0, w); (3, n0 :: name); (1, str "&lt;")]).
Proof.
  intros n0 name p H. simpl in H. apply andb_true_iff in H as [H0 H].
  unfold attempt, Highlight.re_tag, lit, alnum.
  change (run f_g (Grp 0 ?r) p ?s [] ?k0)
    with (run f_g r p s [] (fun p' s' c' => k0 p' s' ((0, consumed p p') :: c'))).
  rewrite run_group_lit.
  rewrite run_opt_skip.
  2:{ cbn [fi f_g]. unfold chr_match. cbn [andb]. rewrite orb_false_r.
      apply alnum_differs; [reflexivity|exact H0]. }
  rewrite run_group_plus_end
    by (cbn [fi f_g]; fold (alnum_cls n0); rewrite alnum_cls_spec; exact H0).
  eexists. eexists.
  rewrite <- (app_nil_r name) at 1.
  apply greedy_cls_exact; [apply forallb_alnum_cls; exact H | reflexivity |].
  cbv beta. rewrite consumed_cons. reflexivity.
Qed.

Lemma mark_tags_name : forall name,
  forallb is_alnum name = true -> is_empty name = false ->
  Highlight.mark_tags (str "&lt;" ++ name) =
  str "&lt;<span class=" ++ DQ ++ str "token tag" ++ DQ ++ str ">" ++ name ++ str "</span>".
Proof.
  intros [|n0 name] H He; [discriminate He|].
  destruct (tag_attempt n0 name [] H) as (pf & w & E).
  unfold Highlight.mark_tags, replace. cbn [fg f_g].
  rewrite replace_all_eq, (search_here _ _ _ _ _ E), cap_head.
  pose proof (attempt_sound _ _ _ _ _ _ _ E) as [Hw _].
  rewrite cap_head, app_nil_r in Hw.
  destruct w as [|w0 w]; [discriminate Hw|].
  rewrite replace_all_none by reflexivity.
  cbn [cap find fst snd Nat.eqb]. rewrite app_nil_r. reflexivity.
Qed.

Lemma equals_after_run : forall u r,
  forallb Highlight.name_char u = true -> equals_after_name (u ++ "="%char :: r) = true.
Proof.
  induction u as [|c u IH]; intros r H; [reflexivity|].
  cbn [forallb] in H. apply andb_true_iff in H as [Hc Hu].
  cbn [app equals_after_name]. rewrite Hc, (IH r Hu). apply orb_true_r.
Qed.

Lemma attribute_attempt_hit : forall p t res,
  attempt f_g Highlight.re_attribute p t = Some res -> attribute_hit t = true.
Proof.
  intros p t res H. unfold attempt, Highlight.re_attribute in H.
  change (run f_g (Grp 0 ?r) p t [] ?k0)
    with (run f_g r p t [] (fun p' s' c' => k0 p' s' ((0, consumed p p') :: c'))) in H.
  destruct t as [|a t]; [discriminate H|].
  destruct (cls_match (fi f_g) false Highlight.name_char a) eqn:Ea.
  - rewrite run_group_plus in H by exact Ea.
    apply greedy_cls_sound in H as (u & s' & -> & Hu & Hk).
    destruct s' as [|b s']; [discriminate Hk|].
    destruct (chr_eqb "=" b) eqn:Eb.
    + apply chr_eqb_eq in Eb. subst b.
      cbn [attribute_hit]. cbn [cls_match fi f_g] in Ea. cbn in Ea. rewrite orb_false_r in Ea.
      rewrite Ea. change (a :: u ++ "="%char :: s') with ((a :: u) ++ "="%char :: s').
      rewrite equals_after_run; [reflexivity|].
      cbn [forallb]. rewrite Ea.
      apply (forallb_impl (cls_match (fi f_g) false Highlight.name_char)); [|exact Hu].
      intros c Hc. cbn in Hc. rewrite orb_false_r in Hc. exact Hc.
    + exfalso. cbn [run fi f_g] in Hk. unfold chr_match in Hk. rewrite Eb in Hk.
      discriminate Hk.
  - rewrite run_group_plus_none in H; [discriminate H|]. rewrite Ea. reflexivity.
Qed.

Lemma dot_chars : forall x,
  forallb (fun c => negb (is_line_terminator c)) x = true ->
  forallb (cls_match false true is_line_terminator) x = true.
Proof.
  intros x H. apply (forallb_impl (fun c => negb (is_line_terminator c))); [|exact H].
  intros c Hc. unfold cls_match. cbn [andb]. rewrite orb_false_r. exact Hc.
Qed.

Lemma alt_first : forall (x y : option outcome) res,
  x = Some res -> match x with Some r => Some r | None => y end = Some res.
Proof. intros x y res ->. reflexivity. Qed.

(** The attribute pattern on [class=DQ token tag DQ]. *)
Lemma class_attempt : forall rest p,
  exists pf w,
    attempt f_g Highlight.re_attribute p
      (str "class=" ++ DQ ++ str "token tag" ++ DQ ++ rest) =
    Some (pf, rest, [(0, w); (2, DQ ++ str "token tag" ++ DQ); (1, str "class")]).
Proof.
  intros rest p. unfold attempt, Highlight.re_attribute, lazy_star, dot.
  change (run f_g (Grp 0 ?r) p ?s [] ?k0)
    with (run f_g r p s [] (fun p' s' c' => k0 p' s' ((0, consumed p p') :: c'))).
  change (str "class=" ++ DQ ++ str "token tag" ++ DQ ++ rest)
    with ("c"%char :: str "lass" ++ "="%char :: DQc :: str "token tag" ++ DQc :: rest).
  rewrite run_group_plus by reflexivity.
  eexists. eexists.
  apply greedy_cls_exact; [reflexivity | reflexivity |].
  rewrite run_seq_chr.
  change (run f_g (Grp 2 (Alt ?A ?B)) ?p0 ?s0 ?c0 ?k0)
    with (match run f_g A p0 s0 c0 (fun p' s' c' => k0 p' s' ((2, consumed p0 p') :: c')) with
          | Some res => Some res
          | None => run f_g B p0 s0 c0 (fun p' s' c' => k0 p' s' ((2, consumed p0 p') :: c'))
          end).
  apply alt_first.
  rewrite run_seq_chr, run_seq_lazy.
  rewrite (lazy_cls_first _ _ (str "token tag")).
  - apply lazy_cls_here.
    cbn [run fi f_g]. rewrite chr_match_refl. cbv beta.
    change (DQc :: rev (str "token tag") ++ DQc :: "="%char :: rev (str "lass") ++ "c"%char :: p)
      with (rev (DQ ++ str "token tag" ++ DQ) ++ "="%char :: rev (str "lass") ++ "c"%char :: p).
    rewrite consumed_app.
    change (rev (str "lass") ++ "c"%char :: p) with (rev (str "class") ++ p).
    rewrite consumed_app. reflexivity.
  - reflexivity.
  - intros u1 u2 E Hn.
    destruct u2 as [|b u2]; [contradiction|].
    assert (Hb : chr_match false DQc b = false).
    { assert (Hin : In b (str "token tag")) by (rewrite E; apply in_or_app; right; left; reflexivity).
      simpl in Hin. repeat (destruct Hin as [<-|Hin]; [reflexivity|]). contradiction. }
    cbn [app run fi f_g]. rewrite Hb. reflexivity.
Qed.

Lemma mark_attributes_span : forall name,
  forallb is_alnum name = true ->
  Highlight.mark_attributes
    (str "&lt;<span class=" ++ DQ ++ str "token tag" ++ DQ ++ str ">" ++ name ++ str "</span>") =
  str "&lt;<span <span class=" ++ DQ ++ str "token attr-name" ++ DQ ++
  str ">class</span>=<span class=" ++ DQ ++ str "token attr-value" ++ DQ ++ str ">" ++
  DQ ++ str "token tag" ++ DQ ++ str "</span>>" ++ name ++ str "</span>".
Proof.
  intros name H.
  change (str "&lt;<span class=" ++ DQ ++ str "token tag" ++ DQ ++ str ">" ++ name ++ str "</span>")
    with (str "&lt;<span " ++
          (str "class=" ++ DQ ++ str "token tag" ++ DQ ++ (str ">" ++ name ++ str "</span>"))).
  unfold Highlight.mark_attributes, replace. cbn [fg f_g].
  rewrite replace_all_eq, search_skip.
  - destruct (class_attempt (str ">" ++ name ++ str "</span>") (rev (str "&lt;<span ") ++ []))
      as (pf & w & E).
    rewrite (search_here _ _ _ _ _ E).
    pose proof (attempt_sound _ _ _ _ _ _ _ E) as [Hw _].
    rewrite cap_head in Hw. rewrite cap_head.
    destruct w as [|w0 w].
    { apply (f_equal (@length ascii)) in Hw. rewrite !length_app in Hw.
      cbn [length str list_ascii_of_string DQ app] in Hw. lia. }
    rewrite replace_all_none.
    + cbn [cap find fst snd Nat.eqb]. reflexivity.
    + apply (search_needs f_g "="); [reflexivity|].
      cbn [fi f_g]. unfold chr_match. cbn [andb].
      rewrite !forallb_app. cbn [forallb str list_ascii_of_string].
      assert (Hn : forallb (fun a => negb (chr_eqb "=" a || false)) name = true).
      { apply forallb_forall. intros a Ha. rewrite forallb_forall in H.
        rewrite (alnum_differs "=" a eq_refl (H a Ha)). reflexivity. }
      rewrite Hn. reflexivity.
  - intros a1 a2 E Hn.
    destruct (attempt f_g Highlight.re_attribute (rev a1 ++ []) _) as [res|] eqn:Ea; [|reflexivity].
    apply attribute_attempt_hit in Ea.
    rewrite (hits_split attribute_hit (str "&lt;<span ") _ eq_refl a1 a2 E Hn) in Ea.
    discriminate Ea.
Qed.

Lemma comment_attempt_hit : forall p t res,
  attempt f_g Highlight.re_comment p t = Some res -> comment_hit t = true.
Proof.
  intros p t res H. unfold attempt, Highlight.re_comment, lit in H.
  change (run f_g (Grp 0 (Grp 1 (Alt ?A ?B))) p t [] ?k0)
    with (match run f_g A p t []
                  (fun p' s' c' => k0 p' s' ((0, consumed p p') :: (1, consumed p p') :: c')) with
          | Some r => Some r
          | None => run f_g B p t []
                      (fun p' s' c' => k0 p' s' ((0, consumed p p') :: (1, consumed p p') :: c'))
          end) in H.
  unfold comment_hit.
  match type of H with
  | match ?X with _ => _ end = _ => destruct X eqn:E
  end.
  - apply opens_run_seq in E. cbn [fi f_g] in E. rewrite E. reflexivity.
  - apply opens_run_seq in H. cbn [fi f_g] in H. rewrite H. apply orb_true_r.
Qed.

Lemma no_comment_in_name : forall name y,
  forallb is_alnum name = true -> hits comment_hit name y = false.
Proof.
  induction name as [|c name IH]; intros y H; [reflexivity|].
  cbn [forallb] in H. apply andb_true_iff in H as [Hc Hn].
  cbn [hits]. rewrite (IH y Hn), orb_false_r.
  unfold comment_hit, opens. cbn [app str list_ascii_of_string lit_strip].
  unfold chr_match. cbn [andb]. rewrite orb_false_r.
  rewrite (alnum_differs "/" c eq_refl Hc). reflexivity.
Qed.

Lemma mark_comments_span : forall name,
  forallb is_alnum name = true ->
  Highlight.mark_comments
    (str "&lt;<span <span class=" ++ DQ ++ str "token attr-name" ++ DQ ++
     str ">class</span>=<span class=" ++ DQ ++ str "token attr-value" ++ DQ ++ str ">" ++
     DQ ++ str "token tag" ++ DQ ++ str "</span>>" ++ name ++ str "</span>") =
  str "&lt;<span <span class=" ++ DQ ++ str "token attr-name" ++ DQ ++
  str ">class</span>=<span class=" ++ DQ ++ str "token attr-value" ++ DQ ++ str ">" ++
  DQ ++ str "token tag" ++ DQ ++ str "</span>>" ++ name ++ str "</span>".
Proof.
  intros name H.
  assert (Hh : hits comment_hit
                 (str "&lt;<span <span class=" ++ DQ ++ str "token attr-name" ++ DQ ++
                  str ">class</span>=<span class=" ++ DQ ++ str "token attr-value" ++ DQ ++
                  str ">" ++ DQ ++ str "token tag" ++ DQ ++ str "</span>>" ++ name ++
                  str "</span>") [] = false).
  { change (str "&lt;<span <span class=" ++ DQ ++ str "token attr-name" ++ DQ ++
            str ">class</span>=<span class=" ++ DQ ++ str "token attr-value" ++ DQ ++ str ">" ++
            DQ ++ str "token tag" ++ DQ ++ str "</span>>" ++ name ++ str "</span>")
      with ((str "&lt;<span <span class=" ++ DQ ++ str "token attr-name" ++ DQ ++
             str ">class</span>=<span class=" ++ DQ ++ str "token attr-value" ++ DQ ++ str ">" ++
             DQ ++ str "token tag" ++ DQ ++ str "</span>>") ++ name ++ str "</span>").
    rewrite !hits_app. rewrite (no_comment_in_name name _ H). reflexivity. }
  unfold Highlight.mark_comments, replace. cbn [fg f_g].
  apply replace_all_none. apply search_none. intros s1 s2 E.
  destruct (attempt f_g Highlight.re_comment (rev s1 ++ []) s2) as [res|] eqn:Ea; [|reflexivity].
  apply comment_attempt_hit in Ea.
  rewrite (hits_everywhere comment_hit _ Hh eq_refl s1 s2 E) in Ea. discriminate Ea.
Qed.

(** X3. The highlighter of the input editor marks its own markup: for
    every tag name, the span that the tag step puts around the name is
    then read by the attribute step as an attribute [class], so that the
    opening of that span is broken up by two further spans. *)
Theorem highlight_marks_its_span : forall name,
  forallb is_alnum name = true -> is_empty name = false ->
  Highlight.highlight (str "<" ++ name) (str "html") =
  str "&lt;<span <span class=" ++ DQ ++ str "token attr-name" ++ DQ ++
  str ">class</span>=<span class=" ++ DQ ++ str "token attr-value" ++ DQ ++ str ">" ++
  DQ ++ str "token tag" ++ DQ ++ str "</span>>" ++ name ++ str "</span>".
Proof.
  intros name H He.
  unfold Highlight.highlight.
  change (text_eqb (str "html") (str "html")) with true. cbv iota.
  unfold Highlight.syntaxHighlight.
  assert (E : Highlight.escape_gt (Highlight.escape_lt (str "<" ++ name)) = str "&lt;" ++ name).
  { unfold Highlight.escape_gt, Highlight.escape_lt. rewrite !replace_chr.
    change (substitute "<" (str "&lt;") (str "<" ++ name))
      with (str "&lt;" ++ substitute "<" (str "&lt;") name).
    rewrite (substitute_id "<") by (apply alnum_free; [reflexivity|exact H]).
    apply substitute_id. rewrite forallb_app.
    rewrite (alnum_free ">" name eq_refl H). reflexivity. }
  rewrite E, (mark_tags_name name H He), (mark_attributes_span name H).
  apply mark_comments_span. exact H.
Qed.

Lemma highlight_marks_its_span_witness :
  forallb is_alnum (str "svg") = true /\
  Highlight.highlight (str "<" ++ str "svg") (str "html") =
  str "&lt;<span <span class=" ++ DQ ++ str "token attr-name" ++ DQ ++
  str ">class</span>=<span class=" ++ DQ ++ str "token attr-value" ++ DQ ++ str ">" ++
  DQ ++ str "token tag" ++ DQ ++ str "</span>>" ++ str "svg" ++ str "</span>".
Proof.
  split; [reflexivity|].
  exact (highlight_marks_its_span (str "svg") eq_refl eq_refl).
Defined.

(* ================================================================== *)
(** ** The width and the height of the root *)

Lemma value_char_ci : forall c,
  Inline.value_char c = false ->
  cls_match true true Inline.value_char c = true.
Proof.
  intros c H. unfold cls_match. rewrite H. cbn [orb andb xorb].
  destruct c as [b0 b1 b2 b3 b4 b5 b6 b7].
  destruct b0, b1, b2, b3, b4, b5, b6, b7; try reflexivity; discriminate H.
Qed.

Lemma value_chars_ci : forall w,
  forallb (fun c => negb (Inline.value_char c)) w = true ->
  forallb (cls_match true true Inline.value_char) w = true.
Proof.
  intros w H. apply (forallb_impl (fun c => negb (Inline.value_char c))); [|exact H].
  intros c Hc. apply value_char_ci. apply negb_true_iff. exact Hc.
Qed.

Lemma run_opt_take : forall fl neg f r p a s c k res,
  cls_match (fi fl) neg f a = true ->
  run fl r (a :: p) s c k = Some res ->
  run fl (opt (Cls neg f) +++ r)%re p (a :: s) c k = Some res.
Proof.
  intros fl neg f r p a s c k res Ha H. unfold opt.
  change (run fl (Alt (Cls neg f) Eps +++ r)%re p (a :: s) c k)
    with (match (if cls_match (fi fl) neg f a then run fl r (a :: p) s c k else None) with
          | Some res0 => Some res0
          | None => run fl r p (a :: s) c k
          end).
  rewrite Ha, H. reflexivity.
Qed.

(** The dimension pattern on a double-quoted attribute. *)
Lemma dimension_attempt : forall name w0 w z p,
  forallb (fun c => negb (Inline.value_char c)) (w0 :: w) = true ->
  exists pf m,
    attempt f_i (Inline.re_dimension name) p
      (str name ++ str "=" ++ DQ ++ (w0 :: w) ++ DQ ++ z) =
    Some (pf, DQ ++ z, [(0, m); (1, w0 :: w)]).
Proof.
  intros name w0 w z p H.
  pose proof (value_chars_ci _ H) as Hci. cbn [forallb] in Hci.
  apply andb_true_iff in Hci as [H0 Hw].
  unfold Inline.re_dimension, lit, Inline.quote, star, space.
  rewrite attempt_seq_lit.
  change (str "=" ++ DQ ++ (w0 :: w) ++ DQ ++ z) with ("="%char :: DQc :: w0 :: w ++ DQc :: z).
  rewrite run_seq_greedy, greedy_cls_stop by reflexivity.
  rewrite run_seq_chr.
  rewrite run_seq_greedy, greedy_cls_stop by reflexivity.
  eexists. eexists.
  apply run_opt_take; [reflexivity|].
  rewrite run_group_plus_end by exact H0.
  apply greedy_cls_exact; [exact Hw | reflexivity |].
  cbv beta. rewrite consumed_cons. reflexivity.
Qed.

(** X19. The sizing of the inline revision on a root whose attribute text
    holds the name of a dimension for the first time in a double-quoted
    attribute: the value of that attribute is the dimension. Without the
    name anywhere in the attribute text the dimension is 100. *)
Theorem dimension_of_root : forall name before value behind,
  hits (opens true (str name)) before
    (str name ++ str "=" ++ DQ ++ value ++ DQ ++ behind) = false ->
  is_empty value = false ->
  forallb (fun c => negb (Inline.value_char c)) value = true ->
  Inline.dimension name (before ++ str name ++ str "=" ++ DQ ++ value ++ DQ ++ behind) = value
  /\ (forall svgAttrs,
        occurs true (str name) svgAttrs = false -> Inline.dimension name svgAttrs = str "100").
Proof.
  intros name before [|w0 w] behind Hb He Hv; [discriminate He|]. split.
  - unfold Inline.dimension, regex_match.
    rewrite search_skip.
    + destruct (dimension_attempt name w0 w behind (rev before ++ []) Hv) as (pf & m & E).
      rewrite (search_here _ _ _ _ _ E). reflexivity.
    + intros a1 a2 E Hn. unfold Inline.re_dimension, lit.
      apply attempt_lit_none. apply opens_false.
      exact (hits_split _ _ _ Hb a1 a2 E Hn).
  - intros svgAttrs H. unfold Inline.dimension, Inline.re_dimension, lit.
    rewrite regex_match_lit_none by exact H. reflexivity.
Qed.

Lemma dimension_of_root_witness :
  hits (opens true (str "width")) (str " id=" ++ DQ ++ str "a" ++ DQ ++ str " ")
    (str "width" ++ str "=" ++ DQ ++ str "24" ++ DQ ++ str " height=" ++ DQ ++ str "12" ++ DQ) = false /\
  Inline.dimension "width"
    ((str " id=" ++ DQ ++ str "a" ++ DQ ++ str " ") ++ str "width" ++ str "=" ++ DQ ++ str "24" ++ DQ ++
     str " height=" ++ DQ ++ str "12" ++ DQ) = str "24".
Proof.
  split; [reflexivity|].
  exact (proj1 (dimension_of_root "width" (str " id=" ++ DQ ++ str "a" ++ DQ ++ str " ") (str "24")
                  (str " height=" ++ DQ ++ str "12" ++ DQ) eq_refl eq_refl eq_refl)).
Defined.
